(** * The SwingSet virtual object manager: LRU cache of inner selves,
      kinds and representatives, and the virtual weak store.

    Shallow embedding of
    [packages/SwingSet/src/kernel/virtualObjectManager.js].

    JavaScript objects live in typed heaps (finite maps from addresses);
    a reference is an address, [undefined]/[null] is [None].  Every
    function of the source is a state transformer that may return, throw
    (keeping the state reached when the exception was raised), or fail to
    produce a JavaScript behaviour at all (loop budget exhausted, or a
    reference that no JavaScript heap could contain). *)

From Stdlib Require Import Ascii.
From stdpp Require Import gmap strings list fin_maps pretty.

Abbreviation addr := nat.

(** ** Exceptions and outcomes *)

(** The values the code throws.  [External] stands for whatever a
    collaborator (codec, slot parser) throws. *)
Inductive Error :=
  | CacheOverflow
  | UnknownKind (kindID : string)
  | AlreadyRegistered (keyName : string)
  | NotFound (keyName : string)
  | StillInitializing
  | TypeError
  | SyntaxError
  | External (msg : string).

(** [q(s)] of [@agoric/assert] on a string: [JSON.stringify(s)], the
    string between double quotes, with the double quote, the backslash
    and the control characters escaped. *)
Definition hexDigit (n : N) : Ascii.ascii :=
  Ascii.ascii_of_N (if (n <? 10)%N then 48 + n else 87 + n).
Definition escape (a : Ascii.ascii) : string :=
  let n := Ascii.N_of_ascii a in
  let bs := String (Ascii.ascii_of_N 92) in
  if (n =? 34)%N then bs (String a EmptyString)
  else if (n =? 92)%N then bs (String a EmptyString)
  else if (n =? 8)%N then bs "b"
  else if (n =? 9)%N then bs "t"
  else if (n =? 10)%N then bs "n"
  else if (n =? 12)%N then bs "f"
  else if (n =? 13)%N then bs "r"
  else if (n <? 32)%N
       then bs (String "u"%char (String "0"%char (String "0"%char
              (String (hexDigit (n / 16)) (String (hexDigit (n mod 16))
                 EmptyString)))))
  else String a EmptyString.
Fixpoint escaped (s : string) : string :=
  match s with
  | EmptyString => EmptyString
  | String a s' => escape a +:+ escaped s'
  end.
Definition q (s : string) : string :=
  let dq := String (Ascii.ascii_of_N 34) EmptyString in
  dq +:+ escaped s +:+ dq.

(** The [message] property of the thrown error.  The weak store's two
    messages are built by [details`${q(keyName)} already registered:
    ${key}`] and [details`${q(keyName)} not found: ${key}`]: the key
    name goes through [q]; the key, an object that is not quoted, is
    rendered as [(an object)]. *)
Definition message (e : Error) : string :=
  match e with
  | CacheOverflow => "cache overflowed with objects being initialized"
  | UnknownKind kindID => "unknown kind " +:+ kindID
  | AlreadyRegistered keyName =>
      q keyName +:+ " already registered: (an object)"
  | NotFound keyName => q keyName +:+ " not found: (an object)"
  | StillInitializing => "object is still being initialized"
  | TypeError => "TypeError"
  | SyntaxError => "SyntaxError"
  | External msg => msg
  end.

Inductive Failure := OutOfFuel | Dangling.

Inductive Res (S A : Type) :=
  | Ok (a : A) (s : S)
  | Throw (e : Error) (s : S)
  | Fail (f : Failure).
Arguments Ok {S A} a s.
Arguments Throw {S A} e s.
Arguments Fail {S A} f.

Definition M (S A : Type) : Type := S → Res S A.

Definition ret {S A} (a : A) : M S A := λ s, Ok a s.
Definition bind {S A B} (m : M S A) (k : A → M S B) : M S B :=
  λ s, match m s with
       | Ok a s' => k a s'
       | Throw e s' => Throw e s'
       | Fail f => Fail f
       end.
Definition throw {S A} (e : Error) : M S A := λ s, Throw e s.
Definition fail {S A} (f : Failure) : M S A := λ _, Fail f.
Definition gets {S A} (f : S → A) : M S A := λ s, Ok (f s) s.
Definition modify {S} (f : S → S) : M S unit := λ s, Ok tt (f s).

Notation "'let*' x := m 'in' k" := (bind m (λ x, k))
  (at level 10, x name, m at level 100, k at level 200, only parsing).
Notation "m ;; k" := (bind m (λ _, k))
  (at level 100, k at level 200, right associativity, only parsing).

(** The state reached by a computation, when it reached one. *)
Definition final {S A} (r : Res S A) : option S :=
  match r with Ok _ s | Throw _ s => Some s | Fail _ => None end.

(** The same outcome, in another state. *)
Definition in_state {S A} (r : Res S A) (s : S) : Res S A :=
  match r with
  | Ok a _ => Ok a s
  | Throw e _ => Throw e s
  | Fail f => Fail f
  end.

(** ** Heap objects *)

(** An inner self: [{ instanceKey, rawData, prev, next, wrapData }].
    [wrapData] holds the closure installed by [makeRepresentative],
    identified by the address of its environment. *)
Record InnerSelf := mkInner {
  instanceKey : string;
  rawData : option addr;
  prev : option addr;
  next : option addr;
  wrapData : option addr;
}.

Definition set_rawData (v : option addr) (o : InnerSelf) : InnerSelf :=
  mkInner (instanceKey o) v (prev o) (next o) (wrapData o).
Definition set_prev (v : option addr) (o : InnerSelf) : InnerSelf :=
  mkInner (instanceKey o) (rawData o) v (next o) (wrapData o).
Definition set_next (v : option addr) (o : InnerSelf) : InnerSelf :=
  mkInner (instanceKey o) (rawData o) (prev o) v (wrapData o).
Definition set_wrapData (v : option addr) (o : InnerSelf) : InnerSelf :=
  mkInner (instanceKey o) (rawData o) (prev o) (next o) v.

(** A property of a state object: a plain user value (while the object
    is being initialized), the codec's encoding of one (in raw data), or
    the accessor pair installed by [wrapData], whose closures belong to
    the environment [env]. *)
Inductive Slot (Value Ground : Type) :=
  | Plain (v : Value)
  | Encoded (g : Ground)
  | Accessor (env : addr).
Arguments Plain {Value Ground} v.
Arguments Encoded {Value Ground} g.
Arguments Accessor {Value Ground} env.

(** A state object ([rawData], [initialData], [activeData]).
    [initializing] is the property keyed by the
    [initializationInProgress] symbol; [props] are the own string-keyed
    properties in [Object.getOwnPropertyNames] order (see [setOwn]);
    [hardened] tells whether [harden] froze the object. *)
Record DataObj (Value Ground : Type) := mkData {
  initializing : bool;
  props : list (string * Slot Value Ground);
  hardened : bool;
}.
Arguments mkData {Value Ground} initializing props hardened.
Arguments initializing {Value Ground} d.
Arguments props {Value Ground} d.
Arguments hardened {Value Ground} d.

Definition set_initializing {V G} (b : bool) (d : DataObj V G) : DataObj V G :=
  mkData b (props d) (hardened d).
Definition set_props {V G} (ps : list (string * Slot V G)) (d : DataObj V G) :
    DataObj V G :=
  mkData (initializing d) ps (hardened d).
Definition set_hardened {V G} (b : bool) (d : DataObj V G) : DataObj V G :=
  mkData (initializing d) (props d) b.

(** ** makeCache(size, fetch, store) *)

(** The variables closed over by the cache object, the two heaps they
    point into, and the world [W] of the storage hooks.  [stored] lists
    the calls [store(instanceKey, rawData)] made so far, oldest first,
    with the content the raw data had at the call. *)
Record Cache (Value Ground W : Type) := mkCache {
  cacheSize : nat;
  lruHead : option addr;
  lruTail : option addr;
  liveTable : gmap string addr;
  inners : gmap addr InnerSelf;
  datas : gmap addr (DataObj Value Ground);
  stored : list (string * DataObj Value Ground);
  world : W;
}.
Arguments mkCache {Value Ground W}.
Arguments cacheSize {Value Ground W} c.
Arguments lruHead {Value Ground W} c.
Arguments lruTail {Value Ground W} c.
Arguments liveTable {Value Ground W} c.
Arguments inners {Value Ground W} c.
Arguments datas {Value Ground W} c.
Arguments stored {Value Ground W} c.
Arguments world {Value Ground W} c.

Section CacheState.
Context {Value Ground W : Type}.
Local Abbreviation Cache := (Cache Value Ground W).
Local Abbreviation DataObj := (DataObj Value Ground).

Definition set_cacheSize (n : nat) (c : Cache) : Cache :=
  mkCache n (lruHead c) (lruTail c) (liveTable c) (inners c) (datas c)
    (stored c) (world c).
Definition set_lruHead (v : option addr) (c : Cache) : Cache :=
  mkCache (cacheSize c) v (lruTail c) (liveTable c) (inners c) (datas c)
    (stored c) (world c).
Definition set_lruTail (v : option addr) (c : Cache) : Cache :=
  mkCache (cacheSize c) (lruHead c) v (liveTable c) (inners c) (datas c)
    (stored c) (world c).
Definition upd_liveTable (f : gmap string addr → gmap string addr)
    (c : Cache) : Cache :=
  mkCache (cacheSize c) (lruHead c) (lruTail c) (f (liveTable c)) (inners c)
    (datas c) (stored c) (world c).
Definition upd_inners (f : gmap addr InnerSelf → gmap addr InnerSelf)
    (c : Cache) : Cache :=
  mkCache (cacheSize c) (lruHead c) (lruTail c) (liveTable c) (f (inners c))
    (datas c) (stored c) (world c).
Definition upd_datas (f : gmap addr DataObj → gmap addr DataObj)
    (c : Cache) : Cache :=
  mkCache (cacheSize c) (lruHead c) (lruTail c) (liveTable c) (inners c)
    (f (datas c)) (stored c) (world c).
Definition upd_world (f : W → W) (c : Cache) : Cache :=
  mkCache (cacheSize c) (lruHead c) (lruTail c) (liveTable c) (inners c)
    (datas c) (stored c) (f (world c)).

(** Reading through a reference, writing a field through one. *)
Definition readInner (a : addr) : M Cache InnerSelf :=
  λ c, match inners c !! a with Some o => Ok o c | None => Fail Dangling end.
Definition readData (d : addr) : M Cache DataObj :=
  λ c, match datas c !! d with Some o => Ok o c | None => Fail Dangling end.
Definition updInner (a : addr) (f : InnerSelf → InnerSelf) : M Cache unit :=
  modify (upd_inners (alter f a)).
Definition updData (d : addr) (f : DataObj → DataObj) : M Cache unit :=
  modify (upd_datas (alter f d)).

(** An object literal: a fresh address in the heap of its type. *)
Definition allocInner (o : InnerSelf) : M Cache addr :=
  λ c, let a := fresh (dom (inners c)) in Ok a (upd_inners <[a := o]> c).
Definition allocData (d : DataObj) : M Cache addr :=
  λ c, let a := fresh (dom (datas c)) in Ok a (upd_datas <[a := d]> c).

End CacheState.

Module cache.
Section ops.
Context {Value Ground W : Type}.
Local Abbreviation Cache := (Cache Value Ground W).
Local Abbreviation DataObj := (DataObj Value Ground).

(** The two storage hooks.  [fetch] returns the content of the object it
    produces, or throws; [store] acts on the world. *)
Context (fetch : string → W → Error + DataObj).
Context (store : string → DataObj → W → W).

(** The call [store(k, d)]: recorded, and applied to the world. *)
Definition callStore (k : string) (d : DataObj) : M Cache unit :=
  modify (λ c,
    mkCache (cacheSize c) (lruHead c) (lruTail c) (liveTable c) (inners c)
      (datas c) (stored c ++ [(k, d)]) (store k d (world c))).

(** [cache.refresh(innerObj)] *)
Definition refresh (innerObj : addr) : M Cache unit :=
  let* head := gets lruHead in
  if decide (head = Some innerObj) then ret tt
  else
    let* o := readInner innerObj in
    let oldPrev := prev o in
    let oldNext := next o in
    match oldPrev with
    | Some p => updInner p (set_next oldNext)
    | None => modify (set_lruHead oldNext)
    end ;;
    match oldNext with
    | Some n => updInner n (set_prev oldPrev)
    | None => modify (set_lruTail oldPrev)
    end ;;
    updInner innerObj (set_prev None) ;;
    let* head := gets lruHead in
    updInner innerObj (set_next head) ;;
    match head with
    | None => throw TypeError
    | Some h =>
        updInner h (set_prev (Some innerObj)) ;;
        modify (set_lruHead (Some innerObj))
    end.

(** [lruTail.rawData[initializationInProgress]] *)
Definition tailInitializing : M Cache bool :=
  let* tail := gets lruTail in
  match tail with
  | None => throw TypeError
  | Some t =>
      let* o := readInner t in
      match rawData o with
      | None => throw TypeError
      | Some d => let* obj := readData d in ret (initializing obj)
      end
  end.

(** The inner [while] of [makeRoom], entered with [refreshCount]. *)
Fixpoint refreshLoop (fuel refreshCount : nat) : M Cache unit :=
  match fuel with
  | 0 => fail OutOfFuel
  | S fuel' =>
      let* b := tailInitializing in
      if b then
        let* size := gets cacheSize in
        if decide (size < refreshCount) then throw CacheOverflow
        else
          let* tail := gets lruTail in
          match tail with
          | None => throw TypeError
          | Some t => refresh t
          end ;;
          refreshLoop fuel' (refreshCount + 1)
      else ret tt
  end.

(** The eviction at the end of the body of the outer [while]:
    [liveTable.delete] ... [lruTail = lruTail.prev].  The raw data was
    read by the test just before, so it is an object here. *)
Definition evictTail : M Cache unit :=
  let* tail := gets lruTail in
  match tail with
  | None => throw TypeError
  | Some t =>
      let* o := readInner t in
      modify (upd_liveTable (delete (instanceKey o))) ;;
      match rawData o with
      | None => throw TypeError
      | Some d => let* obj := readData d in callStore (instanceKey o) obj
      end ;;
      updInner t (set_rawData None) ;;
      match prev o with
      | Some p => updInner p (set_next None)
      | None => modify (set_lruHead None)
      end ;;
      modify (set_lruTail (prev o))
  end.

(** [cache.makeRoom()]: the outer [while], run for at most [fuel]
    iterations (the inner loop gets the same budget). *)
Fixpoint makeRoom (fuel : nat) : M Cache unit :=
  match fuel with
  | 0 => fail OutOfFuel
  | S fuel' =>
      let* n := gets (λ c, size (liveTable c)) in
      let* size := gets cacheSize in
      let* tail := gets lruTail in
      if decide (size < n ∧ is_Some tail) then
        let* b := tailInitializing in
        (if b then refreshLoop fuel' 1 else ret tt) ;;
        evictTail ;;
        makeRoom fuel'
      else ret tt
  end.

(** [cache.flush()] *)
Definition flush (fuel : nat) : M Cache unit :=
  let* saveSize := gets cacheSize in
  modify (set_cacheSize 0) ;;
  makeRoom fuel ;;
  modify (set_cacheSize saveSize).

(** [cache.remember(innerObj)] *)
Definition remember (fuel : nat) (innerObj : addr) : M Cache unit :=
  let* o := readInner innerObj in
  let* table := gets liveTable in
  if decide (is_Some (table !! instanceKey o)) then ret tt
  else
    makeRoom fuel ;;
    modify (upd_liveTable <[instanceKey o := innerObj]>) ;;
    updInner innerObj (set_prev None) ;;
    let* head := gets lruHead in
    updInner innerObj (set_next head) ;;
    match head with
    | Some h => updInner h (set_prev (Some innerObj))
    | None => ret tt
    end ;;
    modify (set_lruHead (Some innerObj)) ;;
    let* tail := gets lruTail in
    match tail with
    | None => modify (set_lruTail (Some innerObj))
    | Some _ => ret tt
    end.

(** [cache.lookup(instanceKey)] *)
Definition lookup (fuel : nat) (instanceKey : string) : M Cache addr :=
  let* table := gets liveTable in
  match table !! instanceKey with
  | Some innerObj => refresh innerObj ;; ret innerObj
  | None =>
      let* w := gets world in
      match fetch instanceKey w with
      | inl e => throw e
      | inr content =>
          let* d := allocData content in
          let* innerObj := allocInner (mkInner instanceKey (Some d) None None None) in
          remember fuel innerObj ;;
          ret innerObj
      end
  end.

End ops.
End cache.

(** [makeCache(size, fetch, store)]: nothing is resident. *)
Definition makeCache {Value Ground W} (size : nat) (w : W) : Cache Value Ground W :=
  mkCache size None None ∅ ∅ ∅ [] w.

(** ** makeVirtualObjectManager(syscall, allocateExportID, valToSlotTable, m, cacheSize) *)

(** An object that can key a weak store: a representative made by this
    manager, or any other object. *)
Inductive ObjRef :=
  | RepRef (r : addr)
  | OtherRef (n : nat).

Global Instance ObjRef_eq_dec : EqDecision ObjRef.
Proof. solve_decision. Defined.

Global Program Instance ObjRef_countable : Countable ObjRef :=
  inj_countable'
    (λ r, match r with RepRef a => inl a | OtherRef n => inr n end)
    (λ s, match s with inl a => RepRef a | inr n => OtherRef n end) _.
Next Obligation. by intros []. Qed.

(** The object an instance maker returns.  [hasInitialize]: it has an
    own property [initialize]; [frozen]: [harden] was applied to it;
    [state]: the state object its methods close over. *)
Record Representative := mkRep {
  hasInitialize : bool;
  frozen : bool;
  state : option addr;
}.

(** What this model keeps of an [instanceMaker]: whether the object it
    returns has an [initialize] method and, if so, the assignments
    [state.p = v] that [initialize(...args)] performs, in order.  The
    object returned is a new, extensible one. *)
Record Kind (Value : Type) := mkKind {
  initialize : option (list Value → list (string * Value));
}.
Arguments mkKind {Value} initialize.
Arguments initialize {Value} k.

(** The result of [parseVatSlot]. *)
Record VatSlot := mkVatSlot {
  slotType : string;
  virtual : bool;
  id : N;
}.

(** What the manager closes over besides the cache: its collaborators
    ([syscall]'s vatstore, [valToSlotTable], the counter behind
    [allocateExportID], the console) and its own tables.  A vatstore key
    set to [undefined] maps to [None]. *)
Record World (Value : Type) := mkWorld {
  vatstore : gmap string (option string);
  valToSlotTable : gmap ObjRef string;
  nextExportID : N;
  console : list string;
  kindTable : gmap string (Kind Value);
  nextInstanceID : gmap string nat;
  nextWeakStoreID : nat;
  backingMap : gmap nat (gmap ObjRef Value);
  representatives : gmap addr Representative;
  environments : gmap addr addr;
}.
Arguments mkWorld {Value}.
Arguments vatstore {Value} w.
Arguments valToSlotTable {Value} w.
Arguments nextExportID {Value} w.
Arguments console {Value} w.
Arguments kindTable {Value} w.
Arguments nextInstanceID {Value} w.
Arguments nextWeakStoreID {Value} w.
Arguments backingMap {Value} w.
Arguments representatives {Value} w.
Arguments environments {Value} w.

(** A weak store: its [storeID] and [keyName]. *)
Record WeakStore := mkWeakStore {
  storeID : nat;
  keyName : string;
}.

Section WorldState.
Context {Value : Type}.
Local Abbreviation World := (World Value).

Definition upd_vatstore (f : gmap string (option string) → gmap string (option string))
    (w : World) : World :=
  mkWorld (f (vatstore w)) (valToSlotTable w) (nextExportID w) (console w)
    (kindTable w) (nextInstanceID w) (nextWeakStoreID w) (backingMap w)
    (representatives w) (environments w).
Definition upd_valToSlotTable (f : gmap ObjRef string → gmap ObjRef string)
    (w : World) : World :=
  mkWorld (vatstore w) (f (valToSlotTable w)) (nextExportID w) (console w)
    (kindTable w) (nextInstanceID w) (nextWeakStoreID w) (backingMap w)
    (representatives w) (environments w).
Definition set_nextExportID (n : N) (w : World) : World :=
  mkWorld (vatstore w) (valToSlotTable w) n (console w)
    (kindTable w) (nextInstanceID w) (nextWeakStoreID w) (backingMap w)
    (representatives w) (environments w).
Definition upd_console (f : list string → list string) (w : World) : World :=
  mkWorld (vatstore w) (valToSlotTable w) (nextExportID w) (f (console w))
    (kindTable w) (nextInstanceID w) (nextWeakStoreID w) (backingMap w)
    (representatives w) (environments w).
Definition upd_kindTable (f : gmap string (Kind Value) → gmap string (Kind Value))
    (w : World) : World :=
  mkWorld (vatstore w) (valToSlotTable w) (nextExportID w) (console w)
    (f (kindTable w)) (nextInstanceID w) (nextWeakStoreID w) (backingMap w)
    (representatives w) (environments w).
Definition upd_nextInstanceID (f : gmap string nat → gmap string nat)
    (w : World) : World :=
  mkWorld (vatstore w) (valToSlotTable w) (nextExportID w) (console w)
    (kindTable w) (f (nextInstanceID w)) (nextWeakStoreID w) (backingMap w)
    (representatives w) (environments w).
Definition set_nextWeakStoreID (n : nat) (w : World) : World :=
  mkWorld (vatstore w) (valToSlotTable w) (nextExportID w) (console w)
    (kindTable w) (nextInstanceID w) n (backingMap w)
    (representatives w) (environments w).
Definition upd_backingMap
    (f : gmap nat (gmap ObjRef Value) → gmap nat (gmap ObjRef Value))
    (w : World) : World :=
  mkWorld (vatstore w) (valToSlotTable w) (nextExportID w) (console w)
    (kindTable w) (nextInstanceID w) (nextWeakStoreID w) (f (backingMap w))
    (representatives w) (environments w).
Definition upd_representatives
    (f : gmap addr Representative → gmap addr Representative)
    (w : World) : World :=
  mkWorld (vatstore w) (valToSlotTable w) (nextExportID w) (console w)
    (kindTable w) (nextInstanceID w) (nextWeakStoreID w) (backingMap w)
    (f (representatives w)) (environments w).
Definition upd_environments (f : gmap addr addr → gmap addr addr)
    (w : World) : World :=
  mkWorld (vatstore w) (valToSlotTable w) (nextExportID w) (console w)
    (kindTable w) (nextInstanceID w) (nextWeakStoreID w) (backingMap w)
    (representatives w) (f (environments w)).

(** Modelled from the spec: the vatstore behind [syscall] is a
    string-keyed store; [vatstoreGet] of a key that is absent, or was
    set to [undefined], is [undefined]. *)
Definition vatstoreGet (key : string) (w : World) : option string :=
  match vatstore w !! key with
  | Some (Some s) => Some s
  | _ => None
  end.
Definition vatstoreSet (key : string) (value : option string) (w : World) : World :=
  upd_vatstore <[key := value]> w.

(** A new world: empty tables, the counters at their initial values. *)
Definition newWorld (firstExportID : N) : World :=
  mkWorld ∅ ∅ firstExportID [] ∅ ∅ 1 ∅ ∅ ∅.

End WorldState.

(** JavaScript truthiness of a string or [undefined]. *)
Definition truthy (x : option string) : bool :=
  match x with
  | Some s => negb (String.eqb s "")
  | None => false
  end.

(** The order of [Object.getOwnPropertyNames] (and of [JSON.stringify]):
    the names that are array indices, in ascending numeric order, then
    the other names in the order of their creation.  An array index is
    the canonical decimal numeral of an integer below [2^32 - 1]. *)
Fixpoint numeral (s : string) (acc : N) : option N :=
  match s with
  | EmptyString => Some acc
  | String a s' =>
      let n := Ascii.N_of_ascii a in
      if ((48 <=? n) && (n <=? 57))%N
      then numeral s' (acc * 10 + (n - 48))%N
      else None
  end.
Definition arrayIndex (s : string) : option N :=
  match s with
  | EmptyString => None
  | _ =>
      match numeral s 0%N with
      | Some n =>
          if ((n <? 4294967295)%N && String.eqb (pretty n) s)%bool
          then Some n else None
      | None => None
      end
  end.
(** The place of a name in that order: its index, or past every index. *)
Definition rank (prop : string) : N := default 4294967295%N (arrayIndex prop).

(** [obj[prop]] and [obj[prop] = v] on own properties, kept in the
    order of [Object.getOwnPropertyNames]: writing a property the
    object has keeps its place; a new property goes before the first
    one that comes after it in that order, so a new name that is no
    array index goes last. *)
Fixpoint getOwn {A} (prop : string) (ps : list (string * A)) : option A :=
  match ps with
  | [] => None
  | (k, v) :: ps' => if decide (k = prop) then Some v else getOwn prop ps'
  end.
Fixpoint replaceOwn {A} (prop : string) (v : A) (ps : list (string * A)) :
    list (string * A) :=
  match ps with
  | [] => []
  | (k, v') :: ps' =>
      if decide (k = prop) then (k, v) :: ps'
      else (k, v') :: replaceOwn prop v ps'
  end.
Fixpoint createOwn {A} (prop : string) (v : A) (ps : list (string * A)) :
    list (string * A) :=
  match ps with
  | [] => [(prop, v)]
  | (k, v') :: ps' =>
      if (rank prop <? rank k)%N then (prop, v) :: (k, v') :: ps'
      else (k, v') :: createOwn prop v ps'
  end.
Definition setOwn {A} (prop : string) (v : A) (ps : list (string * A)) :
    list (string * A) :=
  match getOwn prop ps with
  | Some _ => replaceOwn prop v ps
  | None => createOwn prop v ps
  end.

(** Names in the order of [Object.getOwnPropertyNames]: no name is
    followed by one of a lower rank. *)
Fixpoint ordered (names : list string) : Prop :=
  match names with
  | [] => True
  | k :: names' => Forall (λ k', (rank k ≤ rank k')%N) names' ∧ ordered names'
  end.

(** The collaborators the manager is given or imports: the marshaller
    [m]; [JSON.stringify] and [JSON.parse] at their two uses, on raw data
    and on an encoded value ([JSON.parse] throws [SyntaxError] on a
    string that is not JSON: [None]; the object it makes of raw data
    has its properties in [Object.getOwnPropertyNames] order, as every
    object has); [parseVatSlot] of [../parseVatSlots]. *)
Record Collaborators (Value Ground : Type) := mkCollaborators {
  m_serialize : Value → Error + Ground;
  m_unserialize : Ground → Error + Value;
  JSON_stringifyData : list (string * Slot Value Ground) → string;
  JSON_parseData : string → option (list (string * Slot Value Ground));
  JSON_stringifyGround : Ground → string;
  JSON_parseGround : string → option Ground;
  slot_parseVatSlot : string → Error + VatSlot;
}.
Arguments mkCollaborators {Value Ground}.
Arguments m_serialize {Value Ground} c.
Arguments m_unserialize {Value Ground} c.
Arguments JSON_stringifyData {Value Ground} c.
Arguments JSON_parseData {Value Ground} c.
Arguments JSON_stringifyGround {Value Ground} c.
Arguments JSON_parseGround {Value Ground} c.
Arguments slot_parseVatSlot {Value Ground} c.

Module vom.
Section ops.
Context {Value Ground : Type}.
Local Abbreviation Slot := (Slot Value Ground).
Local Abbreviation DataObj := (DataObj Value Ground).
Local Abbreviation World := (World Value).
Local Abbreviation State := (Cache Value Ground World).

Context (co : Collaborators Value Ground).
Local Abbreviation serialize := (m_serialize co).
Local Abbreviation unserialize := (m_unserialize co).
Local Abbreviation stringifyData := (JSON_stringifyData co).
Local Abbreviation parseData := (JSON_parseData co).
Local Abbreviation stringifyGround := (JSON_stringifyGround co).
Local Abbreviation parseGround := (JSON_parseGround co).
Local Abbreviation parseVatSlot := (slot_parseVatSlot co).

Definition liftE {S A} (r : Error + A) : M S A :=
  match r with inl e => throw e | inr a => ret a end.

(** [fetch]: [JSON.parse(syscall.vatstoreGet(instanceKey))].  Applied to
    [undefined], [JSON.parse] parses the string ["undefined"], which is
    not JSON. *)
Definition fetch (instanceKey : string) (w : World) : Error + DataObj :=
  match vatstoreGet instanceKey w with
  | None => inl SyntaxError
  | Some s =>
      match parseData s with
      | None => inl SyntaxError
      | Some ps => inr (mkData false ps false)
      end
  end.

(** [store]: [syscall.vatstoreSet(instanceKey, JSON.stringify(rawData))] *)
Definition store (instanceKey : string) (rawData : DataObj) (w : World) : World :=
  vatstoreSet instanceKey (Some (stringifyData (props rawData))) w.

Definition getsW {A} (f : World → A) : M State A := gets (λ c, f (world c)).
Definition modifyW (f : World → World) : M State unit := modify (upd_world f).

Definition readRep (r : addr) : M State Representative :=
  λ c, match representatives (world c) !! r with
       | Some x => Ok x c
       | None => Fail Dangling
       end.
Definition updRep (r : addr) (f : Representative → Representative) : M State unit :=
  modifyW (upd_representatives (alter f r)).
Definition allocRep (x : Representative) : M State addr :=
  λ c, let r := fresh (dom (representatives (world c))) in
       Ok r (upd_world (upd_representatives <[r := x]>) c).
Definition allocEnv (innerSelf : addr) : M State addr :=
  λ c, let e := fresh (dom (environments (world c))) in
       Ok e (upd_world (upd_environments <[e := innerSelf]>) c).
(** The variable [innerSelf] of an activation of [makeRepresentative]. *)
Definition envInnerSelf (env : addr) : M State addr :=
  λ c, match environments (world c) !! env with
       | Some a => Ok a c
       | None => Fail Dangling
       end.

(** [makeVirtualObjectRepresentative] is defined after [reanimate]. *)

(** *** makeKind: the closures of [makeRepresentative] *)

(** [ensureState()] *)
Definition ensureState (fuel : nat) (env : addr) : M State unit :=
  let* innerSelf := envInnerSelf env in
  let* o := readInner innerSelf in
  match rawData o with
  | Some _ => ret tt
  | None =>
      let* found := cache.lookup fetch store fuel (instanceKey o) in
      modifyW (upd_environments <[env := found]>)
  end.

(** The getter [wrapData] installs for [prop]. *)
Definition getter (fuel : nat) (env : addr) (prop : string) : M State Value :=
  ensureState fuel env ;;
  let* innerSelf := envInnerSelf env in
  let* o := readInner innerSelf in
  match rawData o with
  | None => throw TypeError
  | Some d =>
      let* obj := readData d in
      match getOwn prop (props obj) with
      | Some (Encoded g) => liftE (unserialize g)
      | _ => throw TypeError
      end
  end.

(** [innerSelf.rawData[prop] = serializedValue] *)
Definition writeRaw (env : addr) (prop : string) (serializedValue : Ground) :
    M State unit :=
  let* innerSelf := envInnerSelf env in
  let* o := readInner innerSelf in
  match rawData o with
  | None => throw TypeError
  | Some d =>
      let* obj := readData d in
      if hardened obj then throw TypeError
      else updData d (set_props (setOwn prop (Encoded serializedValue) (props obj)))
  end.

(** The setter [wrapData] installs for [prop]. *)
Definition setter (fuel : nat) (env : addr) (prop : string) (value : Value) :
    M State unit :=
  let* serializedValue := liftE (serialize value) in
  ensureState fuel env ;;
  writeRaw env prop serializedValue.

(** [Object.defineProperty(target, prop, { get, set })] *)
Definition defineAccessor (env target : addr) (prop : string) : M State unit :=
  let* t := readData target in
  if hardened t then throw TypeError
  else updData target (set_props (setOwn prop (Accessor env) (props t))).

Fixpoint forEach {S A} (f : A → M S unit) (l : list A) : M S unit :=
  match l with
  | [] => ret tt
  | x :: l' => f x ;; forEach f l'
  end.

(** [wrapData(target)] *)
Definition wrapData_ (env target : addr) : M State unit :=
  let* t := readData target in
  if initializing t then throw StillInitializing
  else
    let* innerSelf := envInnerSelf env in
    let* o := readInner innerSelf in
    match rawData o with
    | None => throw TypeError
    | Some d =>
        let* raw := readData d in
        forEach (defineAccessor env target) (props raw).*1 ;;
        let* innerSelf := envInnerSelf env in
        updInner innerSelf (set_wrapData None) ;;
        updData target (set_hardened true)
    end.

(** [instanceMaker(state)] *)
Definition instanceMaker (kind : Kind Value) (state : option addr) : M State addr :=
  allocRep (mkRep (bool_decide (is_Some (initialize kind))) false state).

(** [makeRepresentative(innerSelf, initializing)] *)
Definition makeRepresentative (fuel : nat) (kind : Kind Value)
    (innerSelf : addr) (initializing : bool) : M State addr :=
  let* env := allocEnv innerSelf in
  let* representative :=
    if initializing then
      updInner innerSelf (set_wrapData (Some env)) ;;
      let* o := readInner innerSelf in
      instanceMaker kind (rawData o)
    else
      let* activeData := allocData (mkData false [] false) in
      wrapData_ env activeData ;;
      let* representative := instanceMaker kind (Some activeData) in
      updRep representative (λ r, mkRep false (frozen r) (state r)) ;;
      updRep representative (λ r, mkRep (hasInitialize r) true (state r)) ;;
      ret representative
  in
  let* innerSelf := envInnerSelf env in
  cache.remember store fuel innerSelf ;;
  let* o := readInner innerSelf in
  modifyW (upd_valToSlotTable <[RepRef representative := instanceKey o]>) ;;
  ret representative.

(** [reanimate(instanceKey)] *)
Definition reanimate (fuel : nat) (kind : Kind Value) (instanceKey : string) :
    M State addr :=
  let* innerSelf := cache.lookup fetch store fuel instanceKey in
  makeRepresentative fuel kind innerSelf false.

(** [makeKind(instanceMaker)]; returns the kind ID, which identifies the
    maker function [makeNewInstance]. *)
Definition makeKind (kind : Kind Value) : M State string :=
  let* n := getsW nextExportID in
  modifyW (set_nextExportID (n + 1)) ;;
  let kindID := pretty n in
  modifyW (upd_nextInstanceID <[kindID := 1]>) ;;
  modifyW (upd_kindTable <[kindID := kind]>) ;;
  ret kindID.

(** [state[prop] = value], as user code holding a state object does it:
    through the setter when [prop] is an accessor, on the object itself
    otherwise. *)
Definition putProp (fuel : nat) (state : addr) (prop : string) (value : Value) :
    M State unit :=
  let* s := readData state in
  match getOwn prop (props s) with
  | Some (Accessor env) => setter fuel env prop value
  | _ =>
      if hardened s then throw TypeError
      else updData state (set_props (setOwn prop (Plain value) (props s)))
  end.

(** [initialize(...args)]: the assignments [state.p = v]. *)
Definition assign (fuel : nat) (state : addr) (pv : string * Value) : M State unit :=
  putProp fuel state pv.1 pv.2.

(** The body of the loop over the own properties of [initialData]. *)
Definition serializeProp (rawData : addr) (ps : string * Slot) : M State unit :=
  match ps.2 with
  | Plain v =>
      match serialize v with
      | inl e =>
          modifyW (upd_console
            (λ out, out ++ ["state property " +:+ ps.1 +:+ " is not serializable"])) ;;
          throw e
      | inr g =>
          let* r := readData rawData in
          updData rawData (set_props (setOwn ps.1 (Encoded g) (props r)))
      end
  | _ => throw TypeError
  end.

(** [if (initialize) { delete initialRepresentative.initialize;
    initialize(...args); }] *)
Definition runInitialize (fuel : nat) (kind : Kind Value)
    (initialRepresentative initialData : addr) (args : list Value) : M State unit :=
  let* r := readRep initialRepresentative in
  if hasInitialize r then
    updRep initialRepresentative (λ r, mkRep false (frozen r) (state r)) ;;
    match initialize kind with
    | Some init => forEach (assign fuel initialData) (init args)
    | None => ret tt
    end
  else ret tt.

(** [delete initialData[initializationInProgress]; const rawData = {};
    for (const prop of Object.getOwnPropertyNames(initialData)) ...];
    returns [rawData]. *)
Definition serializeState (initialData : addr) : M State addr :=
  updData initialData (set_initializing false) ;;
  let* rawData := allocData (mkData false [] false) in
  let* initial := readData initialData in
  forEach (serializeProp rawData) (props initial) ;;
  ret rawData.

(** [makeNewInstance(...args)] of the kind [kindID] made from [kind]. *)
Definition makeNewInstance (fuel : nat) (kindID : string) (kind : Kind Value)
    (args : list Value) : M State addr :=
  let* counters := getsW nextInstanceID in
  match counters !! kindID with
  | None => fail Dangling
  | Some n =>
      let instanceKey := "o+" +:+ kindID +:+ "/" +:+ pretty n in
      modifyW (upd_nextInstanceID <[kindID := n + 1]>) ;;
      let* initialData := allocData (mkData true [] false) in
      let* innerSelf :=
        allocInner (mkInner instanceKey (Some initialData) None None None) in
      let* initialRepresentative := makeRepresentative fuel kind innerSelf true in
      runInitialize fuel kind initialRepresentative initialData args ;;
      let* rawData := serializeState initialData in
      updInner innerSelf (set_rawData (Some rawData)) ;;
      let* o := readInner innerSelf in
      match wrapData o with
      | None => throw TypeError
      | Some env => wrapData_ env initialData
      end ;;
      ret initialRepresentative
  end.

(** [makeVirtualObjectRepresentative(vref)] *)
Definition makeVirtualObjectRepresentative (fuel : nat) (vref : string) :
    M State addr :=
  let* slot := liftE (parseVatSlot vref) in
  let kindID := pretty (id slot) in
  let* kinds := getsW kindTable in
  match kinds !! kindID with
  | Some kind => reanimate fuel kind vref
  | None => throw (UnknownKind kindID)
  end.

(** [flushCache] *)
Definition flushCache (fuel : nat) : M State unit := cache.flush store fuel.

(** *** makeWeakStore *)

(** [makeWeakStore(keyName)] *)
Definition makeWeakStore (keyName : string) : M State WeakStore :=
  let* storeID := getsW nextWeakStoreID in
  modifyW (set_nextWeakStoreID (storeID + 1)) ;;
  modifyW (upd_backingMap <[storeID := ∅]>) ;;
  ret (mkWeakStore storeID keyName).

Definition readBacking (ws : WeakStore) : M State (gmap ObjRef Value) :=
  λ c, match backingMap (world c) !! storeID ws with
       | Some m => Ok m c
       | None => Fail Dangling
       end.
Definition updBacking (ws : WeakStore)
    (f : gmap ObjRef Value → gmap ObjRef Value) : M State unit :=
  modifyW (upd_backingMap (alter f (storeID ws))).

(** [assert(cond, details)] *)
Definition assert (cond : bool) (e : Error) : M State unit :=
  if cond then ret tt else throw e.

Definition assertKeyDoesNotExist (ws : WeakStore) (key : ObjRef) : M State unit :=
  let* m := readBacking ws in
  assert (negb (bool_decide (is_Some (m !! key)))) (AlreadyRegistered (keyName ws)).
Definition assertKeyExists (ws : WeakStore) (key : ObjRef) : M State unit :=
  let* m := readBacking ws in
  assert (bool_decide (is_Some (m !! key))) (NotFound (keyName ws)).

(** [virtualObjectKey(key)] *)
Definition virtualObjectKey (ws : WeakStore) (key : ObjRef) : M State (option string) :=
  let* slots := getsW valToSlotTable in
  match slots !! key with
  | None => ret None
  | Some instanceKey =>
      if negb (truthy (Some instanceKey)) then ret None
      else
        let* slot := liftE (parseVatSlot instanceKey) in
        if bool_decide (slotType slot = "object") && virtual slot then
          ret (Some ("ws" +:+ pretty (storeID ws) +:+ "." +:+ instanceKey))
        else ret None
  end.

Definition has (ws : WeakStore) (key : ObjRef) : M State bool :=
  let* vkey := virtualObjectKey ws key in
  match vkey with
  | Some vkey =>
      let* v := getsW (vatstoreGet vkey) in
      ret (truthy v)
  | None =>
      let* m := readBacking ws in
      ret (bool_decide (is_Some (m !! key)))
  end.

Definition init (ws : WeakStore) (key : ObjRef) (value : Value) : M State unit :=
  let* vkey := virtualObjectKey ws key in
  match vkey with
  | Some vkey =>
      let* v := getsW (vatstoreGet vkey) in
      assert (negb (truthy v)) (AlreadyRegistered (keyName ws)) ;;
      let* g := liftE (serialize value) in
      modifyW (vatstoreSet vkey (Some (stringifyGround g)))
  | None =>
      assertKeyDoesNotExist ws key ;;
      updBacking ws <[key := value]>
  end.

Definition get (ws : WeakStore) (key : ObjRef) : M State Value :=
  let* vkey := virtualObjectKey ws key in
  match vkey with
  | Some vkey =>
      let* rawValue := getsW (vatstoreGet vkey) in
      assert (truthy rawValue) (NotFound (keyName ws)) ;;
      match rawValue ≫= parseGround with
      | None => throw SyntaxError
      | Some g => liftE (unserialize g)
      end
  | None =>
      assertKeyExists ws key ;;
      let* m := readBacking ws in
      match m !! key with
      | Some v => ret v
      | None => fail Dangling
      end
  end.

Definition set (ws : WeakStore) (key : ObjRef) (value : Value) : M State unit :=
  let* vkey := virtualObjectKey ws key in
  match vkey with
  | Some vkey =>
      let* v := getsW (vatstoreGet vkey) in
      assert (truthy v) (NotFound (keyName ws)) ;;
      let* g := liftE (serialize value) in
      modifyW (vatstoreSet vkey (Some (stringifyGround g)))
  | None =>
      assertKeyExists ws key ;;
      updBacking ws <[key := value]>
  end.

Definition delete (ws : WeakStore) (key : ObjRef) : M State unit :=
  let* vkey := virtualObjectKey ws key in
  match vkey with
  | Some vkey =>
      let* v := getsW (vatstoreGet vkey) in
      assert (truthy v) (NotFound (keyName ws)) ;;
      modifyW (vatstoreSet vkey None)
  | None =>
      assertKeyExists ws key ;;
      updBacking ws (base.delete key)
  end.

End ops.
End vom.

(** [makeVirtualObjectManager(...)]: an empty cache of the given size. *)
Definition makeVirtualObjectManager {Value Ground} (firstExportID : N)
    (cacheSize : nat) : Cache Value Ground (World Value) :=
  makeCache cacheSize (newWorld firstExportID).

(** ** The shape of a cache state *)

Section Shape.
Context {Value Ground W : Type}.
Local Abbreviation Cache := (Cache Value Ground W).
Local Abbreviation DataObj := (DataObj Value Ground).

(** The instance key stored at an address. *)
Definition keyOf (h : gmap addr InnerSelf) (a : addr) : string :=
  match h !! a with Some o => instanceKey o | None => "" end.

(** The state object an inner self points to: [innerObj.rawData]. *)
Definition dataOf (c : Cache) (a : addr) : option DataObj :=
  match inners c !! a with
  | Some o => match rawData o with Some d => datas c !! d | None => None end
  | None => None
  end.

(** [innerObj.rawData[initializationInProgress]], for a resident. *)
Definition isInit (c : Cache) (a : addr) : bool :=
  match dataOf c a with Some obj => initializing obj | None => false end.

(** The number of residents being initialized. *)
Fixpoint count (f : addr → bool) (l : list addr) : nat :=
  match l with
  | [] => 0
  | a :: l' => (if f a then 1 else 0) + count f l'
  end.
Definition countInit (c : Cache) (l : list addr) : nat := count (isInit c) l.

Definition hd_or (n : option addr) (l : list addr) : option addr :=
  match l with [] => n | a :: _ => Some a end.
Definition last_or (p : option addr) (l : list addr) : option addr :=
  match last l with Some a => Some a | None => p end.

(** [chain h p l n]: the objects of [l] are linked in this order through
    [prev] and [next]; the first points back to [p], the last on to [n]. *)
Fixpoint chain (h : gmap addr InnerSelf) (p : option addr) (l : list addr)
    (n : option addr) : Prop :=
  match l with
  | [] => True
  | a :: l' =>
      (∃ o, h !! a = Some o ∧ prev o = p ∧ next o = hd_or n l')
      ∧ chain h (Some a) l' n
  end.

(** The row of the live table for a resident. *)
Definition row (h : gmap addr InnerSelf) (a : addr) : string * addr :=
  (keyOf h a, a).

(** [wf c l]: the residents of [c] are exactly [l], most recently used
    first: the LRU list is [l], the live table maps the key of each
    resident to it, and every resident has raw data. *)
Record wf (c : Cache) (l : list addr) : Prop := mkWf {
  wf_head : lruHead c = head l;
  wf_tail : lruTail c = last l;
  wf_chain : chain (inners c) None l None;
  wf_keys : NoDup (keyOf (inners c) <$> l);
  wf_table : liveTable c = list_to_map (row (inners c) <$> l);
  wf_data : Forall (λ a, is_Some (dataOf c a)) l;
}.

(** The same, as a test that can be run on a given state. *)
Fixpoint chainb (h : gmap addr InnerSelf) (p : option addr) (l : list addr)
    (n : option addr) : bool :=
  match l with
  | [] => true
  | a :: l' =>
      match h !! a with
      | Some o =>
          bool_decide (prev o = p) && bool_decide (next o = hd_or n l')
          && chainb h (Some a) l' n
      | None => false
      end
  end.
Definition wfb (c : Cache) (l : list addr) : bool :=
  bool_decide (lruHead c = head l)
  && bool_decide (lruTail c = last l)
  && chainb (inners c) None l None
  && bool_decide (NoDup (keyOf (inners c) <$> l))
  && bool_decide (liveTable c = list_to_map (row (inners c) <$> l))
  && forallb (λ a, bool_decide (is_Some (dataOf c a))) l.

(** An inner self with its links erased. *)
Definition unlinked (o : InnerSelf) : InnerSelf :=
  set_prev None (set_next None o).

(** [relinked c c']: the two states differ in [lruHead], [lruTail] and
    the [prev]/[next] fields only. *)
Record relinked (c c' : Cache) : Prop := mkRelinked {
  rl_size : cacheSize c' = cacheSize c;
  rl_table : liveTable c' = liveTable c;
  rl_datas : datas c' = datas c;
  rl_stored : stored c' = stored c;
  rl_world : world c' = world c;
  rl_inners : ∀ b, unlinked <$> inners c' !! b = unlinked <$> inners c !! b;
}.

(** The entry written for a resident on eviction. *)
Definition entry (c : Cache) (a : addr) : option (string * DataObj) :=
  match dataOf c a with
  | Some obj => Some (keyOf (inners c) a, obj)
  | None => None
  end.

(** [swept store c c' l kept gone]: from [c] with residents [l], the
    residents [gone] were evicted in this order, none of them being
    initialized, [kept] are the residents of [c'], and nothing else
    changed but links. *)
Record swept (store : string → DataObj → W → W) (c c' : Cache)
    (l kept gone : list addr) : Prop := mkSwept {
  sw_wf : wf c' kept;
  sw_perm : l ≡ₚ kept ++ gone;
  sw_size : cacheSize c' = cacheSize c;
  sw_datas : datas c' = datas c;
  sw_stored : stored c' = stored c ++ omap (entry c) gone;
  sw_world :
    world c' = foldl (λ w kd, store kd.1 kd.2 w) (world c) (omap (entry c) gone);
  sw_noinit : Forall (λ a, isInit c a = false) gone;
  sw_written : Forall (λ a, is_Some (dataOf c a)) gone;
  sw_kept : ∀ b, b ∉ gone →
    unlinked <$> inners c' !! b = unlinked <$> inners c !! b;
  sw_gone : ∀ b, b ∈ gone →
    unlinked <$> inners c' !! b
    = unlinked <$> (set_rawData None <$> inners c !! b);
  sw_frame : ∀ b, b ∉ l → inners c' !! b = inners c !! b;
}.

(** [inserted c c' a kept]: [c'] is [c] with [a] linked in at the head
    of the residents [kept]. *)
Record inserted (c c' : Cache) (a : addr) (kept : list addr) : Prop :=
  mkInserted {
  ins_wf : wf c' (a :: kept);
  ins_size : cacheSize c' = cacheSize c;
  ins_datas : datas c' = datas c;
  ins_stored : stored c' = stored c;
  ins_world : world c' = world c;
  ins_inners : ∀ b, unlinked <$> inners c' !! b = unlinked <$> inners c !! b;
  ins_frame : ∀ b, b ∉ a :: kept → inners c' !! b = inners c !! b;
}.

(** The state in which [lookup] calls [remember] on a miss. *)
Definition fetched (k : string) (content : DataObj) (c : Cache) : Cache :=
  let d := fresh (dom (datas c)) in
  let a := fresh (dom (inners c)) in
  upd_inners <[a := mkInner k (Some d) None None None]>
    (upd_datas <[d := content]> c).

End Shape.

(** ** Initial state of a new instance *)

Section InitialData.
Context {Value Ground : Type}.
Context (co : Collaborators Value Ground).

(** The own properties of [initialData] when [initialize(...args)] has
    run: what the assignments of the kind leave on an empty object. *)
Definition assignAll (asg : list (string * Value))
    (ps : list (string * Slot Value Ground)) : list (string * Slot Value Ground) :=
  foldl (λ ps pv, setOwn pv.1 (Plain pv.2) ps) ps asg.
Definition initialProps (kind : Kind Value) (args : list Value) :
    list (string * Slot Value Ground) :=
  match initialize kind with
  | Some init => assignAll (init args) []
  | None => []
  end.


(** The raw data of a new instance: the own properties of the initial
    data, each encoded by [m.serialize]; [None] when one is rejected. *)
Definition encodeProp (ps : string * Slot Value Ground) :
    option (string * Slot Value Ground) :=
  match ps.2 with
  | Plain v =>
      match m_serialize co v with
      | inr g => Some (ps.1, Encoded g)
      | inl _ => None
      end
  | _ => None
  end.
Fixpoint encodeAll (ps : list (string * Slot Value Ground)) :
    option (list (string * Slot Value Ground)) :=
  match ps with
  | [] => Some []
  | kv :: ps' =>
      match encodeProp kv, encodeAll ps' with
      | Some y, Some enc => Some (y :: enc)
      | _, _ => None
      end
  end.

(** A property holding a plain user value. *)
Definition plain (kv : string * Slot Value Ground) : Prop := ∃ v, kv.2 = Plain v.


(** [e] names the property [prop]: its message mentions it. *)
Fixpoint mentions (prop s : string) : bool :=
  String.prefix prop s ||
  match s with
  | EmptyString => false
  | String _ s' => mentions prop s'
  end.
Definition names (e : Error) (prop : string) : Prop :=
  mentions prop (message e) = true.

End InitialData.

(** ** What a computation throws, and what it keeps *)

(** [throws P m]: every error [m] throws satisfies [P]. *)
Definition throws {S A} (P : Error → Prop) (m : M S A) : Prop :=
  ∀ s e s', m s = Throw e s' → P e.

(** [keeps f m]: whether [m] returns or throws, [f] of the state is
    what it was. *)
Definition keeps {S A X} (f : S → X) (m : M S A) : Prop :=
  ∀ s, match m s with
       | Ok _ s' | Throw _ s' => f s' = f s
       | Fail _ => True
       end.

(** ** Clients of the cache *)

(** Running a computation for its final state. *)
Definition run {S A} (m : M S A) (s : S) : S :=
  match m s with Ok _ s' | Throw _ s' => s' | Fail _ => s end.

(** What a client asks of the cache object, one call after the other.  A
    call that throws leaves the variables and the heap as they were when
    the exception was raised, and the client goes on. *)
Inductive Call :=
  | CallLookup (k : string)
  | CallFlush
  | CallMakeRoom.

Section Calls.
Context {Value Ground W : Type}.
Context (fetch : string → W → Error + DataObj Value Ground).
Context (store : string → DataObj Value Ground → W → W).

Definition call (fuel : nat) (op : Call) (c : Cache Value Ground W) :
    Cache Value Ground W :=
  match op with
  | CallLookup k => run (cache.lookup fetch store fuel k) c
  | CallFlush => run (cache.flush store fuel) c
  | CallMakeRoom => run (cache.makeRoom store fuel) c
  end.
Definition calls (fuel : nat) (ops : list Call) (c : Cache Value Ground W) :
    Cache Value Ground W :=
  foldl (λ c op, call fuel op c) c ops.

End Calls.

(** ** Two small instances *)

Module Example.

(** A cache on its own, as the tests build it: [fetch] makes up the raw
    data (marked as being initialized for the keys that start with
    "new"), [store] logs the key. *)
Definition fetch (k : string) (w : list string) : Error + DataObj string string :=
  inr (mkData (String.prefix "new" k) [("key", Encoded k)] false).
Definition store (k : string) (d : DataObj string string) (w : list string) :
    list string :=
  w ++ [k].

(** The cache of the given size after looking the keys up in turn. *)
Definition cacheOf (size : nat) (keys : list string) :
    Cache string string (list string) :=
  foldl (λ c k, run (cache.lookup fetch store 10 k) c) (makeCache size []) keys.

(** Three residents, the middle one being initialized, and room for one. *)
Definition crowded : Cache string string (list string) :=
  set_cacheSize 1 (cacheOf 3 ["a"; "new1"; "b"]).

(** A manager whose values are strings; the marshaller rejects
    functions, encodes the rest by itself. *)
Definition serialize (v : string) : Error + string :=
  if String.prefix "function" v
  then inl (External "Cannot pass non-frozen objects like functions")
  else inr v.
Definition unserialize (g : string) : Error + string := inr g.

(** Raw data is written as [prop=body;prop=body;]. *)
Fixpoint stringifyData (ps : list (string * Slot string string)) : string :=
  match ps with
  | [] => ""
  | (k, Encoded g) :: r | (k, Plain g) :: r =>
      k +:+ "=" +:+ g +:+ ";" +:+ stringifyData r
  | (_, Accessor _) :: r => stringifyData r
  end.
Fixpoint splitOn (c : Ascii.ascii) (s acc : string) : list string :=
  match s with
  | EmptyString => if String.eqb acc "" then [] else [acc]
  | String a s' =>
      if Ascii.eqb a c then acc :: splitOn c s' ""
      else splitOn c s' (acc +:+ String a EmptyString)
  end.
Definition parseProp (s : string) : option (string * Slot string string) :=
  match splitOn "="%char s "" with
  | [k; g] => Some (k, Encoded g)
  | _ => None
  end.
Definition parseData (s : string) : option (list (string * Slot string string)) :=
  foldl (λ ps kv, setOwn kv.1 kv.2 ps) []
    <$> mapM parseProp (splitOn ";"%char s "").

(** An encoded value is written after a [#]. *)
Definition stringifyGround (g : string) : string := String "#"%char g.
Definition parseGround (s : string) : option string :=
  match s with
  | String "#"%char g => Some g
  | _ => None
  end.

(** Slots: [o+<id>/<n>] is a virtual object, [o+<id>] and [o-<id>] are
    objects, [p...] promises, [d...] devices. *)
Definition digit (a : Ascii.ascii) : option N :=
  let n := Ascii.N_of_ascii a in
  if ((48 <=? n) && (n <=? 57))%N then Some (n - 48)%N else None.
Fixpoint digits (s : string) (acc : N) : option N :=
  match s with
  | EmptyString => Some acc
  | String a s' =>
      match digit a with
      | Some d => digits s' (acc * 10 + d)%N
      | None => None
      end
  end.
Definition number (s : string) : option N :=
  match s with
  | EmptyString => None
  | _ => digits s 0%N
  end.
Definition parseVatSlot (s : string) : Error + VatSlot :=
  match s with
  | String t (String sign rest) =>
      let type :=
        if Ascii.eqb t "o"%char then Some "object"
        else if Ascii.eqb t "p"%char then Some "promise"
        else if Ascii.eqb t "d"%char then Some "device"
        else None in
      let signed := Ascii.eqb sign "+"%char || Ascii.eqb sign "-"%char in
      match type, signed, splitOn "/"%char rest "" with
      | Some type, true, [idPart] =>
          match number idPart with
          | Some id => inr (mkVatSlot type false id)
          | None => inl (External "invalid vatSlot")
          end
      | Some type, true, [idPart; subPart] =>
          match number idPart, number subPart with
          | Some id, Some _ => inr (mkVatSlot type true id)
          | _, _ => inl (External "invalid vatSlot")
          end
      | _, _, _ => inl (External "invalid vatSlot")
      end
  | _ => inl (External "invalid vatSlot")
  end.

Definition collaborators : Collaborators string string :=
  mkCollaborators serialize unserialize stringifyData parseData
    stringifyGround parseGround parseVatSlot.

(** A kind whose [initialize(n)] does [state.count = n]. *)
Definition counter : Kind string :=
  mkKind (Some (λ args, match args with [n] => [("count", n)] | _ => [] end)).


(** A manager with a cache of 3, on which [counter] is the kind "1" and
    [pair] the kind "2". *)
Definition fresh_manager : Cache string string (World string) :=
  makeVirtualObjectManager 1%N 3.
Definition manager : Cache string string (World string) :=
  run (vom.makeKind counter) fresh_manager.

(** The manager once a counter was made, flushed out and revived. *)
Definition revived : Cache string string (World string) :=
  run (vom.makeVirtualObjectRepresentative collaborators 20 "o+1/1")
    (run (vom.flushCache collaborators 20)
       (run (vom.makeNewInstance collaborators 20 "1" counter ["7"]) manager)).

End Example.

(** * Properties *)

(** ** Lemmas on chains *)

Section ChainLemmas.
Implicit Types (h : gmap addr InnerSelf) (l : list addr) (p n : option addr).

Lemma last_or_snoc p l a : last_or p (l ++ [a]) = Some a.
Proof. unfold last_or. by rewrite last_snoc. Qed.

Lemma last_or_cons p a l : last_or p (a :: l) = last_or (Some a) l.
Proof.
  unfold last_or. rewrite last_cons. by destruct (last l).
Qed.

Lemma hd_or_app n l1 l2 : hd_or n (l1 ++ l2) = hd_or (hd_or n l2) l1.
Proof. by destruct l1. Qed.

Lemma chain_app h p l1 l2 n :
  chain h p (l1 ++ l2) n ↔
  chain h p l1 (hd_or n l2) ∧ chain h (last_or p l1) l2 n.
Proof.
  revert p. induction l1 as [|a l1 IH]; intros p; simpl.
  - unfold last_or; simpl. tauto.
  - rewrite IH, hd_or_app, last_or_cons. tauto.
Qed.

Lemma chain_frame h h' p l n :
  (∀ b, b ∈ l → h' !! b = h !! b) → chain h p l n → chain h' p l n.
Proof.
  revert p. induction l as [|a l IH]; intros p Hfr; simpl; [done|].
  intros [(o & Ho & Hp & Hn) Hc]. split.
  - exists o. rewrite Hfr by set_solver. done.
  - apply IH; [|done]. intros b Hb. apply Hfr. set_solver.
Qed.

Lemma chain_alter_notin h f a p l n :
  a ∉ l → chain h p l n → chain (alter f a h) p l n.
Proof.
  intros Ha. apply chain_frame. intros b Hb.
  apply lookup_alter_ne. set_solver.
Qed.

Lemma chain_set_prev_hd h a l p p' n :
  a ∉ l → chain h p (a :: l) n →
  chain (alter (set_prev p') a h) p' (a :: l) n.
Proof.
  intros Ha [(o & Ho & Hp & Hn) Hc]. split.
  - exists (set_prev p' o). by rewrite lookup_alter_eq, Ho.
  - by apply chain_alter_notin.
Qed.

Lemma chain_set_next_last h a l p n n' :
  a ∉ l → chain h p (l ++ [a]) n →
  chain (alter (set_next n') a h) p (l ++ [a]) n'.
Proof.
  intros Ha. rewrite !chain_app. simpl.
  intros [Hc [(o & Ho & Hp & Hn) _]]. split.
  - by apply chain_alter_notin.
  - split; [|done]. exists (set_next n' o). by rewrite lookup_alter_eq, Ho.
Qed.

Lemma count_app f l1 l2 : count f (l1 ++ l2) = count f l1 + count f l2.
Proof. induction l1 as [|a l1 IH]; simpl; [done|]. rewrite IH. lia. Qed.

Lemma count_ext f g l : (∀ a, a ∈ l → f a = g a) → count f l = count g l.
Proof.
  induction l as [|a l IH]; intros Hfg; simpl; [done|].
  rewrite Hfg, IH by set_solver. done.
Qed.

Lemma count_perm f l1 l2 : l1 ≡ₚ l2 → count f l1 = count f l2.
Proof. induction 1; simpl; lia. Qed.


Lemma count_all f l : Forall (λ a, f a = true) l → count f l = length l.
Proof. induction 1 as [|a l Ha _ IH]; simpl; [done|]. rewrite Ha, IH. done. Qed.

Lemma count_none f l : Forall (λ a, f a = false) l → count f l = 0.
Proof. induction 1 as [|a l Ha _ IH]; simpl; [done|]. rewrite Ha, IH. done. Qed.

Lemma chain_lookup h p l n a :
  chain h p l n → a ∈ l → is_Some (h !! a).
Proof.
  revert p. induction l as [|b l IH]; intros p; simpl; [set_solver|].
  intros [(o & Ho & _) Hc] [->|Hin]%elem_of_cons; eauto.
Qed.

End ChainLemmas.

(** ** Lemmas on the errors a computation can throw *)

Section Throws.
Context {S : Type}.

Lemma throws_ret {A} P (a : A) : throws P (ret a : M S A).
Proof. by intros s e s'. Qed.

Lemma throws_gets {A} P (f : S → A) : throws P (gets f : M S A).
Proof. by intros s e s'. Qed.

Lemma throws_modify P (f : S → S) : throws P (modify f : M S unit).
Proof. by intros s e s'. Qed.

Lemma throws_fail {A} P f : throws P (fail f : M S A).
Proof. by intros s e s'. Qed.

Lemma throws_throw {A} (P : Error → Prop) e : P e → throws P (throw e : M S A).
Proof. intros He s e' s'. by intros [= <- _]. Qed.

Lemma throws_bind {A B} P (m : M S A) (k : A → M S B) :
  throws P m → (∀ a, throws P (k a)) → throws P (bind m k).
Proof.
  intros Hm Hk s e s'. unfold bind.
  destruct (m s) as [a s1|e1 s1|f] eqn:Hms; [|intros [= <- _]|done].
  - apply Hk.
  - by eapply Hm.
Qed.

End Throws.

(** ** Lemmas on well-formed cache states *)

Section CacheLemmas.
Context {Value Ground W : Type}.
Local Abbreviation Cache := (Cache Value Ground W).
Local Abbreviation DataObj := (DataObj Value Ground).
Context (fetch : string → W → Error + DataObj).
Context (store : string → DataObj → W → W).
Implicit Types (c : Cache) (l : list addr) (h : gmap addr InnerSelf).

Lemma row_fst h l : (row h <$> l).*1 = keyOf h <$> l.
Proof. by rewrite <-list_fmap_compose. Qed.

Lemma chainb_sound h p l n : chainb h p l n = true → chain h p l n.
Proof.
  revert p. induction l as [|a l IH]; intros p; simpl; [done|].
  destruct (h !! a) as [o|]; [|done].
  intros [[Hp%bool_decide_eq_true Hn%bool_decide_eq_true]%andb_true_iff
            Hc]%andb_true_iff.
  split; [by exists o|by apply IH].
Qed.

Lemma wfb_sound c l : wfb c l = true → wf c l.
Proof.
  unfold wfb. rewrite !andb_true_iff, !bool_decide_eq_true.
  intros [[[[[Hhd Htl] Hch] Hnd] Htab] Hdata]. split; try done.
  - by apply chainb_sound.
  - apply Forall_forall. intros a Ha.
    rewrite forallb_forall in Hdata.
    apply list_elem_of_In in Ha. by apply Hdata, bool_decide_eq_true in Ha.
Qed.

Lemma wf_NoDup c l : wf c l → NoDup l.
Proof. intros Hwf. eapply NoDup_fmap_1, wf_keys, Hwf. Qed.

Lemma wf_size c l : wf c l → size (liveTable c) = length l.
Proof.
  intros Hwf. rewrite (wf_table _ _ Hwf), map_size_list_to_map.
  - by rewrite length_fmap.
  - rewrite row_fst. apply Hwf.
Qed.

Lemma wf_table_lookup c l k a :
  wf c l → liveTable c !! k = Some a ↔ a ∈ l ∧ keyOf (inners c) a = k.
Proof.
  clear fetch store.
  intros Hwf. rewrite (wf_table _ _ Hwf), <-elem_of_list_to_map.
  - rewrite list_elem_of_fmap. unfold row. naive_solver.
  - rewrite row_fst. apply Hwf.
Qed.

Lemma wf_allocated c l a : wf c l → a ∈ l → is_Some (inners c !! a).
Proof. intros Hwf. eapply chain_lookup, wf_chain, Hwf. Qed.

Lemma relinked_refl c : relinked c c.
Proof. by split. Qed.

Lemma relinked_trans c1 c2 c3 : relinked c1 c2 → relinked c2 c3 → relinked c1 c3.
Proof.
  intros [] []. split; congruence.
Qed.

Lemma relinked_keyOf c c' b :
  relinked c c' → keyOf (inners c') b = keyOf (inners c) b.
Proof.
  intros Hrl. pose proof (rl_inners _ _ Hrl b) as Hb. unfold keyOf.
  destruct (inners c' !! b) as [o'|], (inners c !! b) as [o|]; try done.
  by injection Hb.
Qed.

Lemma relinked_dataOf c c' b : relinked c c' → dataOf c' b = dataOf c b.
Proof.
  intros Hrl. pose proof (rl_inners _ _ Hrl b) as Hb. unfold dataOf.
  rewrite (rl_datas _ _ Hrl).
  destruct (inners c' !! b) as [o'|], (inners c !! b) as [o|]; try done.
  injection Hb as _ ->. done.
Qed.

Lemma relinked_isInit c c' b : relinked c c' → isInit c' b = isInit c b.
Proof. intros Hrl. unfold isInit. by rewrite (relinked_dataOf c c'). Qed.

Lemma relinked_countInit c c' l :
  relinked c c' → countInit c' l = countInit c l.
Proof.
  intros Hrl. apply count_ext. intros b _. by apply relinked_isInit.
Qed.

Lemma unlinked_lookup_alter h f x b :
  (∀ o, unlinked (f o) = unlinked o) →
  unlinked <$> alter f x h !! b = unlinked <$> h !! b.
Proof.
  intros Hf. rewrite lookup_alter. case_decide; [subst|done].
  destruct (h !! b); simpl; [|done]. by rewrite Hf.
Qed.

(** Relinking a permutation of the residents keeps the state well formed. *)
Lemma wf_relinked c c' l l' :
  wf c l → relinked c c' → l ≡ₚ l' →
  lruHead c' = head l' → lruTail c' = last l' →
  chain (inners c') None l' None →
  wf c' l'.
Proof.
  intros Hwf Hrl Hperm Hhd Htl Hch.
  assert (Hkeys : keyOf (inners c') <$> l' ≡ₚ keyOf (inners c) <$> l).
  { rewrite <-Hperm. erewrite list_fmap_ext; [done|].
    intros ? b _. by apply relinked_keyOf. }
  assert (Hrows : row (inners c') <$> l' ≡ₚ row (inners c) <$> l).
  { rewrite <-Hperm. erewrite list_fmap_ext; [done|].
    intros ? b _. unfold row. by rewrite (relinked_keyOf c c'). }
  split; try done.
  - rewrite Hkeys. apply Hwf.
  - rewrite (rl_table _ _ Hrl), (wf_table _ _ Hwf).
    apply list_to_map_proper; [|done]. rewrite row_fst. apply Hwf.
  - rewrite <-Hperm. eapply Forall_impl; [apply Hwf|].
    intros b. simpl. by rewrite (relinked_dataOf c c').
Qed.

(** *** [refresh] *)

Lemma refresh_head c a :
  lruHead c = Some a → cache.refresh a c = Ok tt c.
Proof.
  intros Hhd. unfold cache.refresh, bind, gets. rewrite Hhd.
  by rewrite decide_True.
Qed.

Lemma unlinked_set_prev v o : unlinked (set_prev v o) = unlinked o.
Proof. done. Qed.

Lemma unlinked_set_next v o : unlinked (set_next v o) = unlinked o.
Proof. done. Qed.

(** Refreshing a resident moves it to the head of the LRU list and
    leaves the other residents in their order. *)
Lemma refresh_spec c l1 a l2 :
  wf c (l1 ++ a :: l2) →
  ∃ c', cache.refresh a c = Ok tt c'
    ∧ wf c' (a :: l1 ++ l2)
    ∧ relinked c c'
    ∧ (∀ b, b ∉ l1 ++ a :: l2 → inners c' !! b = inners c !! b).
Proof.
  intros Hwf. pose proof (wf_NoDup _ _ Hwf) as Hnd.
  destruct l1 as [|hd m].
  { exists c. split; [|split; [done|split; [apply relinked_refl|done]]].
    apply refresh_head. by rewrite (wf_head _ _ Hwf). }
  destruct (exists_last (l:=hd :: m)) as (m' & p & Hl1); [done|].
  pose proof (wf_chain _ _ Hwf) as Hch.
  pose proof (wf_head _ _ Hwf) as Hhd. simpl in Hhd.
  pose proof (wf_tail _ _ Hwf) as Htl.
  assert (Hhda : hd ≠ a).
  { intros ->. apply NoDup_cons in Hnd as [Hnd _]. set_solver. }
  remember (hd :: m) as L1 eqn:HL1.
  apply NoDup_app in Hnd as (Hnd1 & Hdisj & Hnd2).
  apply NoDup_cons in Hnd2 as [Ha2 Hnd2].
  assert (Ha1 : a ∉ L1) by (intros ?; eapply Hdisj; [done|set_solver]).
  assert (Hd12 : ∀ b, b ∈ l2 → b ∉ L1).
  { intros b Hb2 Hb1. eapply Hdisj; [done|set_solver]. }
  assert (Hp1 : p ∈ L1) by (rewrite Hl1; set_solver).
  assert (Hhd1 : hd ∈ L1) by (rewrite HL1; set_solver).
  assert (Hpa : p ≠ a) by (by intros ->).
  assert (Hpm : p ∉ m').
  { rewrite Hl1 in Hnd1. apply NoDup_app in Hnd1 as (_ & Hd & _).
    intros Hin. eapply Hd; [done|set_solver]. }
  assert (Hhdm : hd ∉ m).
  { rewrite HL1 in Hnd1. by apply NoDup_cons in Hnd1 as [? _]. }
  apply chain_app in Hch as [Hc1 Hc2].
  replace (last_or None L1) with (Some p) in Hc2
    by (by rewrite Hl1, last_or_snoc).
  destruct Hc2 as [(o & Ho & Hop & Hon) Hc2].
  unfold cache.refresh, bind, gets, readInner. rewrite Hhd.
  rewrite decide_False by congruence. rewrite Ho, Hop.
  destruct l2 as [|n l2']; simpl in Hon; rewrite Hon; simpl; rewrite Hhd;
    (eexists; split; [reflexivity|]).
  - split; [|split].
    + eapply wf_relinked; [exact Hwf| | | | |]; simpl.
      * split; simpl; try done. intros b.
        by rewrite !unlinked_lookup_alter.
      * symmetry. apply Permutation_middle.
      * done.
      * by rewrite app_nil_r, Hl1, last_cons, last_snoc.
      * split.
        -- exists (set_next (Some hd) (set_prev None o)).
           rewrite lookup_alter_ne, !lookup_alter_eq, lookup_alter_ne, Ho
             by done.
           by rewrite HL1.
        -- rewrite app_nil_r, HL1. eapply chain_set_prev_hd; [done|].
           rewrite <-HL1. do 2 (eapply chain_alter_notin; [done|]).
           rewrite Hl1. eapply chain_set_next_last; [done|].
           rewrite <-Hl1. exact Hc1.
    + split; simpl; try done. intros b. by rewrite !unlinked_lookup_alter.
    + simpl. intros b Hb. rewrite !lookup_alter_ne; [done|set_solver..].
  - assert (Hn1 : n ∉ L1) by (apply Hd12; set_solver).
    assert (Hna : n ≠ a) by (intros ->; set_solver).
    assert (Hpl2 : p ∉ n :: l2') by (intros ?; by eapply Hd12).
    assert (Hhdl2 : hd ∉ n :: l2') by (intros ?; by eapply Hd12).
    apply NoDup_cons in Hnd2 as [Hnl2 Hnd2].
    split; [|split].
    + eapply wf_relinked; [exact Hwf| | | | |]; simpl.
      * split; simpl; try done. intros b.
        by rewrite !unlinked_lookup_alter.
      * symmetry. apply Permutation_middle.
      * done.
      * rewrite Htl, app_comm_cons, !last_app_cons. by rewrite last_cons_cons.
      * split.
        -- exists (set_next (Some hd) (set_prev None o)).
           rewrite lookup_alter_ne, !lookup_alter_eq, !lookup_alter_ne, Ho
             by done.
           by rewrite HL1.
        -- apply chain_app. split.
           ++ rewrite HL1. eapply chain_set_prev_hd; [done|].
              rewrite <-HL1. do 3 (eapply chain_alter_notin; [done|]).
              rewrite Hl1. eapply chain_set_next_last; [done|].
              rewrite <-Hl1. exact Hc1.
           ++ replace (last_or (Some a) L1) with (Some p)
                by (by rewrite Hl1, last_or_snoc).
              do 3 (eapply chain_alter_notin; [done|]).
              eapply chain_set_prev_hd; [done|].
              eapply chain_alter_notin; [done|]. exact Hc2.
    + split; simpl; try done. intros b. by rewrite !unlinked_lookup_alter.
    + simpl. intros b Hb. rewrite !lookup_alter_ne; [done|set_solver..].
Qed.

(** *** Eviction of the tail *)

Lemma same_keyOf h h' b :
  unlinked <$> h' !! b = unlinked <$> h !! b → keyOf h' b = keyOf h b.
Proof.
  intros Hb. unfold keyOf.
  destruct (h' !! b) as [o'|], (h !! b) as [o|]; try done.
  by injection Hb.
Qed.

Lemma same_dataOf c c' b :
  datas c' = datas c →
  unlinked <$> inners c' !! b = unlinked <$> inners c !! b →
  dataOf c' b = dataOf c b.
Proof.
  intros Hd Hb. unfold dataOf. rewrite Hd.
  destruct (inners c' !! b) as [o'|], (inners c !! b) as [o|]; try done.
  injection Hb as _ ->. done.
Qed.

Lemma same_isInit c c' b :
  datas c' = datas c →
  unlinked <$> inners c' !! b = unlinked <$> inners c !! b →
  isInit c' b = isInit c b.
Proof. intros Hd Hb. unfold isInit. by rewrite (same_dataOf c c'). Qed.

Lemma same_entry c c' b :
  datas c' = datas c →
  unlinked <$> inners c' !! b = unlinked <$> inners c !! b →
  entry c' b = entry c b.
Proof.
  intros Hd Hb. unfold entry.
  by rewrite (same_dataOf c c'), (same_keyOf (inners c) (inners c')).
Qed.

Lemma delete_list_to_map_snoc {A} (ps : list (string * A)) k v :
  k ∉ ps.*1 → delete k (list_to_map (ps ++ [(k, v)]) : gmap string A)
              = list_to_map ps.
Proof.
  intros Hk. apply map_eq. intros i.
  destruct (decide (i = k)) as [->|Hne].
  - rewrite lookup_delete_eq. symmetry. by apply not_elem_of_list_to_map.
  - rewrite lookup_delete_ne by done.
    rewrite list_to_map_app, lookup_union. simpl.
    rewrite lookup_insert_ne, lookup_empty by done.
    by destruct (list_to_map ps !! i).
Qed.

Lemma head_snoc_ne {A} (l : list A) x : l ≠ [] → head (l ++ [x]) = head l.
Proof. by destruct l. Qed.

Lemma last_or_None l : last_or None l = last l.
Proof. unfold last_or. by destruct (last l). Qed.

Lemma tailInitializing_spec c l t :
  wf c (l ++ [t]) → cache.tailInitializing c = Ok (isInit c t) c.
Proof.
  intros Hwf. pose proof (wf_tail _ _ Hwf) as Htl. rewrite last_snoc in Htl.
  pose proof (wf_data _ _ Hwf) as Hdata.
  apply Forall_app in Hdata as [_ Ht]. apply Forall_inv in Ht.
  destruct Ht as [obj Hobj]. unfold isInit. rewrite Hobj.
  unfold dataOf in Hobj.
  unfold cache.tailInitializing, bind, gets, readInner, readData.
  rewrite Htl. destruct (inners c !! t) as [o|]; [|done].
  destruct (rawData o) as [d|]; [|done]. by rewrite Hobj.
Qed.

(** Dropping the last resident. *)
Lemma wf_shrink c c' l t :
  wf c (l ++ [t]) →
  datas c' = datas c →
  (∀ b, b ∈ l → unlinked <$> inners c' !! b = unlinked <$> inners c !! b) →
  liveTable c' = delete (keyOf (inners c) t) (liveTable c) →
  lruHead c' = head l → lruTail c' = last l →
  chain (inners c') None l None →
  wf c' l.
Proof.
  intros Hwf Hd Hsame Htab Hhd Htl Hch.
  pose proof (wf_keys _ _ Hwf) as Hkeys.
  rewrite fmap_app in Hkeys. apply NoDup_app in Hkeys as (Hk1 & Hk2 & _).
  assert (Hkeq : keyOf (inners c') <$> l = keyOf (inners c) <$> l).
  { apply list_fmap_ext. intros i b Hb%list_elem_of_lookup_2.
    by apply same_keyOf, Hsame. }
  assert (Hreq : row (inners c') <$> l = row (inners c) <$> l).
  { apply list_fmap_ext. intros i b Hb%list_elem_of_lookup_2.
    unfold row. by rewrite (same_keyOf (inners c) (inners c')) by by apply Hsame. }
  split; try done.
  - by rewrite Hkeq.
  - rewrite Htab, (wf_table _ _ Hwf), fmap_app, Hreq. simpl.
    apply delete_list_to_map_snoc. rewrite row_fst.
    intros Hin. eapply Hk2; [done|]. simpl. set_solver.
  - pose proof (wf_data _ _ Hwf) as Hdata.
    apply Forall_app in Hdata as [Hdata _].
    rewrite Forall_forall in Hdata |- *. intros b Hb.
    rewrite (same_dataOf c c') by auto. auto.
Qed.

Lemma evictTail_spec c l t :
  wf c (l ++ [t]) → isInit c t = false →
  ∃ c', cache.evictTail store c = Ok tt c' ∧ swept store c c' (l ++ [t]) l [t].
Proof.
  intros Hwf Hinit. pose proof (wf_NoDup _ _ Hwf) as Hnd.
  pose proof (wf_tail _ _ Hwf) as Htl. rewrite last_snoc in Htl.
  pose proof (wf_data _ _ Hwf) as Hdata.
  apply Forall_app in Hdata as [Hdata Ht]. apply Forall_inv in Ht.
  destruct Ht as [obj Hobj].
  pose proof (wf_chain _ _ Hwf) as Hch.
  apply chain_app in Hch as [Hc1 [(o & Ho & Hop & Hon) _]].
  simpl in Hc1, Hon. rewrite last_or_None in Hop.
  apply NoDup_app in Hnd as (Hnd1 & Hdisj & _).
  assert (Htl' : t ∉ l) by (intros ?; eapply Hdisj; [done|set_solver]).
  assert (Hkey : keyOf (inners c) t = instanceKey o) by (unfold keyOf; by rewrite Ho).
  assert (Hent : entry c t = Some (instanceKey o, obj)).
  { unfold entry. by rewrite Hobj, Hkey. }
  pose proof Hobj as Hobj'. unfold dataOf in Hobj'. rewrite Ho in Hobj'.
  destruct (rawData o) as [d|] eqn:Hraw; [|done].
  unfold cache.evictTail, bind, gets, readInner, readData. rewrite Htl, Ho.
  simpl. rewrite Hraw. simpl. rewrite Hobj'. simpl.
  assert (Hsw : ∀ c',
    wf c' l → cacheSize c' = cacheSize c → datas c' = datas c →
    stored c' = stored c ++ [(instanceKey o, obj)] →
    world c' = store (instanceKey o) obj (world c) →
    (∀ b, b ≠ t → unlinked <$> inners c' !! b = unlinked <$> inners c !! b) →
    unlinked <$> inners c' !! t
      = unlinked <$> (set_rawData None <$> inners c !! t) →
    (∀ b, b ∉ l ++ [t] → inners c' !! b = inners c !! b) →
    swept store c c' (l ++ [t]) l [t]).
  { intros c' ? ? ? ? ? Hkept Hgone ?. split; try done.
    - simpl. by rewrite Hent.
    - simpl. by rewrite Hent.
    - by apply Forall_singleton.
    - apply Forall_singleton. by eexists.
    - intros b Hb. apply Hkept. set_solver.
    - intros b ->%list_elem_of_singleton. done. }
  rewrite Hop.
  destruct l as [|p l' _] using rev_ind; simpl.
  - eexists; split; [reflexivity|]. apply Hsw; simpl; try done.
    + eapply wf_shrink; [exact Hwf|..]; simpl; try done.
      * intros b Hb. set_solver.
      * by rewrite Hkey.
    + intros b Hb. by rewrite lookup_alter_ne.
    + by rewrite lookup_alter_eq.
    + intros b Hb. rewrite lookup_alter_ne; [done|set_solver].
  - rewrite last_snoc. simpl.
    apply NoDup_app in Hnd1 as (_ & Hd' & _).
    assert (Hp : p ∉ l') by (intros ?; eapply Hd'; [done|set_solver]).
    assert (Hpt : p ≠ t) by (intros ->; set_solver).
    eexists; split; [reflexivity|]. apply Hsw; simpl; try done.
    + eapply wf_shrink; [exact Hwf|..]; simpl; try done.
      * intros b Hb. rewrite unlinked_lookup_alter by done.
        rewrite lookup_alter_ne; [done|set_solver].
      * by rewrite Hkey.
      * rewrite (wf_head _ _ Hwf). apply head_snoc_ne. by destruct l'.
      * by rewrite last_snoc.
      * eapply chain_set_next_last; [done|].
        eapply chain_alter_notin; [done|]. exact Hc1.
    + intros b Hb. rewrite unlinked_lookup_alter by done.
      by rewrite lookup_alter_ne.
    + rewrite unlinked_lookup_alter by done. by rewrite lookup_alter_eq.
    + intros b Hb. rewrite !lookup_alter_ne; [done|set_solver..].
Qed.

(** *** Composition of sweeps *)

Lemma swept_relinked c c' l l' :
  wf c' l' → relinked c c' → l ≡ₚ l' →
  (∀ b, b ∉ l → inners c' !! b = inners c !! b) →
  swept store c c' l l' [].
Proof.
  intros Hwf' Hrl Hperm Hfr. destruct Hrl. split; simpl; try done.
  - by rewrite app_nil_r.
  - by rewrite app_nil_r.
  - set_solver.
Qed.

Lemma unlinked_detach (x y : option InnerSelf) :
  unlinked <$> x = unlinked <$> y →
  unlinked <$> (set_rawData None <$> x) = unlinked <$> (set_rawData None <$> y).
Proof.
  destruct x as [o1|], y as [o2|]; simpl; try done.
  intros [= Hk Hr Hw]. unfold unlinked, set_rawData, set_prev, set_next.
  simpl. by rewrite Hk, Hw.
Qed.

Lemma omap_ext_in {A B} (f g : A → option B) (l : list A) :
  (∀ a, a ∈ l → f a = g a) → omap f l = omap g l.
Proof.
  induction l as [|a l IH]; intros Hfg; [done|].
  change (a :: l) with ([a] ++ l). rewrite !omap_app, IH by set_solver.
  simpl. rewrite Hfg by set_solver. done.
Qed.

Lemma swept_trans c c1 c2 l k1 g1 k2 g2 :
  wf c l →
  swept store c c1 l k1 g1 → swept store c1 c2 k1 k2 g2 →
  swept store c c2 l k2 (g1 ++ g2).
Proof.
  intros Hwf H1 H2. pose proof (wf_NoDup _ _ Hwf) as Hnd.
  rewrite (sw_perm _ _ _ _ _ _ H1) in Hnd.
  apply NoDup_app in Hnd as (_ & Hdisj & _).
  assert (Hg2 : ∀ b, b ∈ g2 → b ∉ g1).
  { intros b Hb. apply Hdisj. rewrite (sw_perm _ _ _ _ _ _ H2). set_solver. }
  assert (Hsame : ∀ b, b ∈ g2 →
    unlinked <$> inners c1 !! b = unlinked <$> inners c !! b).
  { intros b Hb. apply (sw_kept _ _ _ _ _ _ H1). auto. }
  assert (Hent : omap (entry c1) g2 = omap (entry c) g2).
  { apply omap_ext_in. intros b Hb. apply same_entry; [apply H1|auto]. }
  split.
  - apply H2.
  - rewrite (sw_perm _ _ _ _ _ _ H1), (sw_perm _ _ _ _ _ _ H2).
    rewrite <-!(assoc_L (++)). f_equiv. apply Permutation_app_comm.
  - rewrite (sw_size _ _ _ _ _ _ H2). apply H1.
  - rewrite (sw_datas _ _ _ _ _ _ H2). apply H1.
  - rewrite (sw_stored _ _ _ _ _ _ H2), (sw_stored _ _ _ _ _ _ H1).
    by rewrite omap_app, Hent, (assoc_L (++)).
  - rewrite (sw_world _ _ _ _ _ _ H2), (sw_world _ _ _ _ _ _ H1).
    by rewrite omap_app, foldl_app, Hent.
  - apply Forall_app. split; [apply H1|].
    pose proof (sw_noinit _ _ _ _ _ _ H2) as Hn.
    rewrite Forall_forall in Hn |- *. intros b Hb.
    rewrite <-(same_isInit c c1); [auto|apply H1|auto].
  - apply Forall_app. split; [apply H1|].
    pose proof (sw_written _ _ _ _ _ _ H2) as Hn.
    rewrite Forall_forall in Hn |- *. intros b Hb.
    rewrite <-(same_dataOf c c1); [auto|apply H1|auto].
  - intros b Hb. rewrite (sw_kept _ _ _ _ _ _ H2) by set_solver.
    apply (sw_kept _ _ _ _ _ _ H1). set_solver.
  - intros b [Hb|Hb]%elem_of_app.
    + rewrite (sw_kept _ _ _ _ _ _ H2).
      * by apply (sw_gone _ _ _ _ _ _ H1).
      * intros Hb2. by apply (Hg2 b).
    + rewrite (sw_gone _ _ _ _ _ _ H2) by done.
      apply unlinked_detach, Hsame, Hb.
  - intros b Hb. rewrite (sw_frame _ _ _ _ _ _ H2).
    + by apply (sw_frame _ _ _ _ _ _ H1).
    + intros Hk. apply Hb. rewrite (sw_perm _ _ _ _ _ _ H1). set_solver.
Qed.

(** *** The inner loop of [makeRoom] *)

Lemma count_take_le f k l : count f (take k l) ≤ count f l.
Proof.
  rewrite <-(take_drop k l) at 2. rewrite count_app. lia.
Qed.

(** Entered with [refreshCount = k + 1] after [k] refreshes, the loop
    rotates initializing tails to the head until the tail is not being
    initialized, or gives up when more than [size] residents are. *)
Lemma refreshLoop_spec fuel k c l :
  wf c l → cacheSize c < length l → k ≤ cacheSize c →
  Forall (λ a, isInit c a = true) (take k l) →
  cacheSize c + 1 ≤ fuel + k →
  ∃ c' l', wf c' l' ∧ relinked c c' ∧ l ≡ₚ l'
    ∧ (∀ b, b ∉ l → inners c' !! b = inners c !! b)
    ∧ ((cache.refreshLoop fuel (S k) c = Ok tt c'
        ∧ ∃ l0 t, l' = l0 ++ [t] ∧ isInit c t = false)
       ∨ (cache.refreshLoop fuel (S k) c = Throw CacheOverflow c'
          ∧ cacheSize c < countInit c l)).
Proof.
  revert k c l. induction fuel as [|fuel IH]; intros k c l Hwf Hlen Hk Hinit Hfuel;
    [lia|].
  destruct l as [|t l0 _] using rev_ind; [simpl in Hlen; lia|].
  rewrite length_app in Hlen. simpl in Hlen.
  assert (Heq : cache.refreshLoop (S fuel) (S k) c =
    if isInit c t then
      if decide (cacheSize c < S k) then Throw CacheOverflow c
      else match cache.refresh t c with
           | Ok _ c1 => cache.refreshLoop fuel (S (S k)) c1
           | Throw e s => Throw e s
           | Fail f => Fail f
           end
    else Ok tt c).
  { simpl. unfold bind, gets. rewrite (tailInitializing_spec c l0 t Hwf).
    destruct (isInit c t); [|done]. case_decide; [done|].
    by rewrite (wf_tail _ _ Hwf), last_snoc, Nat.add_1_r. }
  rewrite Heq. clear Heq.
  destruct (isInit c t) eqn:Ht.
  - destruct (decide (cacheSize c < S k)) as [Hlt|Hge].
    + exists c, (l0 ++ [t]).
      split; [done|split; [apply relinked_refl|split; [done|split; [done|]]]].
      right. split; [done|].
      unfold countInit. rewrite count_app. simpl. rewrite Ht.
      rewrite take_app_le in Hinit by lia.
      pose proof (count_take_le (isInit c) k l0) as Hle.
      rewrite (count_all _ _ Hinit), length_take in Hle. lia.
    + destruct (refresh_spec c l0 t [] Hwf) as (c1 & Hr & Hwf1 & Hrl & Hfr).
      rewrite Hr. rewrite app_nil_r in Hwf1.
      destruct (IH (S k) c1 (t :: l0)) as (c' & l' & Hwf' & Hrl' & Hp' & Hfr' & Hres).
      * done.
      * rewrite (rl_size _ _ Hrl). simpl. lia.
      * rewrite (rl_size _ _ Hrl). lia.
      * simpl. rewrite take_app_le in Hinit by lia. constructor.
        -- by rewrite (relinked_isInit c c1).
        -- eapply Forall_impl; [exact Hinit|]. intros b Hb. simpl.
           by rewrite (relinked_isInit c c1).
      * rewrite (rl_size _ _ Hrl). lia.
      * exists c', l'. split; [done|]. split; [by eapply relinked_trans|].
        split. { rewrite <-Hp'. symmetry. apply Permutation_cons_append. }
        split.
        { intros b Hb. rewrite Hfr'; [by apply Hfr|]. set_solver. }
        destruct Hres as [(Hres & l1 & t1 & -> & Ht1)|(Hres & Hcnt)].
        -- left. split; [done|]. exists l1, t1. split; [done|].
           by rewrite <-(relinked_isInit c c1).
        -- right. split; [done|].
           rewrite (rl_size _ _ Hrl), (relinked_countInit c c1) in Hcnt by done.
           unfold countInit in *. rewrite count_app. simpl in *. lia.
  - exists c, (l0 ++ [t]).
    split; [done|split; [apply relinked_refl|split; [done|split; [done|]]]].
    left. split; [done|]. by exists l0, t.
Qed.

(** *** [makeRoom] *)

Lemma swept_countInit c c' l kept gone :
  wf c l → swept store c c' l kept gone →
  countInit c' kept = countInit c l.
Proof.
  intros Hwf Hsw. pose proof (wf_NoDup _ _ Hwf) as Hnd.
  rewrite (sw_perm _ _ _ _ _ _ Hsw) in Hnd.
  apply NoDup_app in Hnd as (_ & Hdisj & _).
  unfold countInit. rewrite (count_perm _ _ _ (sw_perm _ _ _ _ _ _ Hsw)).
  rewrite count_app, (count_none _ gone) by apply Hsw.
  rewrite Nat.add_0_r. apply count_ext. intros b Hb.
  apply same_isInit; [apply Hsw|]. apply (sw_kept _ _ _ _ _ _ Hsw). auto.
Qed.

Lemma makeRoom_unfold fuel c :
  cache.makeRoom store (S fuel) c =
  if decide (cacheSize c < size (liveTable c) ∧ is_Some (lruTail c)) then
    match cache.tailInitializing c with
    | Ok b c0 =>
        match (if b then cache.refreshLoop fuel 1 else ret tt) c0 with
        | Ok _ c1 =>
            match cache.evictTail store c1 with
            | Ok _ c2 => cache.makeRoom store fuel c2
            | Throw e s => Throw e s
            | Fail f => Fail f
            end
        | Throw e s => Throw e s
        | Fail f => Fail f
        end
    | Throw e s => Throw e s
    | Fail f => Fail f
    end
  else Ok tt c.
Proof. simpl. unfold bind, gets. by case_decide. Qed.

(** [makeRoom] evicts residents that are not being initialized until at
    most [size] are left, and overflows exactly when more than [size]
    residents are being initialized. *)
Lemma makeRoom_spec fuel c l :
  wf c l → length l + cacheSize c + 2 ≤ fuel →
  ∃ c' kept gone, swept store c c' l kept gone
    ∧ ((cache.makeRoom store fuel c = Ok tt c' ∧ length kept ≤ cacheSize c)
       ∨ (cache.makeRoom store fuel c = Throw CacheOverflow c'
          ∧ cacheSize c < countInit c l)).
Proof.
  revert c l. induction fuel as [|fuel IH]; intros c l Hwf Hfuel; [lia|].
  rewrite makeRoom_unfold, (wf_size _ _ Hwf), (wf_tail _ _ Hwf).
  case_decide as Hguard; cycle 1.
  { exists c, l, []. split.
    - apply swept_relinked; [done|apply relinked_refl|done|done].
    - left. split; [done|]. destruct l as [|t l0 _] using rev_ind; simpl; [lia|].
      rewrite last_snoc in Hguard.
      destruct (decide (cacheSize c < length (l0 ++ [t]))); [|lia].
      exfalso. apply Hguard. eauto. }
  destruct Hguard as [Hlen _].
  destruct l as [|t l0 _] using rev_ind; [simpl in Hlen; lia|].
  rewrite (tailInitializing_spec c l0 t Hwf).
  assert (Hstep : ∃ c1 l1,
    wf c1 l1 ∧ relinked c c1 ∧ l0 ++ [t] ≡ₚ l1
    ∧ (∀ b, b ∉ l0 ++ [t] → inners c1 !! b = inners c !! b)
    ∧ (((if isInit c t then cache.refreshLoop fuel 1 else ret tt) c = Ok tt c1
        ∧ ∃ l2 t2, l1 = l2 ++ [t2] ∧ isInit c t2 = false)
       ∨ ((if isInit c t then cache.refreshLoop fuel 1 else ret tt) c
            = Throw CacheOverflow c1
          ∧ cacheSize c < countInit c (l0 ++ [t])))).
  { destruct (isInit c t) eqn:Ht.
    - apply refreshLoop_spec; [done|done|lia|by constructor|].
      rewrite length_app in Hfuel. simpl in Hfuel. lia.
    - exists c, (l0 ++ [t]). split; [done|]. split; [apply relinked_refl|].
      split; [done|]. split; [done|]. left. split; [done|]. by exists l0, t. }
  destruct Hstep as (c1 & l1 & Hwf1 & Hrl & Hperm & Hfr & Hres).
  pose proof (swept_relinked c c1 _ _ Hwf1 Hrl Hperm Hfr) as Hsw1.
  destruct Hres as [(-> & l2 & t2 & -> & Ht2)|(-> & Hcnt)]; cycle 1.
  { exists c1, l1, []. split; [done|]. by right. }
  rewrite <-(relinked_isInit c c1) in Ht2 by done.
  destruct (evictTail_spec c1 l2 t2 Hwf1 Ht2) as (c2 & -> & Hsw2).
  pose proof (swept_trans _ _ _ _ _ _ _ _ Hwf Hsw1 Hsw2) as Hsw12.
  assert (Hlen2 : length (l0 ++ [t]) = S (length l2)).
  { rewrite Hperm, length_app. simpl. lia. }
  destruct (IH c2 l2) as (c' & kept & gone & Hsw3 & Hres).
  { apply Hsw2. }
  { rewrite (sw_size _ _ _ _ _ _ Hsw12). lia. }
  pose proof (swept_trans _ _ _ _ _ _ _ _ Hwf Hsw12 Hsw3) as Hsw.
  exists c', kept, (([] ++ [t2]) ++ gone). split; [done|].
  rewrite (sw_size _ _ _ _ _ _ Hsw12) in Hres.
  destruct Hres as [[-> Hk]|[-> Hcnt]]; [by left|right].
  split; [done|]. by rewrite <-(swept_countInit c c2 _ _ _ Hwf Hsw12).
Qed.

(** *** [remember] *)

(** Linking in a new first resident. *)
Lemma wf_grow c c' l a :
  wf c l →
  datas c' = datas c →
  (∀ b, b ∈ l → unlinked <$> inners c' !! b = unlinked <$> inners c !! b) →
  keyOf (inners c') a ∉ keyOf (inners c) <$> l →
  liveTable c' = <[keyOf (inners c') a := a]> (liveTable c) →
  is_Some (dataOf c' a) →
  lruHead c' = Some a → lruTail c' = last (a :: l) →
  chain (inners c') None (a :: l) None →
  wf c' (a :: l).
Proof.
  intros Hwf Hd Hsame Hfresh Htab Hdata Hhd Htl Hch.
  assert (Hkeq : keyOf (inners c') <$> l = keyOf (inners c) <$> l).
  { apply list_fmap_ext. intros i b Hb%list_elem_of_lookup_2.
    by apply same_keyOf, Hsame. }
  assert (Hreq : row (inners c') <$> l = row (inners c) <$> l).
  { apply list_fmap_ext. intros i b Hb%list_elem_of_lookup_2.
    unfold row. by rewrite (same_keyOf (inners c) (inners c')) by by apply Hsame. }
  split; try done.
  - rewrite fmap_cons, Hkeq. apply NoDup_cons. split; [done|apply Hwf].
  - rewrite Htab, (wf_table _ _ Hwf), fmap_cons, Hreq. done.
  - constructor; [done|].
    pose proof (wf_data _ _ Hwf) as Hdl.
    rewrite Forall_forall in Hdl |- *. intros b Hb.
    rewrite (same_dataOf c c') by auto. auto.
Qed.

Lemma remember_present fuel c a o :
  inners c !! a = Some o → is_Some (liveTable c !! instanceKey o) →
  cache.remember store fuel a c = Ok tt c.
Proof.
  intros Ho Hin. unfold cache.remember, bind, gets, readInner.
  rewrite Ho. by rewrite decide_True.
Qed.

Lemma remember_absent fuel c l a o :
  wf c l → inners c !! a = Some o → is_Some (dataOf c a) →
  liveTable c !! instanceKey o = None →
  length l + cacheSize c + 2 ≤ fuel →
  (a ∉ l) ∧
  (∃ c1 kept gone, swept store c c1 l kept gone
    ∧ ((∃ c', cache.remember store fuel a c = Ok tt c'
          ∧ cache.makeRoom store fuel c = Ok tt c1
          ∧ length kept ≤ cacheSize c
          ∧ liveTable c' = <[instanceKey o := a]> (liveTable c1)
          ∧ inserted c1 c' a kept)
       ∨ (cache.remember store fuel a c = Throw CacheOverflow c1
          ∧ cacheSize c < countInit c l))).
Proof.
  intros Hwf Ho Hdata Hnone Hfuel.
  assert (Hal : a ∉ l).
  { intros Hin. assert (liveTable c !! instanceKey o = Some a); [|congruence].
    apply (wf_table_lookup c l); [done|]. split; [done|].
    unfold keyOf. by rewrite Ho. }
  split; [done|].
  destruct (makeRoom_spec fuel c l Hwf Hfuel) as (c1 & kept & gone & Hsw & Hres).
  exists c1, kept, gone. split; [done|].
  unfold cache.remember, bind, gets, readInner, modify, updInner, ret.
  rewrite Ho, Hnone. rewrite decide_False by (by intros [? ?]).
  destruct Hres as [[Hmr Hlen]|[Hmr Hcnt]]; rewrite Hmr; [left|by right].
  pose proof (sw_wf _ _ _ _ _ _ Hsw) as Hwf1.
  pose proof (sw_frame _ _ _ _ _ _ Hsw a Hal) as Ha1. rewrite Ho in Ha1.
  assert (Hak : a ∉ kept).
  { intros Hin. apply Hal. rewrite (sw_perm _ _ _ _ _ _ Hsw). set_solver. }
  assert (Hnd : NoDup (keyOf (inners c) <$> l)) by apply Hwf.
  assert (Hfresh : instanceKey o ∉ keyOf (inners c1) <$> kept).
  { intros (b & Hkb & Hb)%list_elem_of_fmap.
    assert (liveTable c1 !! instanceKey o = Some b) as Hb1.
    { apply (wf_table_lookup c1 kept); [done|]. by split. }
    assert (b ∈ l) as Hbl by (rewrite (sw_perm _ _ _ _ _ _ Hsw); set_solver).
    assert (b ∉ gone) as Hbg.
    { pose proof (wf_NoDup _ _ Hwf) as Hnd'.
      rewrite (sw_perm _ _ _ _ _ _ Hsw) in Hnd'.
      apply NoDup_app in Hnd' as (_ & Hdisj & _). by apply Hdisj. }
    assert (liveTable c !! instanceKey o = Some b); [|congruence].
    apply (wf_table_lookup c l); [done|]. split; [done|].
    rewrite Hkb. symmetry. apply same_keyOf, (sw_kept _ _ _ _ _ _ Hsw), Hbg. }
  assert (Hda : is_Some (dataOf c1 a)).
  { rewrite (same_dataOf c c1); [done|apply Hsw|]. by rewrite Ha1, Ho. }
  pose proof (wf_head _ _ Hwf1) as Hhd. pose proof (wf_tail _ _ Hwf1) as Htl.
  pose proof (wf_chain _ _ Hwf1) as Hch.
  assert (Hkeya : ∀ h, h !! a = Some o → keyOf h a = instanceKey o).
  { intros h Hh. unfold keyOf. by rewrite Hh. }
  simpl. rewrite Hhd.
  destruct kept as [|hd m].
  - simpl in Htl. simpl. rewrite Htl. eexists. split; [reflexivity|].
    split; [done|]. split; [done|]. split; [done|]. split; simpl; try done.
    + eapply wf_grow; [exact Hwf1|..]; simpl; try done.
      * set_solver.
      * set_solver.
      * unfold keyOf. by rewrite !lookup_alter_eq, Ha1.
      * unfold dataOf in *. simpl. rewrite !lookup_alter_eq, Ha1 in *. done.
      * split; [|done]. eexists. by rewrite !lookup_alter_eq, Ha1.
    + intros b. by rewrite !unlinked_lookup_alter.
    + intros b Hb. rewrite !lookup_alter_ne; [done|set_solver..].
  - assert (Hhda : hd ≠ a) by set_solver.
    assert (Hhdm : hd ∉ m).
    { pose proof (wf_NoDup _ _ Hwf1) as Hnd1. by apply NoDup_cons in Hnd1 as []. }
    destruct (last (hd :: m)) as [x|] eqn:Hlast;
      [|by apply last_None in Hlast].
    simpl. rewrite Htl. eexists. split; [reflexivity|].
    split; [done|]. split; [done|]. split; [done|].
    assert (Hlk : alter (set_prev (Some a)) hd
                    (alter (set_next (Some hd)) a
                       (alter (set_prev None) a (inners c1))) !! a
                  = Some (set_next (Some hd) (set_prev None o))).
    { by rewrite lookup_alter_ne, !lookup_alter_eq, Ha1. }
    split; simpl; try done.
    + eapply wf_grow; [exact Hwf1|..]; simpl; try done.
      * intros b Hb. by rewrite !unlinked_lookup_alter.
      * unfold keyOf at 1. by rewrite Hlk.
      * unfold keyOf. by rewrite Hlk.
      * unfold dataOf in *. simpl. rewrite Hlk. simpl. by rewrite Ha1 in Hda.
      * by rewrite Htl, <-Hlast.
      * split; [eexists; by rewrite Hlk|].
        eapply chain_set_prev_hd; [done|].
        do 2 (eapply chain_alter_notin; [done|]). exact Hch.
    + intros b. by rewrite !unlinked_lookup_alter.
    + intros b Hb. rewrite !lookup_alter_ne; [done|set_solver..].
Qed.

(** *** [flush] *)

Lemma wf_agree c c' l :
  wf c l →
  lruHead c' = lruHead c → lruTail c' = lruTail c →
  liveTable c' = liveTable c →
  (∀ b, b ∈ l → inners c' !! b = inners c !! b) →
  (∀ b, b ∈ l → dataOf c' b = dataOf c b) →
  wf c' l.
Proof.
  intros Hwf Hhd Htl Htab Hin Hda.
  assert (Hkeq : keyOf (inners c') <$> l = keyOf (inners c) <$> l).
  { apply list_fmap_ext. intros i b Hb%list_elem_of_lookup_2.
    unfold keyOf. by rewrite Hin. }
  assert (Hreq : row (inners c') <$> l = row (inners c) <$> l).
  { apply list_fmap_ext. intros i b Hb%list_elem_of_lookup_2.
    unfold row, keyOf. by rewrite Hin. }
  split.
  - rewrite Hhd. apply Hwf.
  - rewrite Htl. apply Hwf.
  - eapply chain_frame; [exact Hin|apply Hwf].
  - rewrite Hkeq. apply Hwf.
  - rewrite Htab, Hreq. apply Hwf.
  - pose proof (wf_data _ _ Hwf) as Hdl.
    rewrite Forall_forall in Hdl |- *. intros b Hb. rewrite Hda by done. auto.
Qed.

Lemma wf_set_cacheSize c l n : wf c l → wf (set_cacheSize n c) l.
Proof. intros Hwf. by eapply wf_agree. Qed.

(** [flush] writes out every resident, unless one is being initialized. *)
Lemma flush_spec fuel c l :
  wf c l → length l + 2 ≤ fuel →
  ∃ c1 kept gone, swept store (set_cacheSize 0 c) c1 l kept gone
    ∧ ((cache.flush store fuel c = Ok tt (set_cacheSize (cacheSize c) c1)
        ∧ kept = [])
       ∨ (cache.flush store fuel c = Throw CacheOverflow c1
          ∧ 0 < countInit c l)).
Proof.
  intros Hwf Hfuel.
  destruct (makeRoom_spec fuel (set_cacheSize 0 c) l) as (c1 & kept & gone & Hsw & Hres).
  { by apply wf_set_cacheSize. }
  { simpl. lia. }
  exists c1, kept, gone. split; [done|].
  unfold cache.flush, bind, gets, modify.
  destruct Hres as [[-> Hlen]|[-> Hcnt]]; [left|right; by split].
  split; [done|]. simpl in Hlen. destruct kept; [done|simpl in Hlen; lia].
Qed.

(** *** [lookup] *)

Lemma fetched_agree c l k content b :
  wf c l → b ∈ l →
  inners (fetched k content c) !! b = inners c !! b
  ∧ dataOf (fetched k content c) b = dataOf c b.
Proof.
  intros Hwf Hb.
  assert (Hne : fresh (dom (inners c)) ≠ b).
  { intros <-. destruct (wf_allocated c l _ Hwf Hb) as [x Hx].
    pose proof (is_fresh (dom (inners c))) as Hfr.
    apply not_elem_of_dom in Hfr. congruence. }
  unfold fetched, dataOf. simpl. rewrite lookup_insert_ne by done.
  split; [done|].
  pose proof (wf_data _ _ Hwf) as Hdl.
  rewrite Forall_forall in Hdl. destruct (Hdl b Hb) as [x Hx].
  unfold dataOf in Hx.
  destruct (inners c !! b) as [o|]; [|done].
  destruct (rawData o) as [d|]; [|done].
  rewrite lookup_insert_ne; [done|]. intros <-.
  pose proof (is_fresh (dom (datas c))) as Hfr.
  apply not_elem_of_dom in Hfr. congruence.
Qed.

Lemma wf_fetched c l k content : wf c l → wf (fetched k content c) l.
Proof.
  intros Hwf. eapply wf_agree; [exact Hwf|done..| |];
    intros b Hb; by apply (fetched_agree c l).
Qed.

Lemma lookup_hit fuel c l k a :
  wf c l → liveTable c !! k = Some a →
  ∃ l1 l2 c', l = l1 ++ a :: l2
    ∧ cache.lookup fetch store fuel k c = Ok a c'
    ∧ cache.refresh a c = Ok tt c'
    ∧ wf c' (a :: l1 ++ l2) ∧ relinked c c'
    ∧ (∀ b, b ∉ l → inners c' !! b = inners c !! b).
Proof.
  intros Hwf Hk.
  apply (wf_table_lookup c l) in Hk as [Hin Hkey]; [|done].
  apply list_elem_of_split in Hin as (l1 & l2 & ->).
  destruct (refresh_spec c l1 a l2 Hwf) as (c' & Hr & Hwf' & Hrl & Hfr).
  exists l1, l2, c'. split; [done|].
  assert (Hk : liveTable c !! k = Some a).
  { apply (wf_table_lookup c (l1 ++ a :: l2)); [done|]. split; [set_solver|done]. }
  unfold cache.lookup, bind, gets. rewrite Hk. unfold bind. rewrite Hr. done.
Qed.

Lemma lookup_miss fuel c l k :
  wf c l → liveTable c !! k = None → length l + cacheSize c + 2 ≤ fuel →
  match fetch k (world c) with
  | inl e => cache.lookup fetch store fuel k c = Throw e c
  | inr content =>
      let a := fresh (dom (inners c)) in
      let c0 := fetched k content c in
      wf c0 l ∧ dataOf c0 a = Some content ∧ keyOf (inners c0) a = k ∧
      ∃ c1 kept gone, swept store c0 c1 l kept gone
        ∧ ((∃ c', cache.lookup fetch store fuel k c = Ok a c'
              ∧ cache.remember store fuel a c0 = Ok tt c'
              ∧ length kept ≤ cacheSize c
              ∧ liveTable c' = <[k := a]> (liveTable c1)
              ∧ inserted c1 c' a kept)
           ∨ (cache.lookup fetch store fuel k c = Throw CacheOverflow c1
              ∧ cacheSize c < countInit c l))
  end.
Proof.
  intros Hwf Hk Hfuel.
  assert (Heq : cache.lookup fetch store fuel k c =
    match fetch k (world c) with
    | inl e => Throw e c
    | inr content =>
        match cache.remember store fuel (fresh (dom (inners c)))
                (fetched k content c) with
        | Ok _ c' => Ok (fresh (dom (inners c))) c'
        | Throw e s => Throw e s
        | Fail f => Fail f
        end
    end).
  { unfold cache.lookup, bind, gets. rewrite Hk.
    by destruct (fetch k (world c)). }
  rewrite Heq. clear Heq.
  destruct (fetch k (world c)) as [e|content]; [done|].
  set (a := fresh (dom (inners c))). set (c0 := fetched k content c).
  assert (Hwf0 : wf c0 l).
  { by apply wf_fetched. }
  assert (Ha0 : inners c0 !! a = Some (mkInner k (Some (fresh (dom (datas c)))) None None None)).
  { unfold c0, fetched, a. simpl. by rewrite lookup_insert_eq. }
  assert (Hd0 : dataOf c0 a = Some content).
  { unfold dataOf. rewrite Ha0. simpl. by rewrite lookup_insert_eq. }
  split; [done|]. split; [done|]. split; [unfold keyOf; by rewrite Ha0|].
  destruct (remember_absent fuel c0 l a _ Hwf0 Ha0) as (Hal & c1 & kept & gone & Hsw & Hres).
  { by rewrite Hd0. }
  { done. }
  { done. }
  exists c1, kept, gone. split; [done|].
  assert (Hcnt : countInit c0 l = countInit c l).
  { apply count_ext. intros b Hb. unfold isInit, c0.
    by destruct (fetched_agree c l k content b Hwf Hb) as [_ ->]. }
  rewrite <-Hcnt.
  destruct Hres as [(c' & -> & Hmr & Hlen & Htab & Hins)|[-> ?]]; [left|by right].
  by exists c'.
Qed.

(** *** Main properties of the cache *)



(** C3.  With enough budget [lookup(k)] returns or throws.  When it
    returns, the inner self it returns has key [k], is registered under
    [k] in the live table and is the head of the LRU list; if [k] was in
    the live table it is the registered inner self, refreshed; otherwise
    it is a new object [{ instanceKey: k, rawData: fetch(k) }] on which
    [remember] was called.  It throws only on a miss, with the error of
    [fetch] or the overflow error of [makeRoom]. *)
Theorem lookup_returns_head fuel c l k :
  wf c l → length l + cacheSize c + 2 ≤ fuel →
  ((∃ a c', cache.lookup fetch store fuel k c = Ok a c')
   ∨ (∃ e c', cache.lookup fetch store fuel k c = Throw e c'
        ∧ liveTable c !! k = None
        ∧ (fetch k (world c) = inl e
           ∨ (e = CacheOverflow ∧ cacheSize c < countInit c l))))
  ∧ (∀ a c', cache.lookup fetch store fuel k c = Ok a c' →
       lruHead c' = Some a
       ∧ keyOf (inners c') a = k
       ∧ liveTable c' !! k = Some a
       ∧ match liveTable c !! k with
         | Some a0 =>
             a = a0 ∧ cache.refresh a0 c = Ok tt c'
             ∧ dataOf c' a = dataOf c a
         | None =>
             ∃ content d,
               fetch k (world c) = inr content
               ∧ inners c !! a = None
               ∧ inners (fetched k content c) !! a
                 = Some (mkInner k (Some d) None None None)
               ∧ datas (fetched k content c) !! d = Some content
               ∧ cache.remember store fuel a (fetched k content c) = Ok tt c'
               ∧ dataOf c' a = Some content
         end).
Proof.
  intros Hwf Hfuel.
  destruct (liveTable c !! k) as [a0|] eqn:Hk.
  - destruct (lookup_hit fuel c l k a0 Hwf Hk)
      as (l1 & l2 & c1 & -> & Hlk & Hr & Hwf1 & Hrl & _).
    split; [left; eauto|]. intros a c'. rewrite Hlk. intros [= <- <-].
    assert (Hkey : keyOf (inners c1) a0 = k).
    { rewrite (relinked_keyOf c c1) by done.
      by apply (wf_table_lookup c (l1 ++ a0 :: l2)) in Hk as [_ ?]. }
    split; [apply Hwf1|]. split; [done|]. split.
    + apply (wf_table_lookup c1 (a0 :: l1 ++ l2)); [done|]. split; [set_solver|done].
    + split; [done|]. split; [done|]. by apply relinked_dataOf.
  - pose proof (lookup_miss fuel c l k Hwf Hk Hfuel) as Hm.
    destruct (fetch k (world c)) as [e|content] eqn:Hf.
    { rewrite Hm. split; [right; eauto 10|]. done. }
    destruct Hm as (Hwf0 & Hd0 & Hk0 & c1 & kept & gone & Hsw & Hres).
    assert (Hfresh : inners c !! fresh (dom (inners c)) = None).
    { apply not_elem_of_dom, is_fresh. }
    destruct Hres as [(c' & Hlk & Hrem & Hlen & Htab & Hins)|[Hlk Hcnt]].
    + split; [left; eauto|]. intros a c''. rewrite Hlk. intros [= <- <-].
      pose proof (ins_wf _ _ _ _ Hins) as Hwf'.
      assert (Hsame : unlinked <$> inners c' !! fresh (dom (inners c))
                      = unlinked <$> inners (fetched k content c) !! fresh (dom (inners c))).
      { rewrite (ins_inners _ _ _ _ Hins).
        rewrite (sw_frame _ _ _ _ _ _ Hsw); [done|].
        intros Hin. destruct (wf_allocated c l _ Hwf Hin). congruence. }
      assert (Hkey : keyOf (inners c') (fresh (dom (inners c))) = k).
      { by rewrite (same_keyOf _ _ _ Hsame). }
      split; [apply Hwf'|]. split; [done|]. split.
      * apply (wf_table_lookup c' _ _ _ Hwf'). split; [set_solver|done].
      * exists content, (fresh (dom (datas c))).
        split; [done|]. split; [done|].
        split; [unfold fetched; simpl; by rewrite lookup_insert_eq|].
        split; [unfold fetched; simpl; by rewrite lookup_insert_eq|].
        split; [done|].
        rewrite <-Hd0. apply same_dataOf; [|done].
        rewrite (ins_datas _ _ _ _ Hins). apply Hsw.
    + split; [right; eauto 10|]. intros a c'. by rewrite Hlk.
Qed.

(** C4.  When no resident is being initialized, [flush] returns with
    an empty live table and LRU list and with [size] as it was; every
    resident was passed to [store] once, with its instance key and the
    raw data it had, and its [rawData] is now [null]. *)
Theorem flush_stores_all fuel c l :
  wf c l → length l + 2 ≤ fuel →
  (∀ a, a ∈ l → isInit c a = false) →
  ∃ c' order,
    cache.flush store fuel c = Ok tt c'
    ∧ liveTable c' = ∅ ∧ lruHead c' = None ∧ lruTail c' = None
    ∧ cacheSize c' = cacheSize c
    ∧ order ≡ₚ l
    ∧ stored c' = stored c ++ omap (entry c) order
    ∧ world c' = foldl (λ w kd, store kd.1 kd.2 w) (world c)
                   (omap (entry c) order)
    ∧ (∀ a, a ∈ l →
         ∃ obj o', dataOf c a = Some obj
           ∧ (keyOf (inners c) a, obj) ∈ omap (entry c) order
           ∧ inners c' !! a = Some o' ∧ rawData o' = None).
Proof.
  intros Hwf Hfuel Hnoinit.
  destruct (flush_spec fuel c l Hwf Hfuel) as (c1 & kept & gone & Hsw & Hres).
  destruct Hres as [[Hfl ->]|[_ Hcnt]]; cycle 1.
  { exfalso. unfold countInit in Hcnt.
    rewrite count_none in Hcnt; [lia|]. by apply Forall_forall. }
  pose proof (sw_wf _ _ _ _ _ _ Hsw) as Hwf1.
  pose proof (sw_perm _ _ _ _ _ _ Hsw) as Hperm. simpl in Hperm.
  exists (set_cacheSize (cacheSize c) c1), gone.
  split; [done|]. simpl.
  split; [by rewrite (wf_table _ _ Hwf1)|].
  split; [apply Hwf1|]. split; [apply Hwf1|]. split; [done|].
  split; [done|]. split; [apply Hsw|]. split; [apply Hsw|].
  intros a Ha. rewrite Hperm in Ha.
  pose proof (sw_written _ _ _ _ _ _ Hsw) as Hw.
  rewrite Forall_forall in Hw. destruct (Hw a Ha) as [obj Hobj].
  change (dataOf (set_cacheSize 0 c) a) with (dataOf c a) in Hobj.
  pose proof (sw_gone _ _ _ _ _ _ Hsw a Ha) as Hg. simpl in Hg.
  assert (Hent : entry c a = Some (keyOf (inners c) a, obj)).
  { unfold entry. by rewrite Hobj. }
  unfold dataOf in Hobj.
  destruct (inners c !! a) as [o|] eqn:Ho; [|done].
  destruct (inners c1 !! a) as [o'|] eqn:Ho'; [|done].
  exists obj, o'. split; [unfold dataOf; by rewrite Ho|].
  split; [apply list_elem_of_omap; eauto|]. split; [done|].
  simpl in Hg. by injection Hg.
Qed.

(** *** Errors of the cache operations *)

Section CacheThrows.
Context (P : Error → Prop).
Context (HP_overflow : P CacheOverflow) (HP_type : P TypeError).
Context (HP_fetch : ∀ k w e, fetch k w = inl e → P e).

Local Ltac throws_step :=
  first
    [ apply throws_ret | apply throws_gets | apply throws_modify
    | apply throws_fail | by apply throws_throw
    | apply throws_bind; [|intros ?] ].

Lemma throws_readInner a : throws P (readInner a : M Cache _).
Proof. intros s e s'. unfold readInner. by destruct (inners s !! a). Qed.

Lemma throws_readData d : throws P (readData d : M Cache _).
Proof. intros s e s'. unfold readData. by destruct (datas s !! d). Qed.

Lemma throws_allocInner o : throws P (allocInner o : M Cache _).
Proof. by intros s e s'. Qed.

Lemma throws_allocData o : throws P (allocData o : M Cache _).
Proof. by intros s e s'. Qed.

Lemma throws_refresh a : throws P (cache.refresh a : M Cache _).
Proof.
  unfold cache.refresh, updInner.
  repeat first [apply throws_readInner
               | throws_step
               | case_decide
               | case_match].
Qed.

Lemma throws_tailInitializing : throws P (cache.tailInitializing : M Cache _).
Proof.
  unfold cache.tailInitializing.
  repeat first [apply throws_readInner
               | apply throws_readData
               | throws_step
               | case_match].
Qed.

Lemma throws_refreshLoop fuel k : throws P (cache.refreshLoop fuel k : M Cache _).
Proof.
  revert k. induction fuel as [|fuel IH]; intros k; simpl; [apply throws_fail|].
  repeat first [apply throws_tailInitializing
               | apply throws_refresh
               | apply IH
               | throws_step
               | case_decide
               | case_match].
Qed.

Lemma throws_evictTail : throws P (cache.evictTail store).
Proof.
  unfold cache.evictTail, updInner, cache.callStore.
  repeat first [apply throws_readInner
               | apply throws_readData
               | throws_step
               | case_match].
Qed.

Lemma throws_makeRoom fuel : throws P (cache.makeRoom store fuel).
Proof.
  induction fuel as [|fuel IH]; simpl; [apply throws_fail|].
  repeat first [apply throws_tailInitializing
               | apply throws_refreshLoop
               | apply throws_evictTail
               | apply IH
               | throws_step
               | case_decide
               | case_match].
Qed.

Lemma throws_flush fuel : throws P (cache.flush store fuel).
Proof.
  unfold cache.flush. repeat first [apply throws_makeRoom
               | throws_step].
Qed.

Lemma throws_remember fuel a : throws P (cache.remember store fuel a).
Proof.
  unfold cache.remember, updInner.
  repeat first [apply throws_readInner
               | apply throws_makeRoom
               | throws_step
               | case_decide
               | case_match].
Qed.

Lemma throws_lookup fuel k : throws P (cache.lookup fetch store fuel k).
Proof.
  unfold cache.lookup.
  repeat first [apply throws_refresh
               | apply throws_remember
               | apply throws_allocData
               | apply throws_allocInner
               | throws_step
               | case_match].
  apply throws_throw. eauto.
Qed.

End CacheThrows.

(** *** States a client can reach *)

Lemma wf_makeCache n (w : W) :
  wf (makeCache (Value:=Value) (Ground:=Ground) n w) [].
Proof. split; try done. constructor. Qed.

Lemma swept_length c c' l kept gone :
  swept store c c' l kept gone → length l = length kept + length gone.
Proof.
  intros Hsw. rewrite (Permutation_length (sw_perm _ _ _ _ _ _ Hsw)).
  apply length_app.
Qed.

Lemma makeRoom_final fuel c l :
  wf c l → length l + cacheSize c + 2 ≤ fuel →
  ∃ c' l',
    (cache.makeRoom store fuel c = Ok tt c'
     ∨ cache.makeRoom store fuel c = Throw CacheOverflow c')
    ∧ wf c' l' ∧ cacheSize c' = cacheSize c ∧ length l' ≤ length l.
Proof.
  intros Hwf Hfuel.
  destruct (makeRoom_spec fuel c l Hwf Hfuel) as (c' & kept & gone & Hsw & Hres).
  exists c', kept. split; [destruct Hres as [[? _]|[? _]]; auto|].
  split; [apply Hsw|]. split; [apply Hsw|].
  rewrite (swept_length _ _ _ _ _ Hsw). lia.
Qed.

Lemma lookup_final fuel c l k :
  wf c l → length l + cacheSize c + 2 ≤ fuel →
  ∃ c' l',
    ((∃ a, cache.lookup fetch store fuel k c = Ok a c')
     ∨ (∃ e, cache.lookup fetch store fuel k c = Throw e c'
          ∧ (e = CacheOverflow ∨ fetch k (world c) = inl e)))
    ∧ wf c' l' ∧ cacheSize c' = cacheSize c
    ∧ (length l' ≤ length l ∨ length l' ≤ cacheSize c + 1).
Proof.
  intros Hwf Hfuel. destruct (liveTable c !! k) as [a|] eqn:Hk.
  - destruct (lookup_hit fuel c l k a Hwf Hk)
      as (l1 & l2 & c' & -> & Hlk & _ & Hwf' & Hrl & _).
    exists c', (a :: l1 ++ l2). split; [left; eauto|].
    split; [done|]. split; [apply Hrl|]. left.
    simpl. rewrite !length_app. simpl. lia.
  - pose proof (lookup_miss fuel c l k Hwf Hk Hfuel) as Hm.
    destruct (fetch k (world c)) as [e|content] eqn:Hf.
    { exists c, l. split; [right; eauto|]. split; [done|]. split; [done|]. by left. }
    destruct Hm as (_ & _ & _ & c1 & kept & gone & Hsw & Hres).
    destruct Hres as [(c' & Hlk & _ & Hlen & _ & Hins)|[Hlk _]].
    + exists c', (fresh (dom (inners c)) :: kept). split; [left; eauto|].
      split; [apply Hins|]. split.
      * rewrite (ins_size _ _ _ _ Hins). apply Hsw.
      * right. simpl.
        change (cacheSize (fetched k content c)) with (cacheSize c) in Hlen. lia.
    + exists c1, kept. split; [right; eauto|]. split; [apply Hsw|].
      split; [apply Hsw|]. left. rewrite (swept_length _ _ _ _ _ Hsw). lia.
Qed.

Lemma flush_final fuel c l :
  wf c l → length l + 2 ≤ fuel →
  ∃ c' l',
    ((cache.flush store fuel c = Ok tt c' ∧ l' = []
      ∧ cacheSize c' = cacheSize c ∧ countInit c l = 0)
     ∨ (cache.flush store fuel c = Throw CacheOverflow c'
        ∧ cacheSize c' = 0 ∧ 0 < countInit c l))
    ∧ wf c' l' ∧ length l' ≤ length l.
Proof.
  intros Hwf Hfuel.
  destruct (flush_spec fuel c l Hwf Hfuel) as (c1 & kept & gone & Hsw & Hres).
  pose proof (swept_length _ _ _ _ _ Hsw) as Hlen.
  pose proof (swept_countInit _ _ _ _ _ (wf_set_cacheSize c l 0 Hwf) Hsw) as Hcnt.
  change (countInit (set_cacheSize 0 c) l) with (countInit c l) in Hcnt.
  destruct Hres as [[Hfl ->]|[Hfl Hpos]].
  - exists (set_cacheSize (cacheSize c) c1), []. split.
    + left. split; [done|]. split; [done|]. split; [done|]. by rewrite <-Hcnt.
    + split; [apply wf_set_cacheSize, Hsw|]. simpl. lia.
  - exists c1, kept. split.
    + right. split; [done|]. split; [|done]. by rewrite (sw_size _ _ _ _ _ _ Hsw).
    + split; [apply Hsw|]. lia.
Qed.

Lemma call_shape n fuel op c :
  2 * n + 3 ≤ fuel →
  (∃ l, wf c l ∧ length l ≤ n + 1) ∧ cacheSize c ≤ n →
  (∃ l, wf (call fetch store fuel op c) l ∧ length l ≤ n + 1)
  ∧ cacheSize (call fetch store fuel op c) ≤ n.
Proof.
  intros Hfuel [(l & Hwf & Hlen) Hsize]. destruct op as [k| |]; simpl; unfold run.
  - destruct (lookup_final fuel c l k Hwf) as (c' & l' & Hres & Hwf' & Hs & Hl);
      [lia|].
    assert (Hc' : match cache.lookup fetch store fuel k c with
                  | Ok _ s' | Throw _ s' => s' | Fail _ => c end = c').
    { destruct Hres as [[a ->]|(e & -> & _)]; done. }
    rewrite Hc'. split; [exists l'; split; [done|lia]|lia].
  - destruct (flush_final fuel c l Hwf) as (c' & l' & Hres & Hwf' & Hl); [lia|].
    assert (Hc' : match cache.flush store fuel c with
                  | Ok _ s' | Throw _ s' => s' | Fail _ => c end = c').
    { destruct Hres as [(-> & _)|(-> & _)]; done. }
    rewrite Hc'. split; [exists l'; split; [done|lia]|].
    destruct Hres as [(_ & _ & -> & _)|(_ & -> & _)]; lia.
  - destruct (makeRoom_final fuel c l Hwf) as (c' & l' & Hres & Hwf' & Hs & Hl);
      [lia|].
    assert (Hc' : match cache.makeRoom store fuel c with
                  | Ok _ s' | Throw _ s' => s' | Fail _ => c end = c').
    { destruct Hres as [->| ->]; done. }
    rewrite Hc'. split; [exists l'; split; [done|lia]|lia].
Qed.

Lemma calls_shape n fuel ops c :
  2 * n + 3 ≤ fuel →
  (∃ l, wf c l ∧ length l ≤ n + 1) ∧ cacheSize c ≤ n →
  (∃ l, wf (calls fetch store fuel ops c) l ∧ length l ≤ n + 1)
  ∧ cacheSize (calls fetch store fuel ops c) ≤ n.
Proof.
  intros Hfuel. revert c. induction ops as [|op ops IH]; intros c Hc; [done|].
  simpl. apply IH. by apply call_shape.
Qed.

(** X1.  Whatever sequence of [lookup], [flush] and [makeRoom] calls a
    client makes on a new cache of size [n], also when some of them
    throw, the cache stays well formed: the LRU list is a doubly linked
    list of distinct keys from [lruHead] to [lruTail], the live table
    holds exactly its members, and each of them has raw data.  At most
    [n + 1] inner selves are resident, and every further call returns or
    throws an error of [fetch] or the overflow error: no [undefined] is
    dereferenced and no loop runs on. *)
Theorem cache_calls_keep_shape n (w : W) fuel ops :
  2 * n + 3 ≤ fuel →
  let c := calls fetch store fuel ops (makeCache n w) in
  (∃ l, wf c l ∧ length l ≤ n + 1)
  ∧ cacheSize c ≤ n
  ∧ (∀ k, (∃ a c', cache.lookup fetch store fuel k c = Ok a c')
          ∨ (∃ e c', cache.lookup fetch store fuel k c = Throw e c'
               ∧ (e = CacheOverflow ∨ fetch k (world c) = inl e)))
  ∧ ((∃ c', cache.flush store fuel c = Ok tt c')
     ∨ (∃ c', cache.flush store fuel c = Throw CacheOverflow c'))
  ∧ ((∃ c', cache.makeRoom store fuel c = Ok tt c')
     ∨ (∃ c', cache.makeRoom store fuel c = Throw CacheOverflow c')).
Proof.
  intros Hfuel c.
  destruct (calls_shape n fuel ops (makeCache n w) Hfuel) as [(l & Hwf & Hlen) Hsize].
  { split; [|done]. exists []. split; [apply wf_makeCache|simpl; lia]. }
  fold c in Hwf, Hsize.
  split; [by exists l|]. split; [done|]. split; [|split].
  - intros k.
    destruct (lookup_final fuel c l k Hwf) as (c' & l' & Hres & _); [lia|].
    destruct Hres as [[a Ha]|(e & He & Hwhy)]; [left|right]; eauto.
  - destruct (flush_final fuel c l Hwf) as (c' & l' & Hres & _); [lia|].
    destruct Hres as [(Hfl & _)|(Hfl & _)]; [left|right]; eauto.
  - destruct (makeRoom_final fuel c l Hwf) as (c' & l' & Hres & _); [lia|].
    destruct Hres as [Hmr|Hmr]; [left|right]; eauto.
Qed.

(** *** Least recently used first *)

Lemma chain_unique h p l l' :
  chain h p l None → chain h p l' None → head l = head l' → l = l'.
Proof.
  revert p l'. induction l as [|a l IH]; intros p [|a' l']; simpl; try done.
  intros [(o & Ho & _ & Hn) Hc] [(o' & Ho' & _ & Hn') Hc'] [= <-].
  rewrite Ho in Ho'. injection Ho' as <-.
  f_equal. apply (IH (Some a)); [done|done|].
  rewrite Hn in Hn'. by destruct l, l'.
Qed.

(** The residents of a state are determined by the state. *)
Lemma wf_unique c l l' : wf c l → wf c l' → l = l'.
Proof.
  intros Hwf Hwf'. eapply chain_unique; [apply Hwf|apply Hwf'|].
  by rewrite <-(wf_head _ _ Hwf), <-(wf_head _ _ Hwf').
Qed.

Lemma makeRoom_lru fuel c l :
  wf c l → Forall (λ a, isInit c a = false) l → length l < fuel →
  ∃ c', cache.makeRoom store fuel c = Ok tt c'
    ∧ swept store c c' l (take (cacheSize c) l) (reverse (drop (cacheSize c) l)).
Proof.
  revert fuel c. induction l as [|t l0 IH] using rev_ind; intros fuel c Hwf Hno Hfuel.
  - destruct fuel as [|fuel]; [simpl in Hfuel; lia|].
    exists c. rewrite makeRoom_unfold, decide_False.
    + split; [done|]. rewrite take_nil, drop_nil. simpl.
      by apply swept_relinked; [|apply relinked_refl| |].
    + rewrite (wf_tail _ _ Hwf). simpl. by intros [_ [? ?]].
  - destruct fuel as [|fuel]; [simpl in Hfuel; lia|].
    rewrite length_app in Hfuel. simpl in Hfuel.
    destruct (decide (cacheSize c < length (l0 ++ [t]))) as [Hbig|Hsmall].
    + rewrite length_app in Hbig. simpl in Hbig.
      apply Forall_app in Hno as [Hno0 Ht%Forall_inv].
      destruct (evictTail_spec c l0 t Hwf Ht) as (c2 & Hev & Hsw).
      pose proof (wf_NoDup _ _ Hwf) as Hnd.
      apply NoDup_app in Hnd as (_ & Hdisj & _).
      destruct (IH fuel c2) as (c' & Hmr & Hsw'); [apply Hsw| |lia|].
      { apply Forall_forall. intros b Hb.
        rewrite Forall_forall in Hno0. rewrite <-(Hno0 b Hb).
        apply same_isInit; [apply Hsw|]. apply (sw_kept _ _ _ _ _ _ Hsw).
        intros ->%list_elem_of_singleton. apply (Hdisj t Hb). set_solver. }
      exists c'. split.
      * rewrite makeRoom_unfold, decide_True.
        -- rewrite (tailInitializing_spec c l0 t Hwf), Ht. unfold ret.
           by rewrite Hev.
        -- rewrite (wf_size _ _ Hwf), (wf_tail _ _ Hwf), last_snoc, length_app.
           simpl. split; [lia|done].
      * rewrite (sw_size _ _ _ _ _ _ Hsw) in Hsw'.
        rewrite take_app_le, drop_app_le, reverse_snoc by lia.
        apply (swept_trans c c2 c' (l0 ++ [t]) l0 [t] _ _ Hwf Hsw Hsw').
    + exists c. rewrite makeRoom_unfold, decide_False.
      * split; [done|]. rewrite take_ge, drop_ge by lia. simpl.
        by apply swept_relinked; [|apply relinked_refl| |].
      * rewrite (wf_size _ _ Hwf). intros [? _]. lia.
Qed.

(** X2.  When no resident is being initialized, [makeRoom] keeps the
    [size] most recently used inner selves, in their order, and evicts
    the others from the least recently used on: they are passed to
    [store] in this order, each with its key and raw data, and lose
    their raw data. *)
Theorem makeRoom_evicts_least_recent fuel c l :
  wf c l → Forall (λ a, isInit c a = false) l → length l < fuel →
  ∃ c', cache.makeRoom store fuel c = Ok tt c'
    ∧ wf c' (take (cacheSize c) l)
    ∧ stored c' = stored c ++ omap (entry c) (reverse (drop (cacheSize c) l))
    ∧ world c' = foldl (λ w kd, store kd.1 kd.2 w) (world c)
                   (omap (entry c) (reverse (drop (cacheSize c) l)))
    ∧ (∀ a, a ∈ drop (cacheSize c) l →
         is_Some (entry c a)
         ∧ liveTable c' !! keyOf (inners c) a = None
         ∧ ∃ o', inners c' !! a = Some o' ∧ rawData o' = None).
Proof.
  intros Hwf Hno Hfuel.
  destruct (makeRoom_lru fuel c l Hwf Hno Hfuel) as (c' & Hmr & Hsw).
  exists c'. split; [done|]. split; [apply Hsw|]. split; [apply Hsw|].
  split; [apply Hsw|]. intros a Ha.
  assert (Hgone : a ∈ reverse (drop (cacheSize c) l)) by by apply elem_of_reverse.
  pose proof (sw_written _ _ _ _ _ _ Hsw) as Hw. rewrite Forall_forall in Hw.
  destruct (Hw a Hgone) as [obj Hobj]. split; [|split].
  - unfold entry. rewrite Hobj. eauto.
  - destruct (liveTable c' !! keyOf (inners c) a) as [b|] eqn:Hb; [|done].
    apply (wf_table_lookup c' _ _ _ (sw_wf _ _ _ _ _ _ Hsw)) in Hb as [Hbk Hkey].
    assert (Hbl : b ∈ l).
    { rewrite <-(take_drop (cacheSize c) l). set_solver. }
    assert (Hbg : b ∉ reverse (drop (cacheSize c) l)).
    { pose proof (wf_NoDup _ _ Hwf) as Hnd.
      rewrite <-(take_drop (cacheSize c) l) in Hnd.
      apply NoDup_app in Hnd as (_ & Hdisj & _).
      rewrite elem_of_reverse. by apply Hdisj. }
    rewrite (same_keyOf _ _ _ (sw_kept _ _ _ _ _ _ Hsw b Hbg)) in Hkey.
    assert (b = a) as ->.
    { pose proof (wf_keys _ _ Hwf) as Hk.
      assert (Hal : a ∈ l).
      { rewrite <-(take_drop (cacheSize c) l). set_solver. }
      apply list_elem_of_lookup in Hbl as [i Hi].
      apply list_elem_of_lookup in Hal as [j Hj].
      assert (i = j) as ->.
      { eapply NoDup_lookup; [exact Hk| |]; rewrite list_lookup_fmap.
        - by rewrite Hi.
        - rewrite Hj. simpl. by rewrite Hkey. }
      congruence. }
    by destruct Hbg.
  - pose proof (sw_gone _ _ _ _ _ _ Hsw a Hgone) as Hg.
    unfold dataOf in Hobj.
    destruct (inners c !! a) as [o|] eqn:Ho; [|done].
    destruct (inners c' !! a) as [o'|] eqn:Ho'; [|done].
    exists o'. split; [done|]. simpl in Hg. by injection Hg.
Qed.

Lemma fetched_entry c l k content b :
  wf c l → b ∈ l →
  entry (fetched k content c) b = entry c b
  ∧ isInit (fetched k content c) b = isInit c b.
Proof.
  intros Hwf Hb. destruct (fetched_agree c l k content b Hwf Hb) as [Hi Hd].
  unfold entry, isInit, keyOf. by rewrite Hi, Hd.
Qed.

(** X3.  When no resident is being initialized, a [lookup] that misses
    and whose [fetch] returns leaves the new inner self at the head,
    followed by the [size] most recently used residents in their order;
    the others were written out with [store], least recently used
    first. *)
Theorem lookup_miss_keeps_most_recent fuel c l k content :
  wf c l → Forall (λ a, isInit c a = false) l →
  liveTable c !! k = None → fetch k (world c) = inr content →
  length l + cacheSize c + 2 ≤ fuel →
  ∃ c', cache.lookup fetch store fuel k c = Ok (fresh (dom (inners c))) c'
    ∧ wf c' (fresh (dom (inners c)) :: take (cacheSize c) l)
    ∧ dataOf c' (fresh (dom (inners c))) = Some content
    ∧ stored c' = stored c ++ omap (entry c) (reverse (drop (cacheSize c) l)).
Proof.
  intros Hwf Hno Hk Hf Hfuel.
  pose proof (lookup_miss fuel c l k Hwf Hk Hfuel) as Hm. rewrite Hf in Hm.
  destruct Hm as (Hwf0 & Hd0 & Hk0 & c1 & kept & gone & Hsw & Hres).
  set (a := fresh (dom (inners c))) in *.
  set (c0 := fetched k content c) in *.
  assert (Hno0 : Forall (λ b, isInit c0 b = false) l).
  { apply Forall_forall. intros b Hb. rewrite Forall_forall in Hno.
    rewrite <-(Hno b Hb). by apply (fetched_entry c l). }
  destruct Hres as [(c' & Hlk & Hrem & _)|[_ Hcnt]]; cycle 1.
  { exfalso. unfold countInit in Hcnt. rewrite count_none in Hcnt; [lia|done]. }
  destruct (makeRoom_lru fuel c0 l Hwf0 Hno0) as (c2 & Hmr & Hsw2); [lia|].
  assert (Ha0 : inners c0 !! a = Some (mkInner k (Some (fresh (dom (datas c)))) None None None)).
  { unfold c0, fetched. simpl. by rewrite lookup_insert_eq. }
  destruct (remember_absent fuel c0 l a _ Hwf0 Ha0) as (_ & c3 & kept3 & gone3 & Hsw3 & Hres3).
  { by rewrite Hd0. }
  { done. }
  { done. }
  destruct Hres3 as [(c'' & Hrem' & Hmr' & _ & _ & Hins)|[Hrem' _]];
    rewrite Hrem in Hrem'; [|done].
  injection Hrem' as <-. rewrite Hmr in Hmr'. injection Hmr' as <-.
  pose proof (wf_unique _ _ _ (sw_wf _ _ _ _ _ _ Hsw3) (sw_wf _ _ _ _ _ _ Hsw2)) as ->.
  exists c'. split; [done|]. split; [apply Hins|]. split.
  - rewrite <-Hd0. apply same_dataOf.
    + rewrite (ins_datas _ _ _ _ Hins). apply Hsw2.
    + rewrite (ins_inners _ _ _ _ Hins).
      rewrite (sw_frame _ _ _ _ _ _ Hsw2); [done|].
      intros Hin. destruct (wf_allocated c l _ Hwf Hin) as [o Ho].
      pose proof (is_fresh (dom (inners c))) as Hfr. apply Hfr.
      apply elem_of_dom. by exists o.
  - rewrite (ins_stored _ _ _ _ Hins), (sw_stored _ _ _ _ _ _ Hsw2).
    change (stored c0) with (stored c). f_equal.
    apply omap_ext_in. intros b Hb. apply (fetched_entry c l); [done|].
    apply elem_of_reverse in Hb. rewrite <-(take_drop (cacheSize c) l). set_solver.
Qed.

Lemma count_pos f l a : a ∈ l → f a = true → 0 < count f l.
Proof.
  induction l as [|b l IH]; [set_solver|]. simpl.
  intros [->|Hin]%elem_of_cons Hf; [rewrite Hf; lia|].
  specialize (IH Hin Hf). lia.
Qed.

(** X4.  [flush] restores [size] only when [makeRoom] returns.  When a
    resident is being initialized, [flush] throws the overflow error
    and leaves the cache with [size] 0; the residents being initialized
    stay in the live table with their raw data. *)
Theorem flush_overflow_leaves_size_zero fuel c l a :
  wf c l → a ∈ l → isInit c a = true → length l + 2 ≤ fuel →
  ∃ c', cache.flush store fuel c = Throw CacheOverflow c'
    ∧ cacheSize c' = 0
    ∧ (∀ b, b ∈ l → isInit c b = true →
         liveTable c' !! keyOf (inners c) b = Some b
         ∧ dataOf c' b = dataOf c b).
Proof.
  intros Hwf Ha Hinit Hfuel.
  destruct (flush_spec fuel c l Hwf Hfuel) as (c1 & kept & gone & Hsw & Hres).
  pose proof (count_pos (isInit c) l a Ha Hinit) as Hpos.
  destruct Hres as [[_ ->]|[Hfl _]].
  { exfalso.
    pose proof (swept_countInit _ _ _ _ _ (wf_set_cacheSize c l 0 Hwf) Hsw) as Hcnt.
    change (countInit (set_cacheSize 0 c) l) with (countInit c l) in Hcnt.
    unfold countInit in Hcnt at 1. simpl in Hcnt. unfold countInit in Hcnt. lia. }
  exists c1. split; [done|]. split; [by rewrite (sw_size _ _ _ _ _ _ Hsw)|].
  intros b Hb Hbi.
  assert (Hbg : b ∉ gone).
  { intros Hin. pose proof (sw_noinit _ _ _ _ _ _ Hsw) as Hn.
    rewrite Forall_forall in Hn. specialize (Hn b Hin).
    change (isInit (set_cacheSize 0 c) b) with (isInit c b) in Hn. congruence. }
  assert (Hbk : b ∈ kept).
  { rewrite (sw_perm _ _ _ _ _ _ Hsw) in Hb. set_solver. }
  pose proof (sw_kept _ _ _ _ _ _ Hsw b Hbg) as Hsame. simpl in Hsame. split.
  - apply (wf_table_lookup c1 kept); [apply Hsw|]. split; [done|].
    by apply same_keyOf.
  - apply (same_dataOf (set_cacheSize 0 c) c1); [apply Hsw|done].
Qed.

End CacheLemmas.


(** ** Hits *)

Section CacheHits.
Context {Value Ground W : Type}.
Context (fetch fetch' : string → W → Error + DataObj Value Ground).
Context (store store' : string → DataObj Value Ground → W → W).

(** X5.  A [lookup] of a resident key returns the registered inner self
    and moves it to the head of the LRU list, the other residents
    keeping their order.  It calls neither [fetch] nor [store]: the
    outcome is the same whatever the two hooks are, and the live table,
    the state objects and the storage are as before. *)
Theorem lookup_hit_needs_no_storage fuel (c : Cache Value Ground W) l k a :
  wf c l → liveTable c !! k = Some a →
  ∃ l1 l2 c', l = l1 ++ a :: l2
    ∧ cache.lookup fetch store fuel k c = Ok a c'
    ∧ cache.lookup fetch' store' fuel k c = Ok a c'
    ∧ wf c' (a :: l1 ++ l2)
    ∧ liveTable c' = liveTable c ∧ datas c' = datas c
    ∧ stored c' = stored c ∧ world c' = world c
    ∧ cacheSize c' = cacheSize c
    ∧ ∀ b, dataOf c' b = dataOf c b.
Proof.
  intros Hwf Hk.
  destruct (lookup_hit fetch store fuel c l k a Hwf Hk)
    as (l1 & l2 & c' & Hl & Hlk & Hr & Hwf' & Hrl & _).
  destruct (lookup_hit fetch' store' fuel c l k a Hwf Hk)
    as (_ & _ & c'' & _ & Hlk' & Hr' & _).
  rewrite Hr in Hr'. injection Hr' as <-.
  exists l1, l2, c'. repeat (split; [first [done|apply Hrl]|]).
  intros b. by apply relinked_dataOf.
Qed.

End CacheHits.

(** ** Lemmas on the manager *)

Section VomLemmas.
Context {Value Ground : Type}.
Local Abbreviation Slot := (Slot Value Ground).
Local Abbreviation DataObj := (DataObj Value Ground).
Local Abbreviation World := (World Value).
Local Abbreviation State := (Cache Value Ground World).
Context (co : Collaborators Value Ground).
Implicit Types (st : State) (l : list addr).

(** *** Errors of the manager *)

Section VomThrows.
Context (P : Error → Prop).
Context (HP_overflow : P CacheOverflow) (HP_type : P TypeError).
Context (HP_syntax : P SyntaxError) (HP_init : P StillInitializing).

Local Ltac throws_step :=
  first
    [ apply throws_ret | apply throws_gets | apply throws_modify
    | apply throws_fail | by apply throws_throw
    | apply throws_bind; [|intros ?] ].

Lemma fetch_error k (w : World) e : vom.fetch co k w = inl e → e = SyntaxError.
Proof.
  unfold vom.fetch. destruct (vatstoreGet k w); [|by intros [= <-]].
  destruct (JSON_parseData co s); [done|by intros [= <-]].
Qed.

Lemma throws_vom_lookup fuel k :
  throws P (cache.lookup (vom.fetch co) (vom.store co) fuel k).
Proof.
  apply throws_lookup; try done. by intros k' w e ->%fetch_error.
Qed.

Lemma throws_envInnerSelf env : throws P (vom.envInnerSelf env : M State _).
Proof.
  intros s e s'. unfold vom.envInnerSelf.
  by destruct (environments (world s) !! env).
Qed.

Lemma throws_forEach {A} (f : A → M State unit) (xs : list A) :
  (∀ x, throws P (f x)) → throws P (vom.forEach f xs).
Proof.
  intros Hf. induction xs as [|x xs IH]; simpl; [apply throws_ret|].
  apply throws_bind; [apply Hf|by intros _].
Qed.

Lemma throws_defineAccessor env target prop :
  throws P (vom.defineAccessor env target prop : M State _).
Proof.
  unfold vom.defineAccessor, updData.
  repeat first [apply throws_readData | throws_step | case_match].
Qed.

Lemma throws_wrapData env target :
  throws P (vom.wrapData_ env target : M State _).
Proof.
  unfold vom.wrapData_, updData, updInner.
  repeat first [apply throws_readData | apply throws_readInner
               | apply throws_envInnerSelf
               | apply throws_forEach; intros ?; apply throws_defineAccessor
               | throws_step | case_match].
Qed.

Lemma throws_instanceMaker kind state :
  throws P (vom.instanceMaker kind state : M State _).
Proof. by intros s e s'. Qed.

Lemma throws_makeRepresentative fuel kind a b :
  throws P (vom.makeRepresentative co fuel kind a b).
Proof.
  unfold vom.makeRepresentative, vom.allocEnv, vom.updRep, vom.modifyW, updInner.
  apply throws_bind; [by intros s e s'|intros env].
  apply throws_bind.
  { destruct b.
    - repeat first [apply throws_readInner | apply throws_instanceMaker
                   | throws_step].
    - repeat first [apply throws_allocData | apply throws_wrapData
                   | apply throws_instanceMaker | throws_step]. }
  intros rep.
  repeat first [apply throws_readInner | apply throws_envInnerSelf
               | apply throws_remember | throws_step]; done.
Qed.

Lemma throws_reanimate fuel kind k : throws P (vom.reanimate co fuel kind k).
Proof.
  unfold vom.reanimate. apply throws_bind; [apply throws_vom_lookup|].
  intros a. apply throws_makeRepresentative.
Qed.

End VomThrows.

(** *** Unknown kinds and instances that were never created *)

(** C9.  When [parseVatSlot(vref)] returns, the call throws the error
    "unknown kind <id>" exactly when the kind table has no entry for the
    parsed id, leaving the state as it was; otherwise it is the call of
    the registered reanimator on [vref]. *)
Theorem makeVirtualObjectRepresentative_unknown_kind fuel st vref slot :
  slot_parseVatSlot co vref = inr slot →
  let kindID := pretty (id slot) in
  ((∃ other st',
      vom.makeVirtualObjectRepresentative co fuel vref st
      = Throw (UnknownKind other) st')
   ↔ kindTable (world st) !! kindID = None)
  ∧ (kindTable (world st) !! kindID = None →
     vom.makeVirtualObjectRepresentative co fuel vref st
     = Throw (UnknownKind kindID) st
     ∧ message (UnknownKind kindID) = "unknown kind " +:+ kindID)
  ∧ (∀ kind, kindTable (world st) !! kindID = Some kind →
     vom.makeVirtualObjectRepresentative co fuel vref st
     = vom.reanimate co fuel kind vref st).
Proof.
  intros Hparse kindID.
  assert (Heq : vom.makeVirtualObjectRepresentative co fuel vref st =
    match kindTable (world st) !! kindID with
    | Some kind => vom.reanimate co fuel kind vref st
    | None => Throw (UnknownKind kindID) st
    end).
  { unfold vom.makeVirtualObjectRepresentative, bind, vom.liftE.
    rewrite Hparse. unfold ret, vom.getsW, gets. fold kindID.
    by destruct (kindTable (world st) !! kindID). }
  rewrite Heq. split; [|split].
  - destruct (kindTable (world st) !! kindID) as [kind|] eqn:Hk.
    + split; [|done]. intros (other & st' & Hthrow). exfalso.
      eapply (throws_reanimate (λ e, ∀ k, e ≠ UnknownKind k)); try done.
    + split; [done|]. intros _. eauto.
  - by intros ->.
  - by intros kind ->.
Qed.

(** C10.  For a key that is not in the live table and for which
    [vatstoreGet] gives [undefined], [lookup] throws the [SyntaxError]
    of [JSON.parse] and changes nothing; so do the reanimator of any
    kind and [makeVirtualObjectRepresentative] when the kind of the
    vref is registered: no representative is returned. *)
Theorem lookup_never_created_throws fuel st k :
  liveTable st !! k = None → vatstoreGet k (world st) = None →
  cache.lookup (vom.fetch co) (vom.store co) fuel k st = Throw SyntaxError st
  ∧ (∀ kind, vom.reanimate co fuel kind k st = Throw SyntaxError st)
  ∧ (∀ slot kind,
       slot_parseVatSlot co k = inr slot →
       kindTable (world st) !! pretty (id slot) = Some kind →
       vom.makeVirtualObjectRepresentative co fuel k st = Throw SyntaxError st).
Proof.
  intros Hlive Hstore.
  assert (Hlk : cache.lookup (vom.fetch co) (vom.store co) fuel k st
                = Throw SyntaxError st).
  { unfold cache.lookup, bind, gets. rewrite Hlive.
    unfold vom.fetch. by rewrite Hstore. }
  assert (Hre : ∀ kind, vom.reanimate co fuel kind k st = Throw SyntaxError st).
  { intros kind. unfold vom.reanimate, bind. by rewrite Hlk. }
  split; [done|]. split; [done|]. intros slot kind Hparse Hkind.
  unfold vom.makeVirtualObjectRepresentative, bind, vom.liftE.
  rewrite Hparse. unfold ret, vom.getsW, gets. rewrite Hkind. apply Hre.
Qed.

(** *** Accessors *)

(** C5.  The setter installed for [prop] serializes the value first:
    when [m.serialize] throws, the setter throws that error in the state
    it was called in, so [ensureState] has not run, no raw data has
    changed and the getter gives what it gave before; this is also what
    an assignment to an accessor property of a wrapped state object
    does.  When [m.serialize] returns, the setter goes on with
    [ensureState] and the write to the raw data. *)
Theorem setter_serializes_first fuel st env prop value e :
  m_serialize co value = inl e →
  vom.setter co fuel env prop value st = Throw e st
  ∧ (∀ st', vom.setter co fuel env prop value st = Throw e st' →
       datas st' = datas st ∧ inners st' = inners st
       ∧ vom.getter co fuel env prop st' = vom.getter co fuel env prop st)
  ∧ (∀ target t,
       datas st !! target = Some t →
       getOwn prop (props t) = Some (Accessor env) →
       vom.putProp co fuel target prop value st = Throw e st)
  ∧ (∀ value' g, m_serialize co value' = inr g →
       vom.setter co fuel env prop value' st
       = bind (vom.ensureState co fuel env)
           (λ _, vom.writeRaw env prop g) st).
Proof.
  intros Hser.
  assert (Hset : vom.setter co fuel env prop value st = Throw e st).
  { unfold vom.setter, bind, vom.liftE. by rewrite Hser. }
  split; [done|]. split; [|split].
  - rewrite Hset. by intros st' [= <-].
  - intros target t Ht Hacc. unfold vom.putProp, bind, readData.
    by rewrite Ht, Hacc.
  - intros value' g Hg. unfold vom.setter, bind at 1, vom.liftE.
    by rewrite Hg.
Qed.

(** *** The weak store *)

Lemma virtualObjectKey_cases ws key st :
  (∃ vkey, vom.virtualObjectKey co ws key st = Ok vkey st)
  ∨ (∃ e, vom.virtualObjectKey co ws key st = Throw e st).
Proof.
  unfold vom.virtualObjectKey, bind, vom.getsW, gets, vom.liftE.
  destruct (valToSlotTable (world st) !! key) as [k|]; [|left; eauto].
  destruct (negb (truthy (Some k))); [left; eauto|].
  destruct (slot_parseVatSlot co k) as [e|slot]; [right; eauto|].
  unfold ret. destruct (_ && _); left; eauto.
Qed.

Lemma virtualObjectKey_same ws key st st' r :
  valToSlotTable (world st') = valToSlotTable (world st) →
  vom.virtualObjectKey co ws key st = Ok r st →
  vom.virtualObjectKey co ws key st' = Ok r st'.
Proof.
  intros Heq. unfold vom.virtualObjectKey, bind, vom.getsW, gets, vom.liftE.
  rewrite Heq.
  destruct (valToSlotTable (world st) !! key) as [k|];
    [|by intros [= <-]].
  destruct (negb (truthy (Some k))); [by intros [= <-]|].
  destruct (slot_parseVatSlot co k) as [e|slot]; [done|].
  unfold ret. destruct (_ && _); by intros [= <-].
Qed.

Lemma truthy_nonempty s : s ≠ "" → truthy (Some s) = true.
Proof. intros Hs. simpl. by destruct s. Qed.

Lemma has_unfold ws key st r :
  vom.virtualObjectKey co ws key st = Ok r st →
  vom.has co ws key st =
  match r with
  | Some vkey => Ok (truthy (vatstoreGet vkey (world st))) st
  | None =>
      match backingMap (world st) !! storeID ws with
      | Some m => Ok (bool_decide (is_Some (m !! key))) st
      | None => Fail Dangling
      end
  end.
Proof.
  intros Hvk. unfold vom.has, bind. rewrite Hvk. destruct r; [done|].
  unfold vom.readBacking. by destruct (backingMap (world st) !! storeID ws).
Qed.

Lemma init_unfold ws key v st r :
  vom.virtualObjectKey co ws key st = Ok r st →
  vom.init co ws key v st =
  match r with
  | Some vkey =>
      if truthy (vatstoreGet vkey (world st))
      then Throw (AlreadyRegistered (keyName ws)) st
      else match m_serialize co v with
           | inl e => Throw e st
           | inr g =>
               Ok tt (upd_world
                        (vatstoreSet vkey (Some (JSON_stringifyGround co g))) st)
           end
  | None =>
      match backingMap (world st) !! storeID ws with
      | Some m =>
          if bool_decide (is_Some (m !! key))
          then Throw (AlreadyRegistered (keyName ws)) st
          else Ok tt (upd_world
                        (upd_backingMap (alter <[key := v]> (storeID ws))) st)
      | None => Fail Dangling
      end
  end.
Proof.
  intros Hvk. unfold vom.init, bind. rewrite Hvk. destruct r.
  - unfold vom.getsW, gets, vom.assert.
    destruct (truthy _); simpl; [done|]. unfold vom.liftE.
    by destruct (m_serialize co v).
  - unfold vom.assertKeyDoesNotExist, vom.readBacking, bind, vom.assert.
    destruct (backingMap (world st) !! storeID ws); [|done].
    by destruct (bool_decide _).
Qed.

Lemma get_unfold ws key st r :
  vom.virtualObjectKey co ws key st = Ok r st →
  vom.get co ws key st =
  match r with
  | Some vkey =>
      if truthy (vatstoreGet vkey (world st))
      then match vatstoreGet vkey (world st) ≫= JSON_parseGround co with
           | None => Throw SyntaxError st
           | Some g =>
               match m_unserialize co g with
               | inl e => Throw e st
               | inr v => Ok v st
               end
           end
      else Throw (NotFound (keyName ws)) st
  | None =>
      match backingMap (world st) !! storeID ws with
      | Some m =>
          match m !! key with
          | Some v => Ok v st
          | None => Throw (NotFound (keyName ws)) st
          end
      | None => Fail Dangling
      end
  end.
Proof.
  intros Hvk. unfold vom.get, bind. rewrite Hvk. destruct r.
  - unfold vom.getsW, gets, vom.assert.
    destruct (truthy _); simpl; [|done].
    destruct (_ ≫= _); [|done]. unfold vom.liftE.
    by destruct (m_unserialize co g).
  - unfold vom.assertKeyExists, vom.readBacking, bind, vom.assert.
    destruct (backingMap (world st) !! storeID ws) as [m|] eqn:Hm; [|done].
    destruct (m !! key) eqn:Hk.
    + rewrite bool_decide_eq_true_2 by eauto. simpl. by rewrite Hm, Hk.
    + rewrite bool_decide_eq_false_2; [done|]. by intros [? ?].
Qed.

Lemma set_unfold ws key v st r :
  vom.virtualObjectKey co ws key st = Ok r st →
  vom.set co ws key v st =
  match r with
  | Some vkey =>
      if truthy (vatstoreGet vkey (world st))
      then match m_serialize co v with
           | inl e => Throw e st
           | inr g =>
               Ok tt (upd_world
                        (vatstoreSet vkey (Some (JSON_stringifyGround co g))) st)
           end
      else Throw (NotFound (keyName ws)) st
  | None =>
      match backingMap (world st) !! storeID ws with
      | Some m =>
          if bool_decide (is_Some (m !! key))
          then Ok tt (upd_world
                        (upd_backingMap (alter <[key := v]> (storeID ws))) st)
          else Throw (NotFound (keyName ws)) st
      | None => Fail Dangling
      end
  end.
Proof.
  intros Hvk. unfold vom.set, bind. rewrite Hvk. destruct r.
  - unfold vom.getsW, gets, vom.assert.
    destruct (truthy _); simpl; [|done]. unfold vom.liftE.
    by destruct (m_serialize co v).
  - unfold vom.assertKeyExists, vom.readBacking, bind, vom.assert.
    destruct (backingMap (world st) !! storeID ws); [|done].
    by destruct (bool_decide _).
Qed.

Lemma delete_unfold ws key st r :
  vom.virtualObjectKey co ws key st = Ok r st →
  vom.delete co ws key st =
  match r with
  | Some vkey =>
      if truthy (vatstoreGet vkey (world st))
      then Ok tt (upd_world (vatstoreSet vkey None) st)
      else Throw (NotFound (keyName ws)) st
  | None =>
      match backingMap (world st) !! storeID ws with
      | Some m =>
          if bool_decide (is_Some (m !! key))
          then Ok tt (upd_world
                        (upd_backingMap (alter (delete key) (storeID ws))) st)
          else Throw (NotFound (keyName ws)) st
      | None => Fail Dangling
      end
  end.
Proof.
  intros Hvk. unfold vom.delete, bind. rewrite Hvk. destruct r.
  - unfold vom.getsW, gets, vom.assert. by destruct (truthy _).
  - unfold vom.assertKeyExists, vom.readBacking, bind, vom.assert.
    destruct (backingMap (world st) !! storeID ws); [|done].
    by destruct (bool_decide _).
Qed.

(** C6.  For a weak store and a key, virtual or not, on which [has]
    returns.  When the key is present, [init] fails with the error
    whose message is [q(keyName)] followed by " already registered:
    (an object)", in an unchanged state; [delete] returns, after which
    [has] is false; and [set] returns, after which [get] returns the
    value, unless the key is virtual and the marshaller rejects the
    value.  When the key is absent, [get], [set] and
    [delete] fail with the error whose message is [q(keyName)] followed
    by " not found: (an object)", in an unchanged state, and [init]
    returns, after which [get] returns the value and [has] is true,
    unless the key is virtual and the marshaller rejects the value.
    Whenever [init(k, v)] returned, [get(k)] returns [v] and [has(k)] is
    true; whenever [delete(k)] returned, [has(k)] is false.  The
    marshaller and JSON are assumed to decode what they encode, and JSON
    text not to be the empty string. *)
Theorem weakStore_contract ws key st :
  (∀ g, JSON_parseGround co (JSON_stringifyGround co g) = Some g) →
  (∀ g, JSON_stringifyGround co g ≠ "") →
  (∀ v g, m_serialize co v = inr g → m_unserialize co g = inr v) →
  (vom.has co ws key st = Ok true st →
     (∀ v, vom.init co ws key v st = Throw (AlreadyRegistered (keyName ws)) st)
     ∧ (∃ st', vom.delete co ws key st = Ok tt st'
               ∧ vom.has co ws key st' = Ok false st')
     ∧ (∀ v, (∃ st', vom.set co ws key v st = Ok tt st'
                      ∧ vom.get co ws key st' = Ok v st')
             ∨ (∃ e, m_serialize co v = inl e
                     ∧ vom.set co ws key v st = Throw e st)))
  ∧ (vom.has co ws key st = Ok false st →
       vom.get co ws key st = Throw (NotFound (keyName ws)) st
       ∧ (∀ v, vom.set co ws key v st = Throw (NotFound (keyName ws)) st)
       ∧ vom.delete co ws key st = Throw (NotFound (keyName ws)) st
       ∧ (∀ v, (∃ st', vom.init co ws key v st = Ok tt st'
                        ∧ vom.get co ws key st' = Ok v st'
                        ∧ vom.has co ws key st' = Ok true st')
               ∨ (∃ e, m_serialize co v = inl e
                       ∧ vom.init co ws key v st = Throw e st)))
  ∧ (∀ v st', vom.init co ws key v st = Ok tt st' →
       vom.get co ws key st' = Ok v st'
       ∧ vom.has co ws key st' = Ok true st')
  ∧ (∀ st', vom.delete co ws key st = Ok tt st' →
       vom.has co ws key st' = Ok false st')
  ∧ message (AlreadyRegistered (keyName ws))
    = q (keyName ws) +:+ " already registered: (an object)"
  ∧ message (NotFound (keyName ws))
    = q (keyName ws) +:+ " not found: (an object)".
Proof.
  intros Hjson Hnonempty Hcodec.
  destruct (virtualObjectKey_cases ws key st) as [[vkey Hvk]|[e Hvk]]; cycle 1.
  { unfold vom.has, vom.init, vom.get, vom.set, vom.delete, bind.
    rewrite Hvk. repeat split; try done; intros; done. }
  assert (Hsame : ∀ st', valToSlotTable (world st') = valToSlotTable (world st) →
            vom.virtualObjectKey co ws key st' = Ok vkey st').
  { intros st' Heq. by eapply virtualObjectKey_same. }
  assert (Hinit : ∀ v st', vom.init co ws key v st = Ok tt st' →
            vom.get co ws key st' = Ok v st'
            ∧ vom.has co ws key st' = Ok true st').
  { intros v st'. rewrite (init_unfold _ _ _ _ _ Hvk).
    destruct vkey as [vkey|].
    - destruct (truthy (vatstoreGet vkey (world st))); [done|].
      destruct (m_serialize co v) as [e|g] eqn:Hs; [done|].
      intros [= <-].
      rewrite (has_unfold _ _ _ (Some vkey)), (get_unfold _ _ _ (Some vkey))
        by (by apply Hsame).
      simpl. unfold vatstoreGet. simpl. rewrite lookup_insert_eq.
      rewrite truthy_nonempty by done. simpl.
      by rewrite Hjson, (Hcodec v g Hs).
    - destruct (backingMap (world st) !! storeID ws) as [m|] eqn:Hm; [|done].
      destruct (bool_decide (is_Some (m !! key))); [done|].
      intros [= <-].
      rewrite (has_unfold _ _ _ None), (get_unfold _ _ _ None)
        by (by apply Hsame).
      simpl. rewrite lookup_alter_eq, Hm. simpl. rewrite lookup_insert_eq.
      by rewrite bool_decide_eq_true_2 by eauto. }
  assert (Hdelete : ∀ st', vom.delete co ws key st = Ok tt st' →
            vom.has co ws key st' = Ok false st').
  { intros st'. rewrite (delete_unfold _ _ _ _ Hvk).
    destruct vkey as [vkey|].
    - destruct (truthy (vatstoreGet vkey (world st))); [|done].
      intros [= <-]. rewrite (has_unfold _ _ _ (Some vkey)) by (by apply Hsame).
      simpl. unfold vatstoreGet. simpl. by rewrite lookup_insert_eq.
    - destruct (backingMap (world st) !! storeID ws) as [m|] eqn:Hm; [|done].
      destruct (bool_decide (is_Some (m !! key))); [|done].
      intros [= <-]. rewrite (has_unfold _ _ _ None) by (by apply Hsame).
      simpl. rewrite lookup_alter_eq, Hm. simpl. rewrite lookup_delete_eq.
      rewrite bool_decide_eq_false_2; [done|]. by intros [? ?]. }
  split; [|split; [|split; [done|split; [done|done]]]].
  - intros Hhas. rewrite (has_unfold _ _ _ _ Hvk) in Hhas. split.
    + intros v. rewrite (init_unfold _ _ _ _ _ Hvk).
      destruct vkey as [vkey|].
      * injection Hhas as ->. done.
      * destruct (backingMap (world st) !! storeID ws); [|done].
        injection Hhas as ->. done.
    + assert (Hret : ∃ st', vom.delete co ws key st = Ok tt st').
      { rewrite (delete_unfold _ _ _ _ Hvk). destruct vkey as [vkey|].
        - injection Hhas as ->. eauto.
        - destruct (backingMap (world st) !! storeID ws); [|done].
          injection Hhas as ->. eauto. }
      destruct Hret as [st' Hret]. split.
      { exists st'. split; [done|by apply Hdelete]. }
      intros v. rewrite (set_unfold _ _ _ _ _ Hvk). destruct vkey as [vkey|].
      * injection Hhas as ->.
        destruct (m_serialize co v) as [e|g] eqn:Hs; [right; eauto|left].
        eexists. split; [reflexivity|].
        rewrite (get_unfold _ _ _ (Some vkey)) by (by apply Hsame).
        simpl. unfold vatstoreGet. simpl. rewrite lookup_insert_eq.
        rewrite truthy_nonempty by done. simpl.
        by rewrite Hjson, (Hcodec v g Hs).
      * destruct (backingMap (world st) !! storeID ws) as [m|] eqn:Hm; [|done].
        injection Hhas as ->. left. eexists. split; [reflexivity|].
        rewrite (get_unfold _ _ _ None) by (by apply Hsame).
        simpl. rewrite lookup_alter_eq, Hm. simpl.
        by rewrite lookup_insert_eq.
  - intros Hhas. rewrite (has_unfold _ _ _ _ Hvk) in Hhas.
    assert (Hinit' : ∀ v, (∃ st', vom.init co ws key v st = Ok tt st')
              ∨ (∃ e, m_serialize co v = inl e
                      ∧ vom.init co ws key v st = Throw e st)).
    { intros v. rewrite (init_unfold _ _ _ _ _ Hvk). destruct vkey as [vkey|].
      - injection Hhas as ->.
        destruct (m_serialize co v) as [e|g]; [right|left]; eauto.
      - destruct (backingMap (world st) !! storeID ws); [|done].
        injection Hhas as ->. left; eauto. }
    rewrite (get_unfold _ _ _ _ Hvk), (delete_unfold _ _ _ _ Hvk).
    destruct vkey as [vkey|].
    + injection Hhas as Hb. rewrite Hb. split; [done|].
      split; [|split; [done|]].
      * intros v. rewrite (set_unfold _ _ _ _ _ Hvk). by rewrite Hb.
      * intros v. destruct (Hinit' v) as [[st' Hst']|?]; [left|by right].
        exists st'. split; [done|]. by apply Hinit.
    + destruct (backingMap (world st) !! storeID ws) as [m|] eqn:Hm; [|done].
      injection Hhas as Hb. rewrite Hb.
      apply bool_decide_eq_false_1 in Hb as Hnone.
      split; [|split; [|split; [done|]]].
      * destruct (m !! key); [exfalso; eauto|done].
      * intros v. rewrite (set_unfold _ _ _ _ _ Hvk). by rewrite Hm, Hb.
      * intros v. destruct (Hinit' v) as [[st' Hst']|?]; [left|by right].
        exists st'. split; [done|]. by apply Hinit.
Qed.

(** *** New instances whose state cannot be serialized *)

Lemma upd_datas_insert_alter (c : State) d x f :
  upd_datas <[d := x]> (upd_datas (alter f d) c) = upd_datas <[d := x]> c.
Proof.
  unfold upd_datas. simpl. f_equal. apply map_eq. intros i.
  destruct (decide (d = i)) as [->|Hne].
  - by rewrite !lookup_insert_eq.
  - by rewrite !lookup_insert_ne, lookup_alter_ne.
Qed.

Lemma upd_datas_insert_id (c : State) d x :
  datas c !! d = Some x → upd_datas <[d := x]> c = c.
Proof.
  intros Hd. unfold upd_datas. rewrite insert_id by done. by destruct c.
Qed.

(** *** Own properties *)

Lemma getOwn_None {A} p (ps : list (string * A)) :
  getOwn p ps = None ↔ p ∉ ps.*1.
Proof.
  induction ps as [|[k v] ps IH]; simpl; [set_solver|].
  case_decide; [subst; set_solver|]. rewrite IH. set_solver.
Qed.

Lemma replaceOwn_names {A} p (x : A) ps : (replaceOwn p x ps).*1 = ps.*1.
Proof.
  induction ps as [|[k v] ps IH]; [done|]. cbn [replaceOwn].
  case_decide; rewrite !fmap_cons; [done|]. by rewrite IH.
Qed.

Lemma createOwn_names {A} p (x : A) ps : (createOwn p x ps).*1 ≡ₚ p :: ps.*1.
Proof.
  induction ps as [|[k v] ps IH]; [done|]. cbn [createOwn].
  destruct (_ <? _)%N; rewrite !fmap_cons; [done|].
  rewrite IH. apply Permutation_swap.
Qed.

Lemma createOwn_last {A} p (x : A) ps :
  Forall (λ k, (rank k ≤ rank p)%N) ps.*1 → createOwn p x ps = ps ++ [(p, x)].
Proof.
  induction ps as [|[k v] ps IH]; simpl; [done|].
  intros [Hk Hps]%Forall_cons. simpl in Hk.
  destruct (N.ltb_spec (rank p) (rank k)); [lia|]. by rewrite IH.
Qed.

Lemma setOwn_in {A} p (x : A) ps kv :
  kv ∈ setOwn p x ps → kv = (p, x) ∨ kv ∈ ps.
Proof.
  unfold setOwn. destruct (getOwn p ps) as [y|]; clear.
  - induction ps as [|[k v] ps IH]; simpl; [set_solver|].
    case_decide; [subst; set_solver|].
    intros [->|Hin]%elem_of_cons; [set_solver|].
    destruct (IH Hin); set_solver.
  - induction ps as [|[k v] ps IH]; simpl; [set_solver|].
    destruct (_ <? _)%N; [set_solver|].
    intros [->|Hin]%elem_of_cons; [set_solver|].
    destruct (IH Hin); set_solver.
Qed.

Lemma getOwn_setOwn_eq {A} p (x : A) ps : getOwn p (setOwn p x ps) = Some x.
Proof.
  unfold setOwn. destruct (getOwn p ps) as [y|] eqn:Hget.
  - induction ps as [|[k v] ps IH]; simpl in *; [done|].
    case_decide; simpl; [by rewrite decide_True|].
    rewrite decide_False by done. by apply IH.
  - induction ps as [|[k v] ps IH]; simpl in *; [by rewrite decide_True|].
    case_decide; [done|].
    destruct (_ <? _)%N; simpl; [by rewrite decide_True|].
    rewrite decide_False by done. by apply IH.
Qed.

Lemma getOwn_setOwn_ne {A} p p' (x : A) ps :
  p' ≠ p → getOwn p' (setOwn p x ps) = getOwn p' ps.
Proof.
  intros Hne. unfold setOwn. destruct (getOwn p ps) as [y|].
  - induction ps as [|[k v] ps IH]; simpl; [done|].
    case_decide; simpl; [subst; by rewrite !decide_False by done|].
    by rewrite IH.
  - induction ps as [|[k v] ps IH]; simpl; [by rewrite decide_False|].
    destruct (_ <? _)%N; simpl; [by rewrite decide_False by done|].
    by rewrite IH.
Qed.

Lemma setOwn_names_in {A} p (x : A) ps :
  p ∈ ps.*1 → (setOwn p x ps).*1 = ps.*1.
Proof.
  intros Hin. unfold setOwn. destruct (getOwn p ps) eqn:Hget.
  - apply replaceOwn_names.
  - by apply getOwn_None in Hget.
Qed.

Lemma setOwn_names_perm {A} p (x : A) ps :
  p ∉ ps.*1 → (setOwn p x ps).*1 ≡ₚ p :: ps.*1.
Proof.
  intros Hin%getOwn_None. unfold setOwn. rewrite Hin. apply createOwn_names.
Qed.

(** A new property whose name comes after the names the object has
    goes last. *)
Lemma setOwn_notin {A} p (x : A) ps :
  p ∉ ps.*1 → Forall (λ k, (rank k ≤ rank p)%N) ps.*1 →
  setOwn p x ps = ps ++ [(p, x)].
Proof.
  intros Hin%getOwn_None Hle. unfold setOwn. rewrite Hin.
  by apply createOwn_last.
Qed.

Lemma setOwn_NoDup {A} p (x : A) ps : NoDup ps.*1 → NoDup (setOwn p x ps).*1.
Proof.
  intros Hnd. destruct (decide (p ∈ ps.*1)) as [Hin|Hin].
  - by rewrite setOwn_names_in.
  - rewrite setOwn_names_perm by done. by constructor.
Qed.

(** Assignments keep the names in own-property order. *)
Lemma createOwn_ordered {A} p (x : A) ps :
  ordered ps.*1 → ordered (createOwn p x ps).*1.
Proof.
  induction ps as [|[k v] ps IH]; simpl; [done|].
  intros [Hk Hps].
  destruct (N.ltb_spec (rank p) (rank k)) as [Hlt|Hge]; simpl.
  - split; [|done].
    constructor; [lia|]. eapply Forall_impl; [exact Hk|]. simpl. lia.
  - split; [|by apply IH].
    rewrite createOwn_names. by constructor.
Qed.

Lemma setOwn_ordered {A} p (x : A) ps :
  ordered ps.*1 → ordered (setOwn p x ps).*1.
Proof.
  intros Hps. unfold setOwn. destruct (getOwn p ps).
  - by rewrite replaceOwn_names.
  - by apply createOwn_ordered.
Qed.

Lemma ordered_app (l1 l2 : list string) :
  ordered (l1 ++ l2) →
  ∀ a b, a ∈ l1 → b ∈ l2 → (rank a ≤ rank b)%N.
Proof.
  induction l1 as [|k l1 IH]; simpl; [set_solver|].
  intros [Hk Hl] a b [->|Ha]%elem_of_cons Hb.
  - apply (proj1 (Forall_forall _ _) Hk). set_solver.
  - by apply IH.
Qed.

Lemma getOwn_plain prop (ps : list (string * Slot)) env :
  Forall plain ps → getOwn prop ps ≠ Some (Accessor env).
Proof.
  induction 1 as [|[k x] ps [v Hv] _ IH]; simpl; [done|].
  case_decide; [|done]. simpl in Hv. by rewrite Hv.
Qed.

Lemma setOwn_plain prop v (ps : list (string * Slot)) :
  Forall plain ps → Forall plain (setOwn prop (Plain v) ps).
Proof.
  intros Hps. apply Forall_forall. intros kv [->|Hin]%setOwn_in.
  - by exists v.
  - by apply (proj1 (Forall_forall _ _) Hps).
Qed.

Lemma assignAll_plain asg (ps : list (string * Slot)) :
  Forall plain ps → Forall plain (assignAll (Ground:=Ground) asg ps).
Proof.
  revert ps. induction asg as [|pv asg IH]; intros ps Hps; simpl; [done|].
  apply IH. by apply setOwn_plain.
Qed.

(** The assignments of [initialize] on a plain, extensible object. *)
Lemma forEach_assign fuel (c : State) d i ps asg :
  datas c !! d = Some (mkData i ps false) → Forall plain ps →
  vom.forEach (vom.assign co fuel d) asg c
  = Ok tt (upd_datas <[d := mkData i (assignAll asg ps) false]> c).
Proof.
  revert c ps. induction asg as [|pv asg IH]; intros c ps Hd Hps; simpl.
  - by rewrite upd_datas_insert_id.
  - unfold bind, vom.assign, vom.putProp, bind, readData. rewrite Hd. simpl.
    pose proof (getOwn_plain pv.1 ps) as Hacc.
    destruct (getOwn pv.1 ps) as [[v|g|env]|] eqn:Hget;
      try (exfalso; by eapply Hacc).
    all: unfold updData, modify;
      rewrite (IH _ (setOwn pv.1 (Plain pv.2) ps));
      [by rewrite upd_datas_insert_alter
      |simpl; by rewrite lookup_alter_eq, Hd
      |by apply setOwn_plain].
Qed.


(** Evictions change the vatstore only, at the keys written. *)
Lemma store_fold_fields (w : World) (es : list (string * DataObj)) :
  let w' := foldl (λ w kd, vom.store co kd.1 kd.2 w) w es in
  valToSlotTable w' = valToSlotTable w ∧ nextExportID w' = nextExportID w
  ∧ console w' = console w ∧ kindTable w' = kindTable w
  ∧ nextInstanceID w' = nextInstanceID w
  ∧ nextWeakStoreID w' = nextWeakStoreID w ∧ backingMap w' = backingMap w
  ∧ representatives w' = representatives w ∧ environments w' = environments w.
Proof.
  revert w. induction es as [|kd es IH]; intros w; simpl; [done|].
  destruct (IH (vom.store co kd.1 kd.2 w)) as (? & ? & ? & ? & ? & ? & ? & ? & ?).
  by repeat split.
Qed.

Lemma store_fold_vatstore (w : World) (es : list (string * DataObj)) k :
  Forall (λ kd, kd.1 ≠ k) es →
  vatstore (foldl (λ w kd, vom.store co kd.1 kd.2 w) w es) !! k = vatstore w !! k.
Proof.
  revert w. induction es as [|kd es IH]; intros w Hes; simpl; [done|].
  apply Forall_cons in Hes as [Hkd Hes]. rewrite IH by done.
  simpl. by rewrite lookup_insert_ne.
Qed.

(** Allocating new objects leaves the residents as they are. *)
Lemma wf_fresh_objects (c c' : State) l :
  wf c l →
  lruHead c' = lruHead c → lruTail c' = lruTail c →
  liveTable c' = liveTable c →
  (∀ b, b ≠ fresh (dom (inners c)) → inners c' !! b = inners c !! b) →
  (∀ d, d ≠ fresh (dom (datas c)) → datas c' !! d = datas c !! d) →
  wf c' l
  ∧ (∀ b, b ∈ l → inners c' !! b = inners c !! b ∧ dataOf c' b = dataOf c b).
Proof.
  intros Hwf Hhd Htl Htab Hin Hda.
  assert (Hag : ∀ b, b ∈ l →
    inners c' !! b = inners c !! b ∧ dataOf c' b = dataOf c b).
  { intros b Hb.
    assert (Hne : b ≠ fresh (dom (inners c))).
    { intros ->. destruct (wf_allocated c l _ Hwf Hb) as [x Hx].
      pose proof (is_fresh (dom (inners c))) as Hfr.
      apply not_elem_of_dom in Hfr. congruence. }
    split; [auto|]. unfold dataOf. rewrite Hin by done.
    pose proof (wf_data _ _ Hwf) as Hdl.
    rewrite Forall_forall in Hdl. destruct (Hdl b Hb) as [x Hx].
    unfold dataOf in Hx.
    destruct (inners c !! b) as [o|]; [|done].
    destruct (rawData o) as [d|]; [|done].
    apply Hda. intros ->.
    pose proof (is_fresh (dom (datas c))) as Hfr.
    apply not_elem_of_dom in Hfr. congruence. }
  split; [|done].
  eapply wf_agree; [exact Hwf|done..| |]; intros b Hb; by apply Hag.
Qed.


Lemma runInitialize_spec fuel (c : State) kind init rep r d0 i ps args :
  representatives (world c) !! rep = Some r → hasInitialize r = true →
  initialize kind = Some init →
  datas c !! d0 = Some (mkData i ps false) → Forall plain ps →
  vom.runInitialize co fuel kind rep d0 args c
  = Ok tt (upd_datas <[d0 := mkData i (assignAll (init args) ps) false]>
             (upd_world
                (upd_representatives
                   (alter (λ r, mkRep false (frozen r) (state r)) rep)) c)).
Proof.
  intros Hrep Hhas Hinit Hd Hps.
  unfold vom.runInitialize, bind, vom.readRep. rewrite Hrep, Hhas, Hinit.
  unfold vom.updRep, vom.modifyW, modify.
  by rewrite (forEach_assign fuel _ d0 i ps).
Qed.



End VomLemmas.


(** ** More on the weak store *)

Section WeakStoreProperties.
Context {Value Ground : Type}.
Local Abbreviation State := (Cache Value Ground (World Value)).
Context (co : Collaborators Value Ground).
Implicit Types (st : State).

(** X6.  After [set(k, v)] returned, on a key virtual or not, the key
    was and is present, and [get(k)] returns [v].  The marshaller and
    JSON are assumed to decode what they encode, and JSON text not to
    be the empty string. *)
Theorem weakStore_set_then_get ws key v st st' :
  (∀ g, JSON_parseGround co (JSON_stringifyGround co g) = Some g) →
  (∀ g, JSON_stringifyGround co g ≠ "") →
  (∀ v g, m_serialize co v = inr g → m_unserialize co g = inr v) →
  vom.set co ws key v st = Ok tt st' →
  vom.has co ws key st = Ok true st
  ∧ vom.get co ws key st' = Ok v st'
  ∧ vom.has co ws key st' = Ok true st'.
Proof.
  intros Hjson Hnonempty Hcodec.
  destruct (virtualObjectKey_cases co ws key st) as [[vkey Hvk]|[e Hvk]]; cycle 1.
  { unfold vom.set, bind. by rewrite Hvk. }
  assert (Hsame : ∀ st', valToSlotTable (world st') = valToSlotTable (world st) →
            vom.virtualObjectKey co ws key st' = Ok vkey st').
  { intros s Heq. by eapply virtualObjectKey_same. }
  rewrite (set_unfold _ _ _ _ _ _ Hvk), (has_unfold _ _ _ _ _ Hvk).
  destruct vkey as [vkey|].
  - destruct (truthy (vatstoreGet vkey (world st))); [|done].
    destruct (m_serialize co v) as [e|g] eqn:Hs; [done|].
    intros [= <-]. split; [done|].
    rewrite (has_unfold _ _ _ _ (Some vkey)), (get_unfold _ _ _ _ (Some vkey))
      by (by apply Hsame).
    simpl. unfold vatstoreGet. simpl. rewrite lookup_insert_eq.
    rewrite truthy_nonempty by done. simpl.
    by rewrite Hjson, (Hcodec v g Hs).
  - destruct (backingMap (world st) !! storeID ws) as [m|] eqn:Hm; [|done].
    destruct (bool_decide (is_Some (m !! key))); [|done].
    intros [= <-]. split; [done|].
    rewrite (has_unfold _ _ _ _ None), (get_unfold _ _ _ _ None)
      by (by apply Hsame).
    simpl. rewrite lookup_alter_eq, Hm. simpl. rewrite lookup_insert_eq.
    by rewrite bool_decide_eq_true_2 by eauto.
Qed.

Lemma virtualObjectKey_table ws k1 k2 st :
  valToSlotTable (world st) !! k1 = valToSlotTable (world st) !! k2 →
  ∀ r, vom.virtualObjectKey co ws k1 st = Ok r st →
       vom.virtualObjectKey co ws k2 st = Ok r st.
Proof.
  intros Heq r. unfold vom.virtualObjectKey, bind, vom.getsW, gets.
  by rewrite Heq.
Qed.

(** X7.  A virtual object keys a weak store by its instance ID, not by
    its identity: two objects that [valToSlotTable] maps to the same
    slot of a virtual object are the same key, whatever operation is
    applied to them. *)
Theorem weakStore_keyed_by_instance ws k1 k2 vkey st :
  valToSlotTable (world st) !! k1 = valToSlotTable (world st) !! k2 →
  vom.virtualObjectKey co ws k1 st = Ok (Some vkey) st →
  vom.has co ws k2 st = vom.has co ws k1 st
  ∧ vom.get co ws k2 st = vom.get co ws k1 st
  ∧ vom.delete co ws k2 st = vom.delete co ws k1 st
  ∧ (∀ v, vom.init co ws k2 v st = vom.init co ws k1 v st)
  ∧ (∀ v, vom.set co ws k2 v st = vom.set co ws k1 v st)
  ∧ (∀ v st', vom.init co ws k1 v st = Ok tt st' →
       vom.has co ws k2 st' = vom.has co ws k1 st'
       ∧ vom.get co ws k2 st' = vom.get co ws k1 st').
Proof.
  intros Heq Hvk.
  pose proof (virtualObjectKey_table ws k1 k2 st Heq _ Hvk) as Hvk2.
  rewrite (has_unfold _ _ _ _ _ Hvk), (has_unfold _ _ _ _ _ Hvk2).
  rewrite (get_unfold _ _ _ _ _ Hvk), (get_unfold _ _ _ _ _ Hvk2).
  rewrite (delete_unfold _ _ _ _ _ Hvk), (delete_unfold _ _ _ _ _ Hvk2).
  split; [done|]. split; [done|]. split; [done|]. split; [|split].
  - intros v. by rewrite (init_unfold _ _ _ _ _ _ Hvk), (init_unfold _ _ _ _ _ _ Hvk2).
  - intros v. by rewrite (set_unfold _ _ _ _ _ _ Hvk), (set_unfold _ _ _ _ _ _ Hvk2).
  - intros v st'. rewrite (init_unfold _ _ _ _ _ _ Hvk).
    destruct (truthy _); [done|]. destruct (m_serialize co v); [done|].
    intros [= <-].
    assert (Hvk' : ∀ k, vom.virtualObjectKey co ws k st = Ok (Some vkey) st →
              vom.virtualObjectKey co ws k
                (upd_world (vatstoreSet vkey (Some (JSON_stringifyGround co g))) st)
              = Ok (Some vkey)
                  (upd_world (vatstoreSet vkey (Some (JSON_stringifyGround co g))) st)).
    { intros k Hk. by apply (virtualObjectKey_same co ws k st). }
    by rewrite !(has_unfold _ _ _ _ (Some vkey)), !(get_unfold _ _ _ _ (Some vkey))
      by (by apply Hvk').
Qed.

(** What a write to the weak store does to the state. *)
Lemma weakStore_write_shape ws k vk st st' :
  vom.virtualObjectKey co ws k st = Ok vk st →
  (∃ v, vom.init co ws k v st = Ok tt st')
  ∨ (∃ v, vom.set co ws k v st = Ok tt st')
  ∨ vom.delete co ws k st = Ok tt st' →
  match vk with
  | Some x => ∃ val, st' = upd_world (vatstoreSet x val) st
  | None =>
      ∃ g, st' = upd_world (upd_backingMap (alter g (storeID ws))) st
        ∧ ∀ m k', k' ≠ k → g m !! k' = m !! k'
  end.
Proof.
  intros Hvk [[v Hop]|[[v Hop]|Hop]].
  - rewrite (init_unfold _ _ _ _ _ _ Hvk) in Hop. destruct vk as [x|].
    + destruct (truthy _); [done|]. destruct (m_serialize co v); [done|].
      injection Hop as <-. eauto.
    + destruct (backingMap (world st) !! storeID ws) as [m|]; [|done].
      destruct (bool_decide _); [done|]. injection Hop as <-.
      eexists. split; [done|]. intros m' k' Hne. by rewrite lookup_insert_ne.
  - rewrite (set_unfold _ _ _ _ _ _ Hvk) in Hop. destruct vk as [x|].
    + destruct (truthy _); [|done]. destruct (m_serialize co v); [done|].
      injection Hop as <-. eauto.
    + destruct (backingMap (world st) !! storeID ws) as [m|]; [|done].
      destruct (bool_decide _); [|done]. injection Hop as <-.
      eexists. split; [done|]. intros m' k' Hne. by rewrite lookup_insert_ne.
  - rewrite (delete_unfold _ _ _ _ _ Hvk) in Hop. destruct vk as [x|].
    + destruct (truthy _); [|done]. injection Hop as <-. eauto.
    + destruct (backingMap (world st) !! storeID ws) as [m|]; [|done].
      destruct (bool_decide _); [|done]. injection Hop as <-.
      eexists. split; [done|]. intros m' k' Hne. by rewrite lookup_delete_ne.
Qed.

(** X8.  A write to a weak store ([init], [set] or [delete] that
    returned) leaves every other key alone, in this store and in the
    others: [has] and [get] answer as before on a key of another store
    ID or another object when both keys are held in memory, on a key
    with another vatstore key when both are virtual, and on any key of
    the other sort. *)
Theorem weakStore_other_keys_untouched ws ws' k k' vk vk' st st' :
  vom.virtualObjectKey co ws k st = Ok vk st →
  vom.virtualObjectKey co ws' k' st = Ok vk' st →
  match vk, vk' with
  | Some x, Some x' => x ≠ x'
  | None, None => storeID ws ≠ storeID ws' ∨ k ≠ k'
  | _, _ => True
  end →
  (∃ v, vom.init co ws k v st = Ok tt st')
  ∨ (∃ v, vom.set co ws k v st = Ok tt st')
  ∨ vom.delete co ws k st = Ok tt st' →
  (∀ b, vom.has co ws' k' st = Ok b st → vom.has co ws' k' st' = Ok b st')
  ∧ (∀ v, vom.get co ws' k' st = Ok v st → vom.get co ws' k' st' = Ok v st')
  ∧ (∀ e, vom.get co ws' k' st = Throw e st → vom.get co ws' k' st' = Throw e st').
Proof.
  intros Hvk Hvk' Hne Hop.
  pose proof (weakStore_write_shape ws k vk st st' Hvk Hop) as Hshape.
  assert (Hvk'' : vom.virtualObjectKey co ws' k' st' = Ok vk' st').
  { apply (virtualObjectKey_same co ws' k' st); [|done].
    destruct vk; [destruct Hshape as [val ->]|destruct Hshape as (g & -> & _)]; done. }
  rewrite (has_unfold _ _ _ _ _ Hvk'), (has_unfold _ _ _ _ _ Hvk'').
  rewrite (get_unfold _ _ _ _ _ Hvk'), (get_unfold _ _ _ _ _ Hvk'').
  destruct vk' as [x'|].
  - assert (Hget : vatstoreGet x' (world st') = vatstoreGet x' (world st)).
    { destruct vk as [x|]; [destruct Hshape as [val ->]|destruct Hshape as (g & -> & _)];
        [|done].
      unfold vatstoreGet. simpl. by rewrite lookup_insert_ne. }
    rewrite Hget. split; [by intros b [= <-]|].
    destruct (truthy _); [|split; [done|by intros e [= <-]]].
    destruct (_ ≫= _) as [g|]; [|split; [done|by intros e [= <-]]].
    destruct (m_unserialize co g); split; try done.
    + by intros e' [= <-].
    + by intros v' [= <-].
  - assert (Hmap : ∀ m, backingMap (world st) !! storeID ws' = Some m →
              ∃ m', backingMap (world st') !! storeID ws' = Some m'
                ∧ m' !! k' = m !! k').
    { intros m Hm. destruct vk as [x|];
        [destruct Hshape as [val ->]|destruct Hshape as (g & -> & Hg)].
      - exists m. by split.
      - simpl. destruct (decide (storeID ws = storeID ws')) as [Heq|Hdiff].
        + rewrite Heq, lookup_alter_eq, Hm. simpl. eexists. split; [done|].
          apply Hg. destruct Hne as [?|?]; [done|]. congruence.
        + rewrite lookup_alter_ne by done. by exists m. }
    destruct (backingMap (world st) !! storeID ws') as [m|] eqn:Hm;
      [|by repeat split].
    destruct (Hmap m eq_refl) as (m' & -> & Hk). rewrite Hk.
    split; [by intros b [= <-]|].
    destruct (m !! k'); split; try done.
    + by intros v' [= <-].
    + by intros e [= <-].
Qed.

(** X9.  [has] and [get] change nothing.  A write to the weak store
    changes the world of the manager only, and there only the vatstore
    and the backing maps: the cache (its size, its list, its live
    table, the objects) and the other tables are as before, whether the
    write returns or throws. *)
Theorem weakStore_leaves_cache_alone ws k st :
  (∀ s, final (vom.has co ws k st) = Some s → s = st)
  ∧ (∀ s, final (vom.get co ws k st) = Some s → s = st)
  ∧ (∀ s, (∃ v, final (vom.init co ws k v st) = Some s)
          ∨ (∃ v, final (vom.set co ws k v st) = Some s)
          ∨ final (vom.delete co ws k st) = Some s →
       ∃ f, s = upd_world f st
         ∧ valToSlotTable (f (world st)) = valToSlotTable (world st)
         ∧ kindTable (f (world st)) = kindTable (world st)
         ∧ nextInstanceID (f (world st)) = nextInstanceID (world st)
         ∧ representatives (f (world st)) = representatives (world st)
         ∧ environments (f (world st)) = environments (world st)
         ∧ console (f (world st)) = console (world st)).
Proof.
  assert (Hid : st = upd_world (λ w, w) st) by by destruct st.
  assert (Hsame : ∃ f, st = upd_world f st
            ∧ valToSlotTable (f (world st)) = valToSlotTable (world st)
            ∧ kindTable (f (world st)) = kindTable (world st)
            ∧ nextInstanceID (f (world st)) = nextInstanceID (world st)
            ∧ representatives (f (world st)) = representatives (world st)
            ∧ environments (f (world st)) = environments (world st)
            ∧ console (f (world st)) = console (world st)).
  { by exists (λ w, w). }
  destruct (virtualObjectKey_cases co ws k st) as [[vk Hvk]|[e Hvk]]; cycle 1.
  { unfold vom.has, vom.get, vom.init, vom.set, vom.delete, bind. rewrite Hvk.
    simpl. split; [by intros s [= <-]|]. split; [by intros s [= <-]|].
    by intros s [[v [= <-]]|[[v [= <-]]|[= <-]]]. }
  rewrite (has_unfold _ _ _ _ _ Hvk), (get_unfold _ _ _ _ _ Hvk).
  split; [|split].
  - destruct vk as [x|]; [by intros s [= <-]|].
    destruct (backingMap _ !! _); [by intros s [= <-]|done].
  - destruct vk as [x|].
    + destruct (truthy _); [|by intros s [= <-]].
      destruct (_ ≫= _) as [g|]; [|by intros s [= <-]].
      destruct (m_unserialize co g); by intros s [= <-].
    + destruct (backingMap _ !! _) as [m|]; [|done].
      destruct (m !! k); by intros s [= <-].
  - intros s [[v Hop]|[[v Hop]|Hop]].
    + rewrite (init_unfold _ _ _ _ _ _ Hvk) in Hop.
      destruct vk as [x|]; repeat case_match; try done;
        injection Hop as <-; try done; by eexists.
    + rewrite (set_unfold _ _ _ _ _ _ Hvk) in Hop.
      destruct vk as [x|]; repeat case_match; try done;
        injection Hop as <-; try done; by eexists.
    + rewrite (delete_unfold _ _ _ _ _ Hvk) in Hop.
      destruct vk as [x|]; repeat case_match; try done;
        injection Hop as <-; try done; by eexists.
Qed.

End WeakStoreProperties.

(** ** More on the state accessors *)

Section AccessorProperties.
Context {Value Ground : Type}.
Local Abbreviation Slot := (Slot Value Ground).
Local Abbreviation DataObj := (DataObj Value Ground).
Local Abbreviation State := (Cache Value Ground (World Value)).
Context (co : Collaborators Value Ground).
Implicit Types (st : State) (l : list addr).

Lemma ensureState_resident fuel env a o d st :
  environments (world st) !! env = Some a →
  inners st !! a = Some o → rawData o = Some d →
  vom.ensureState co fuel env st = Ok tt st.
Proof.
  intros He Ha Hd. unfold vom.ensureState, bind, vom.envInnerSelf, readInner.
  by rewrite He, Ha, Hd.
Qed.

(** What the getter returns when the raw data is at hand. *)
Lemma getter_resident fuel env prop a o d obj st :
  environments (world st) !! env = Some a →
  inners st !! a = Some o → rawData o = Some d →
  datas st !! d = Some obj →
  vom.getter co fuel env prop st =
  match getOwn prop (props obj) with
  | Some (Encoded g) =>
      match m_unserialize co g with
      | inl e => Throw e st
      | inr v => Ok v st
      end
  | _ => Throw TypeError st
  end.
Proof.
  intros He Ha Hd Hobj. unfold vom.getter, bind.
  rewrite (ensureState_resident fuel env a o d st He Ha Hd).
  unfold vom.envInnerSelf, readInner, readData. rewrite He, Ha, Hd, Hobj.
  destruct (getOwn prop (props obj)) as [[v|g|e]|]; try done.
  unfold vom.liftE. by destruct (m_unserialize co g).
Qed.

(** X10.  On an instance whose raw data is at hand, the setter for
    [prop] stores the encoding of the value in the raw data and nothing
    else changes: the getter for [prop] then returns what the
    marshaller decodes from it, and the getters of the other properties
    return what they returned before. *)
Theorem setter_then_getter fuel env prop v g a o d obj st :
  environments (world st) !! env = Some a →
  inners st !! a = Some o → rawData o = Some d →
  datas st !! d = Some obj → hardened obj = false →
  m_serialize co v = inr g →
  ∃ st', vom.setter co fuel env prop v st = Ok tt st'
    ∧ st' = upd_datas <[d := set_props (setOwn prop (Encoded g) (props obj)) obj]> st
    ∧ vom.getter co fuel env prop st'
      = match m_unserialize co g with
        | inl e => Throw e st'
        | inr v' => Ok v' st'
        end
    ∧ (∀ prop', prop' ≠ prop →
         vom.getter co fuel env prop' st'
         = in_state (vom.getter co fuel env prop' st) st').
Proof.
  intros He Ha Hd Hobj Hhard Hser. eexists. split; [|split; [done|]].
  - unfold vom.setter, bind, vom.liftE. rewrite Hser. simpl.
    rewrite (ensureState_resident fuel env a o d st He Ha Hd).
    unfold vom.writeRaw, bind, vom.envInnerSelf, readInner, readData.
    rewrite He, Ha, Hd, Hobj, Hhard. unfold updData, modify.
    f_equal. unfold upd_datas. f_equal.
    apply map_eq. intros i. destruct (decide (d = i)) as [<-|Hne].
    + by rewrite lookup_alter_eq, lookup_insert_eq, Hobj.
    + by rewrite lookup_alter_ne, lookup_insert_ne.
  - set (st' := upd_datas _ st).
    assert (Hobj' : datas st' !! d
              = Some (set_props (setOwn prop (Encoded g) (props obj)) obj)).
    { unfold st'. simpl. by rewrite lookup_insert_eq. }
    split.
    + rewrite (getter_resident fuel env prop a o d _ st' He Ha Hd Hobj').
      simpl. by rewrite getOwn_setOwn_eq.
    + intros prop' Hne.
      rewrite (getter_resident fuel env prop' a o d _ st' He Ha Hd Hobj').
      rewrite (getter_resident fuel env prop' a o d _ st He Ha Hd Hobj).
      simpl. rewrite getOwn_setOwn_ne by done.
      destruct (getOwn prop' (props obj)) as [[?|g'|?]|]; try done.
      by destruct (m_unserialize co g').
Qed.

(** *** [wrapData] *)

(** The properties of [target] once accessors were defined for [names]. *)
Lemma defineAll_get (env : addr) names (ps : list (string * Slot)) p :
  getOwn p (foldl (λ ps p, setOwn p (Accessor env) ps) ps names)
  = if decide (p ∈ names) then Some (Accessor env) else getOwn p ps.
Proof.
  revert ps. induction names as [|n names IH]; intros ps.
  - destruct (decide (p ∈ [])); [set_solver|done].
  - change (foldl _ ps (n :: names))
      with (foldl (λ ps p, setOwn p (Accessor env) ps)
              (setOwn n (Accessor env) ps) names).
    rewrite IH. destruct (decide (p ∈ names)) as [Hin|Hnotin].
    + rewrite decide_True; [done|set_solver].
    + destruct (decide (p = n)) as [->|Hne].
      * rewrite decide_True by set_solver. apply getOwn_setOwn_eq.
      * rewrite decide_False by set_solver. by apply getOwn_setOwn_ne.
Qed.

Lemma forEach_defineAccessor env target names t st :
  datas st !! target = Some t → hardened t = false →
  vom.forEach (vom.defineAccessor env target) names st
  = Ok tt (upd_datas
             <[target := set_props
                 (foldl (λ ps p, setOwn p (Accessor env) ps) (props t) names) t]>
             st).
Proof.
  revert st t. induction names as [|n names IH]; intros st t Ht Hhard; simpl.
  - unfold ret. f_equal. symmetry.
    rewrite <-(upd_datas_insert_id st target t Ht) at 2. by destruct t.
  - unfold bind, vom.defineAccessor, bind, readData. rewrite Ht, Hhard.
    unfold updData, modify.
    rewrite (IH _ (set_props (setOwn n (Accessor env) (props t)) t)); [|simpl|done].
    + by rewrite upd_datas_insert_alter.
    + by rewrite lookup_alter_eq, Ht.
Qed.

(** The state [wrapData(target)] leaves on an extensible target. *)
Lemma wrapData_spec env target t a o d raw st :
  datas st !! target = Some t →
  environments (world st) !! env = Some a →
  inners st !! a = Some o → rawData o = Some d →
  datas st !! d = Some raw →
  initializing t = false → hardened t = false →
  vom.wrapData_ env target st
  = Ok tt (upd_datas
             <[target := mkData false
                 (foldl (λ ps p, setOwn p (Accessor env) ps) (props t)
                    (props raw).*1) true]>
             (upd_inners <[a := set_wrapData None o]> st)).
Proof.
  intros Ht He Ha Hd Hraw Hinit Hhard.
  unfold vom.wrapData_, bind, readData, vom.envInnerSelf, readInner.
  rewrite Ht, Hinit, He, Ha, Hd, Hraw.
  rewrite (forEach_defineAccessor env target _ t st Ht Hhard).
  simpl. rewrite He. unfold updInner, updData, modify. simpl.
  f_equal. unfold upd_datas, upd_inners. simpl. f_equal.
  - apply map_eq. intros i. destruct (decide (a = i)) as [<-|Hne].
    + by rewrite lookup_alter_eq, lookup_insert_eq, Ha.
    + by rewrite lookup_alter_ne, lookup_insert_ne.
  - apply map_eq. intros i. destruct (decide (target = i)) as [<-|Hne].
    + rewrite lookup_alter_eq, !lookup_insert_eq. simpl.
      unfold set_hardened. simpl. by rewrite Hinit.
    + by rewrite lookup_alter_ne, !lookup_insert_ne.
Qed.

(** X11.  [wrapData(target)] refuses a target that is still being
    initialized.  Otherwise it defines on the target an accessor
    property for each own property of the raw data, the other
    properties staying as they are, clears [innerSelf.wrapData] and
    hardens the target; from then on an assignment to one of these
    properties of the target runs the setter. *)
Theorem wrapData_installs_accessors fuel env target t a o d raw st :
  datas st !! target = Some t →
  environments (world st) !! env = Some a →
  inners st !! a = Some o → rawData o = Some d →
  datas st !! d = Some raw →
  (initializing t = true →
     vom.wrapData_ env target st = Throw StillInitializing st)
  ∧ (initializing t = false → hardened t = false →
       ∃ st' t',
         vom.wrapData_ env target st = Ok tt st'
         ∧ datas st' !! target = Some t'
         ∧ hardened t' = true ∧ initializing t' = false
         ∧ (∀ p, p ∈ (props raw).*1 → getOwn p (props t') = Some (Accessor env))
         ∧ (∀ p, p ∉ (props raw).*1 → getOwn p (props t') = getOwn p (props t))
         ∧ (∀ b, b ≠ target → datas st' !! b = datas st !! b)
         ∧ inners st' = <[a := set_wrapData None o]> (inners st)
         ∧ world st' = world st
         ∧ (∀ p v, p ∈ (props raw).*1 →
              vom.putProp co fuel target p v st' = vom.setter co fuel env p v st')).
Proof.
  intros Ht He Ha Hd Hraw. split.
  { intros Hinit. unfold vom.wrapData_, bind, readData. by rewrite Ht, Hinit. }
  intros Hinit Hhard.
  rewrite (wrapData_spec env target t a o d raw st) by done.
  set (ps' := foldl (λ ps p, setOwn p (Accessor env) ps) (props t) (props raw).*1).
  eexists _, (mkData false ps' true). split; [done|].
  split; [simpl; by rewrite lookup_insert_eq|].
  split; [done|]. split; [done|].
  split; [|split; [|split; [|split; [|split]]]].
  - intros p Hp. simpl. unfold ps'. rewrite defineAll_get. by rewrite decide_True.
  - intros p Hp. simpl. unfold ps'. rewrite defineAll_get. by rewrite decide_False.
  - intros b Hb. simpl. by rewrite lookup_insert_ne.
  - done.
  - done.
  - intros p v Hp. unfold vom.putProp, bind at 1, readData. simpl.
    rewrite lookup_insert_eq. simpl. unfold ps'. rewrite defineAll_get.
    by rewrite decide_True.
Qed.

(** *** [ensureState] *)

Lemma wf_upd_world (f : World Value → World Value) st l :
  wf st l → wf (upd_world f st) l.
Proof. intros Hwf. by apply (wf_agree st). Qed.

Lemma ensureState_spec fuel env a o st l :
  wf st l → length l + cacheSize st + 2 ≤ fuel →
  environments (world st) !! env = Some a →
  inners st !! a = Some o → rawData o = None →
  match liveTable st !! instanceKey o with
  | Some a0 =>
      ∃ c' l', vom.ensureState co fuel env st
               = Ok tt (upd_world (upd_environments <[env := a0]>) c')
        ∧ cache.lookup (vom.fetch co) (vom.store co) fuel (instanceKey o) st
          = Ok a0 c'
        ∧ wf c' (a0 :: l') ∧ relinked st c'
  | None =>
      match vom.fetch co (instanceKey o) (world st) with
      | inl e => vom.ensureState co fuel env st = Throw e st
      | inr content =>
          (∃ c' l',
             vom.ensureState co fuel env st
             = Ok tt (upd_world
                        (upd_environments <[env := fresh (dom (inners st))]>) c')
             ∧ cache.lookup (vom.fetch co) (vom.store co) fuel (instanceKey o) st
               = Ok (fresh (dom (inners st))) c'
             ∧ wf c' (fresh (dom (inners st)) :: l')
             ∧ keyOf (inners c') (fresh (dom (inners st))) = instanceKey o
             ∧ dataOf c' (fresh (dom (inners st))) = Some content
             ∧ environments (world c') = environments (world st))
          ∨ (∃ c', vom.ensureState co fuel env st = Throw CacheOverflow c'
               ∧ cacheSize st < countInit st l)
      end
  end.
Proof.
  intros Hwf Hfuel He Ha Hd.
  assert (Hens : vom.ensureState co fuel env st
            = match cache.lookup (vom.fetch co) (vom.store co) fuel
                      (instanceKey o) st with
              | Ok found c' =>
                  Ok tt (upd_world (upd_environments <[env := found]>) c')
              | Throw e c' => Throw e c'
              | Fail f => Fail f
              end).
  { unfold vom.ensureState, bind, vom.envInnerSelf, readInner.
    by rewrite He, Ha, Hd. }
  rewrite Hens.
  destruct (liveTable st !! instanceKey o) as [a0|] eqn:Hk.
  - destruct (lookup_hit (vom.fetch co) (vom.store co) fuel st l _ a0 Hwf Hk)
      as (l1 & l2 & c' & -> & Hlk & _ & Hwf' & Hrl & _).
    exists c', (l1 ++ l2). by rewrite Hlk.
  - pose proof (lookup_miss (vom.fetch co) (vom.store co) fuel st l _ Hwf Hk Hfuel)
      as Hm.
    destruct (vom.fetch co (instanceKey o) (world st)) as [e|content] eqn:Hf.
    { by rewrite Hm. }
    destruct Hm as (Hwf0 & Hd0 & Hk0 & c1 & kept & gone & Hsw & Hres).
    destruct Hres as [(c' & Hlk & Hrem & Hlen & Htab & Hins)|[Hlk Hcnt]].
    + left. exists c', kept. rewrite Hlk. split; [done|]. split; [done|].
      split; [apply Hins|].
      assert (Hsame : unlinked <$> inners c' !! fresh (dom (inners st))
                = unlinked <$> inners (fetched (instanceKey o) content st)
                                 !! fresh (dom (inners st))).
      { rewrite (ins_inners _ _ _ _ Hins).
        rewrite (sw_frame _ _ _ _ _ _ Hsw); [done|].
        intros Hin. destruct (wf_allocated st l _ Hwf Hin) as [o' Ho'].
        pose proof (is_fresh (dom (inners st))) as Hfr. apply Hfr.
        apply elem_of_dom. by exists o'. }
      split; [by rewrite (same_keyOf _ _ _ Hsame)|]. split.
      * rewrite <-Hd0. apply same_dataOf; [|done].
        rewrite (ins_datas _ _ _ _ Hins). apply Hsw.
      * rewrite (ins_world _ _ _ _ Hins), (sw_world _ _ _ _ _ _ Hsw).
        simpl. apply (store_fold_fields co).
    + right. exists c1. by rewrite Hlk.
Qed.

Lemma dataOf_Some st b obj :
  dataOf st b = Some obj ↔
  ∃ o d, inners st !! b = Some o ∧ rawData o = Some d ∧ datas st !! d = Some obj.
Proof.
  unfold dataOf. split.
  - destruct (inners st !! b) as [o|]; [|done].
    destruct (rawData o) as [d|] eqn:Hd; [|done]. eauto.
  - intros (o & d & -> & -> & ->). done.
Qed.

(** X12.  [ensureState()] does nothing when the inner self of the
    closure has raw data.  When it was evicted, [ensureState] looks the
    instance key up in the cache: when it returns, the closure's
    [innerSelf] is the resident inner self for this key, now at the
    head of the LRU list, with the raw data it had in the cache or,
    after a miss, the raw data [fetch] read back; it throws only on a
    miss, with the error of [fetch] in the same state, or with the
    overflow error. *)
Theorem ensureState_ensures fuel env a o st l :
  wf st l → length l + cacheSize st + 2 ≤ fuel →
  environments (world st) !! env = Some a →
  inners st !! a = Some o →
  (is_Some (rawData o) → vom.ensureState co fuel env st = Ok tt st)
  ∧ (rawData o = None →
       ((∃ st', vom.ensureState co fuel env st = Ok tt st')
        ∨ (∃ e st', vom.ensureState co fuel env st = Throw e st'
             ∧ liveTable st !! instanceKey o = None
             ∧ ((vom.fetch co (instanceKey o) (world st) = inl e ∧ st' = st)
                ∨ (e = CacheOverflow ∧ cacheSize st < countInit st l))))
       ∧ (∀ st', vom.ensureState co fuel env st = Ok tt st' →
            ∃ a' obj l',
              environments (world st') !! env = Some a'
              ∧ wf st' (a' :: l')
              ∧ keyOf (inners st') a' = instanceKey o
              ∧ dataOf st' a' = Some obj
              ∧ match liveTable st !! instanceKey o with
                | Some a0 => a' = a0 ∧ dataOf st a0 = Some obj
                | None => vom.fetch co (instanceKey o) (world st) = inr obj
                end)).
Proof.
  intros Hwf Hfuel He Ha. split.
  { intros [d Hd]. by apply (ensureState_resident fuel env a o d). }
  intros Hd.
  pose proof (ensureState_spec fuel env a o st l Hwf Hfuel He Ha Hd) as Hspec.
  destruct (liveTable st !! instanceKey o) as [a0|] eqn:Hk.
  - destruct Hspec as (c' & l' & Hens & Hlk & Hwf' & Hrl).
    split; [left; eauto|]. intros st'. rewrite Hens. intros [= <-].
    apply (wf_table_lookup st l) in Hk as [Hin Hkey]; [|done].
    pose proof (wf_data _ _ Hwf) as Hdata. rewrite Forall_forall in Hdata.
    destruct (Hdata a0 Hin) as [obj Hobj].
    exists a0, obj, l'. split; [simpl; by rewrite lookup_insert_eq|].
    split; [by apply wf_upd_world|].
    split; [simpl; by rewrite (relinked_keyOf st c')|].
    split; [|done].
    change (dataOf c' a0 = Some obj). by rewrite (relinked_dataOf st c').
  - destruct (vom.fetch co (instanceKey o) (world st)) as [e|content] eqn:Hf.
    { split; [right; eauto 10|]. by rewrite Hspec. }
    destruct Hspec as [(c' & l' & Hens & Hlk & Hwf' & Hkey & Hdata & _)|(c' & Hens & Hcnt)].
    + split; [left; eauto|]. intros st'. rewrite Hens. intros [= <-].
      exists (fresh (dom (inners st))), content, l'.
      split; [simpl; by rewrite lookup_insert_eq|].
      split; [by apply wf_upd_world|]. done.
    + split; [right; eauto 10|]. by rewrite Hens.
Qed.

(** *** State that was written out comes back *)

Lemma store_fold_vatstore_in (w : World Value) (es : list (string * DataObj)) k obj :
  NoDup es.*1 → (k, obj) ∈ es →
  vatstore (foldl (λ w kd, vom.store co kd.1 kd.2 w) w es) !! k
  = Some (Some (JSON_stringifyData co (props obj))).
Proof.
  induction es as [|[k' obj'] es IH] using rev_ind; [set_solver|].
  rewrite fmap_app, foldl_app. simpl. intros Hnd Hin.
  apply NoDup_app in Hnd as (Hnd & Hdisj & _).
  unfold vom.store at 1, vatstoreSet. simpl.
  apply elem_of_app in Hin as [Hin|Hin%list_elem_of_singleton].
  - rewrite lookup_insert_ne; [by apply IH|].
    intros <-. apply (Hdisj k'); [|set_solver].
    apply list_elem_of_fmap. by exists (k', obj).
  - injection Hin as <- <-. by rewrite lookup_insert_eq.
Qed.

Lemma entry_keys (c : State) l :
  Forall (λ a, is_Some (dataOf c a)) l →
  (omap (entry c) l).*1 = keyOf (inners c) <$> l.
Proof.
  induction 1 as [|a l [obj Hobj] _ IH]; [done|].
  change (omap (entry c) (a :: l))
    with (match entry c a with
          | Some y => y :: omap (entry c) l
          | None => omap (entry c) l
          end).
  assert (entry c a = Some (keyOf (inners c) a, obj)) as ->.
  { unfold entry. by rewrite Hobj. }
  rewrite !fmap_cons. simpl. by rewrite IH.
Qed.

Lemma getter_after fuel env prop st st' :
  vom.ensureState co fuel env st = Ok tt st' →
  vom.ensureState co fuel env st' = Ok tt st' →
  vom.getter co fuel env prop st = vom.getter co fuel env prop st'.
Proof.
  intros H1 H2. unfold vom.getter. unfold bind at 1. rewrite H1.
  symmetry. unfold bind at 1. by rewrite H2.
Qed.

(** The state [flushCache] leaves when nothing is being initialized. *)
Lemma flushCache_spec fuel st l :
  wf st l → Forall (λ b, isInit st b = false) l → length l + 2 ≤ fuel →
  ∃ st1, vom.flushCache co fuel st = Ok tt st1
    ∧ wf st1 [] ∧ cacheSize st1 = cacheSize st ∧ datas st1 = datas st
    ∧ environments (world st1) = environments (world st)
    ∧ representatives (world st1) = representatives (world st)
    ∧ valToSlotTable (world st1) = valToSlotTable (world st)
    ∧ kindTable (world st1) = kindTable (world st)
    ∧ (∀ a o d obj, a ∈ l → inners st !! a = Some o → rawData o = Some d →
         datas st !! d = Some obj →
         (∃ o1, inners st1 !! a = Some o1
            ∧ instanceKey o1 = instanceKey o ∧ rawData o1 = None
            ∧ wrapData o1 = wrapData o)
         ∧ vatstore (world st1) !! instanceKey o
           = Some (Some (JSON_stringifyData co (props obj))))
    ∧ (∀ b, b ∉ l → inners st1 !! b = inners st !! b).
Proof.
  intros Hwf Hno Hfuel.
  destruct (flush_spec (vom.store co) fuel st l Hwf Hfuel)
    as (c1 & kept & gone & Hsw & Hres).
  destruct Hres as [[Hfl ->]|[_ Hcnt]]; cycle 1.
  { exfalso. unfold countInit in Hcnt. rewrite count_none in Hcnt; [lia|done]. }
  exists (set_cacheSize (cacheSize st) c1). split; [done|].
  pose proof (sw_perm _ _ _ _ _ _ Hsw) as Hperm. simpl in Hperm.
  pose proof (store_fold_fields co (world (set_cacheSize 0 st))
                (omap (entry (set_cacheSize 0 st)) gone))
    as Hfields. cbv zeta in Hfields.
  rewrite <-(sw_world _ _ _ _ _ _ Hsw) in Hfields.
  destruct Hfields as (Hv & _ & _ & Hkt & _ & _ & _ & Hreps & Henv).
  split; [apply wf_set_cacheSize, Hsw|]. split; [done|].
  split; [apply Hsw|]. split; [done|]. split; [done|]. split; [done|].
  split; [done|]. split.
  - intros a o d obj Ha Ho Hd Hobj. rewrite Hperm in Ha. split.
    + pose proof (sw_gone _ _ _ _ _ _ Hsw a Ha) as Hg. simpl in Hg.
      rewrite Ho in Hg. simpl in Hg.
      change (inners (set_cacheSize (cacheSize st) c1) !! a) with (inners c1 !! a).
      destruct (inners c1 !! a) as [o1|]; [|done].
      injection Hg as Hk Hr Hw. by exists o1.
    + change (world (set_cacheSize (cacheSize st) c1)) with (world c1).
      rewrite (sw_world _ _ _ _ _ _ Hsw).
      apply store_fold_vatstore_in.
      * rewrite entry_keys by apply Hsw.
        change (inners (set_cacheSize 0 st)) with (inners st).
        rewrite <-Hperm. apply Hwf.
      * apply list_elem_of_omap. exists a. split; [done|].
        unfold entry, dataOf, keyOf. simpl. by rewrite Ho, Hd, Hobj.
  - intros b Hb. apply (sw_frame _ _ _ _ _ _ Hsw b Hb).
Qed.

(** The cache once it was flushed and the state of an instance was
    read back by [ensureState]. *)
Lemma reload_after_flush fuel env a o d obj st l :
  wf st l → Forall (λ b, isInit st b = false) l →
  length l + cacheSize st + 2 ≤ fuel →
  environments (world st) !! env = Some a → a ∈ l →
  inners st !! a = Some o → rawData o = Some d → datas st !! d = Some obj →
  JSON_parseData co (JSON_stringifyData co (props obj)) = Some (props obj) →
  ∃ st1 st2,
    vom.flushCache co fuel st = Ok tt st1
    ∧ liveTable st1 = ∅
    ∧ vatstoreGet (instanceKey o) (world st1)
      = Some (JSON_stringifyData co (props obj))
    ∧ vom.ensureState co fuel env st1 = Ok tt st2
    ∧ liveTable st2 !! instanceKey o = Some (fresh (dom (inners st1)))
    ∧ environments (world st2) !! env = Some (fresh (dom (inners st1)))
    ∧ dataOf st2 (fresh (dom (inners st1)))
      = Some (mkData false (props obj) false).
Proof.
  intros Hwf Hno Hfuel He Ha Ho Hd Hobj Hjson.
  destruct (flushCache_spec fuel st l Hwf Hno) as (st1 & Hfl & Hwf1 & Hsize & Hdatas
    & Henv & _ & _ & _ & Hgone & _); [lia|].
  destruct (Hgone a o d obj Ha Ho Hd Hobj) as [(o1 & Ho1 & Hkey & Hraw & _) Hvat].
  assert (Htab : liveTable st1 = ∅) by by rewrite (wf_table _ _ Hwf1).
  assert (Hfetch : vom.fetch co (instanceKey o1) (world st1)
            = inr (mkData false (props obj) false)).
  { unfold vom.fetch, vatstoreGet. by rewrite Hkey, Hvat, Hjson. }
  assert (He1 : environments (world st1) !! env = Some a) by by rewrite Henv.
  assert (Hfuel1 : length (@nil addr) + cacheSize st1 + 2 ≤ fuel) by (simpl; lia).
  pose proof (ensureState_spec fuel env a o1 st1 [] Hwf1 Hfuel1 He1 Ho1 Hraw)
    as Hspec.
  rewrite Htab, lookup_empty, Hfetch in Hspec.
  destruct Hspec as [(c' & l' & Hens & Hlk & Hwf' & Hk' & Hd' & He')|(c' & _ & Hcnt)];
    [|unfold countInit in Hcnt; simpl in Hcnt; lia].
  set (a' := fresh (dom (inners st1))) in *.
  set (st2 := upd_world (upd_environments <[env := a']>) c') in *.
  exists st1, st2. split; [done|]. split; [done|].
  split; [unfold vatstoreGet; by rewrite Hvat|]. split; [done|].
  split.
  { change (liveTable st2) with (liveTable c'). rewrite <-Hkey, <-Hk'.
    apply (wf_table_lookup c' _ _ _ Hwf'). split; [set_solver|done]. }
  split; [unfold st2; simpl; by rewrite lookup_insert_eq|done].
Qed.

(** X13.  State survives eviction.  When nothing is being initialized,
    [flushCache] returns and leaves the raw data of each resident in the
    vatstore under its instance key; if JSON reads back the properties
    it wrote, the getter then returns for each property what it
    returned before the cache was flushed, after reading the state
    back into the cache. *)
Theorem state_survives_flush fuel env prop a o d obj st l :
  wf st l → Forall (λ b, isInit st b = false) l →
  length l + cacheSize st + 2 ≤ fuel →
  environments (world st) !! env = Some a → a ∈ l →
  inners st !! a = Some o → rawData o = Some d → datas st !! d = Some obj →
  JSON_parseData co (JSON_stringifyData co (props obj)) = Some (props obj) →
  ∃ st1 st2,
    vom.flushCache co fuel st = Ok tt st1
    ∧ liveTable st1 = ∅
    ∧ vatstoreGet (instanceKey o) (world st1)
      = Some (JSON_stringifyData co (props obj))
    ∧ vom.ensureState co fuel env st1 = Ok tt st2
    ∧ liveTable st2 !! instanceKey o = Some (fresh (dom (inners st1)))
    ∧ vom.getter co fuel env prop st1
      = in_state (vom.getter co fuel env prop st) st2.
Proof.
  intros Hwf Hno Hfuel He Ha Ho Hd Hobj Hjson.
  destruct (reload_after_flush fuel env a o d obj st l)
    as (st1 & st2 & Hfl & Htab & Hvat & Hens & Hres & He2 & Hdata); try done.
  exists st1, st2. repeat (split; [done|]).
  apply dataOf_Some in Hdata as (o' & d' & Ho' & Hr' & Hdat').
  rewrite (getter_after fuel env prop st1 st2 Hens);
    [|by apply (ensureState_resident fuel env (fresh (dom (inners st1))) o' d')].
  rewrite (getter_resident fuel env prop (fresh (dom (inners st1))) o' d' _ st2
             He2 Ho' Hr' Hdat').
  rewrite (getter_resident fuel env prop a o d _ st He Ho Hd Hobj).
  simpl. destruct (getOwn prop (props obj)) as [[?|g|?]|]; try done.
  by destruct (m_unserialize co g).
Qed.

End AccessorProperties.

(** ** More on kinds and instances *)

Section InstanceProperties.
Context {Value Ground : Type}.
Local Abbreviation Slot := (Slot Value Ground).
Local Abbreviation DataObj := (DataObj Value Ground).
Local Abbreviation State := (Cache Value Ground (World Value)).
Context (co : Collaborators Value Ground).
Implicit Types (st : State) (l : list addr).

Lemma assignAll_NoDup asg (ps : list (string * Slot)) :
  NoDup ps.*1 → NoDup (assignAll (Ground:=Ground) asg ps).*1.
Proof.
  revert ps. induction asg as [|pv asg IH]; intros ps Hps; simpl; [done|].
  apply IH. by apply setOwn_NoDup.
Qed.

Lemma assignAll_ordered asg (ps : list (string * Slot)) :
  ordered ps.*1 → ordered (assignAll (Ground:=Ground) asg ps).*1.
Proof.
  revert ps. induction asg as [|pv asg IH]; intros ps Hps; simpl; [done|].
  apply IH. by apply setOwn_ordered.
Qed.

Lemma initialProps_shape (kind : Kind Value) args :
  Forall plain (initialProps (Ground:=Ground) kind args)
  ∧ NoDup (initialProps (Ground:=Ground) kind args).*1
  ∧ ordered (initialProps (Ground:=Ground) kind args).*1.
Proof.
  unfold initialProps. destruct (initialize kind) as [init|].
  - split; [by apply assignAll_plain|].
    split; [apply assignAll_NoDup; constructor|by apply assignAll_ordered].
  - repeat split; constructor.
Qed.

Lemma encodeProp_Some k (x : Slot) y :
  encodeProp co (k, x) = Some y →
  ∃ v g, x = Plain v ∧ m_serialize co v = inr g ∧ y = (k, Encoded g).
Proof.
  unfold encodeProp. simpl. destruct x as [v| |]; try done.
  destruct (m_serialize co v) as [e|g] eqn:Hs; [done|].
  intros [= <-]. by exists v, g.
Qed.



(** The loop over the own properties of [initialData], when the
    marshaller accepts them all. *)
Lemma forEach_serialize_ok (c : State) d1 r ps enc :
  datas c !! d1 = Some r → encodeAll co ps = Some enc →
  NoDup ((props r).*1 ++ ps.*1) → ordered ((props r).*1 ++ ps.*1) →
  vom.forEach (vom.serializeProp co d1) ps c
  = Ok tt (upd_datas <[d1 := set_props (props r ++ enc) r]> c).
Proof.
  revert c r enc.
  induction ps as [|[k x] ps IH]; intros c r enc Hd; simpl.
  - intros [= <-] _ _. rewrite app_nil_r. unfold ret. f_equal.
    symmetry. rewrite <-(upd_datas_insert_id c d1 r Hd) at 2. by destruct r.
  - destruct (encodeProp co (k, x)) as [y|] eqn:Hy; [|done].
    apply encodeProp_Some in Hy as (v & g & -> & Hs & ->).
    destruct (encodeAll co ps) as [enc'|] eqn:Henc; [|done].
    intros [= <-] Hnd Hord.
    unfold bind, vom.serializeProp. simpl. rewrite Hs.
    unfold bind, readData. rewrite Hd. unfold updData, modify.
    apply NoDup_app in Hnd as (Hnd1 & Hdisj & Hnd2).
    apply NoDup_cons in Hnd2 as [Hk Hnd2].
    rewrite setOwn_notin;
      [|intros Hin; apply (Hdisj k Hin); set_solver
       |apply Forall_forall; intros a Ha;
        apply (ordered_app _ _ Hord a k Ha); set_solver].
    rewrite (IH _ (set_props (props r ++ [(k, Encoded g)]) r) enc');
      [| |done| |].
    + rewrite upd_datas_insert_alter. simpl. by rewrite <-app_assoc.
    + simpl. by rewrite lookup_alter_eq, Hd.
    + simpl. rewrite fmap_app. simpl. apply NoDup_app. split; [|split; [|done]].
      * apply NoDup_app. split; [done|]. split; [|apply NoDup_singleton].
        intros y Hy ->%list_elem_of_singleton. apply (Hdisj k Hy). set_solver.
      * intros y [Hy| ->%list_elem_of_singleton]%elem_of_app Hin; [|done].
        apply (Hdisj y Hy). set_solver.
    + simpl. rewrite fmap_app, <-app_assoc. exact Hord.
Qed.

Lemma serializeState_ok (c : State) d0 obj enc :
  datas c !! d0 = Some obj → encodeAll co (props obj) = Some enc →
  NoDup (props obj).*1 → ordered (props obj).*1 →
  vom.serializeState co d0 c
  = Ok (fresh (dom (datas c)))
      (upd_datas <[fresh (dom (datas c)) := mkData false enc false]>
         (upd_datas <[d0 := set_initializing false obj]> c)).
Proof.
  intros Hd Henc Hnd Hord.
  set (c1 := upd_datas (alter (set_initializing false) d0) c).
  assert (Hdom : dom (datas c1) = dom (datas c)).
  { unfold c1. simpl. apply dom_alter_L. }
  assert (Hc1 : c1 = upd_datas <[d0 := set_initializing false obj]> c).
  { unfold c1, upd_datas. f_equal. apply map_eq. intros i.
    destruct (decide (d0 = i)) as [<-|Hne].
    - by rewrite lookup_alter_eq, lookup_insert_eq, Hd.
    - by rewrite lookup_alter_ne, lookup_insert_ne. }
  set (d1 := fresh (dom (datas c))).
  assert (Hne : d1 ≠ d0).
  { intros Heq. pose proof (is_fresh (dom (datas c))) as Hfr.
    apply not_elem_of_dom in Hfr. fold d1 in Hfr. rewrite Heq in Hfr. congruence. }
  unfold vom.serializeState, bind, updData, modify, allocData, readData.
  fold c1. rewrite Hdom. fold d1.
  set (c2 := upd_datas <[d1 := mkData false [] false]> c1).
  assert (Hd0 : datas c2 !! d0 = Some (set_initializing false obj)).
  { unfold c2. simpl. rewrite lookup_insert_ne by done.
    unfold c1. simpl. by rewrite lookup_alter_eq, Hd. }
  rewrite Hd0. simpl.
  rewrite (forEach_serialize_ok c2 d1 (mkData false [] false) (props obj) enc);
    [| |done|done|done].
  - simpl. unfold ret. f_equal. rewrite <-Hc1. unfold c2, upd_datas. simpl.
    f_equal. by rewrite insert_insert_eq.
  - unfold c2. simpl. by rewrite lookup_insert_eq.
Qed.

(** *** The shape of the cache under changes that keep the links *)

Lemma chain_same_links (h h' : gmap addr InnerSelf) p l n :
  (∀ b, b ∈ l → ∃ o o', h !! b = Some o ∧ h' !! b = Some o'
     ∧ prev o' = prev o ∧ next o' = next o) →
  chain h p l n → chain h' p l n.
Proof.
  revert p. induction l as [|a l IH]; intros p Hsame; simpl; [done|].
  intros [(o & Ho & Hp & Hn) Hc]. split.
  - destruct (Hsame a) as (o1 & o' & Ho1 & Ho' & Hp' & Hn'); [set_solver|].
    rewrite Ho in Ho1. injection Ho1 as <-. exists o'. by rewrite Hp', Hn'.
  - apply IH; [|done]. intros b Hb. apply Hsame. set_solver.
Qed.

Lemma wf_same_links (c c' : State) l :
  wf c l →
  lruHead c' = lruHead c → lruTail c' = lruTail c →
  liveTable c' = liveTable c →
  (∀ b, b ∈ l → ∃ o o', inners c !! b = Some o ∧ inners c' !! b = Some o'
     ∧ instanceKey o' = instanceKey o ∧ prev o' = prev o ∧ next o' = next o) →
  (∀ b, b ∈ l → is_Some (dataOf c' b)) →
  wf c' l.
Proof.
  intros Hwf Hhd Htl Htab Hsame Hdata.
  assert (Hkey : ∀ b, b ∈ l → keyOf (inners c') b = keyOf (inners c) b).
  { intros b Hb. destruct (Hsame b Hb) as (o & o' & Ho & Ho' & Hk & _).
    unfold keyOf. by rewrite Ho, Ho'. }
  split.
  - rewrite Hhd. apply Hwf.
  - rewrite Htl. apply Hwf.
  - apply (chain_same_links (inners c)); [|apply Hwf].
    intros b Hb. destruct (Hsame b Hb) as (o & o' & Ho & Ho' & _ & Hp & Hn).
    by exists o, o'.
  - rewrite (list_fmap_ext (keyOf (inners c')) (keyOf (inners c)) l);
      [apply Hwf|].
    intros i b Hb. apply Hkey. by eapply list_elem_of_lookup_2.
  - rewrite Htab, (wf_table _ _ Hwf). f_equal.
    apply list_fmap_ext. intros i b Hb. unfold row.
    rewrite Hkey; [done|]. by eapply list_elem_of_lookup_2.
  - by apply Forall_forall.
Qed.

(** *** [makeRepresentative] on a new inner self *)

Lemma makeRepresentative_fresh fuel (s3 : State) l kind a0 key d0 obj0 :
  wf s3 l → length l + cacheSize s3 + 2 ≤ fuel →
  a0 ∉ l →
  inners s3 !! a0 = Some (mkInner key (Some d0) None None None) →
  datas s3 !! d0 = Some obj0 →
  liveTable s3 !! key = None →
  (∃ s kept,
     vom.makeRepresentative co fuel kind a0 true s3
     = Ok (fresh (dom (representatives (world s3)))) s
     ∧ wf s (a0 :: kept) ∧ kept ⊆ l
     ∧ cacheSize s = cacheSize s3 ∧ datas s = datas s3
     ∧ (∃ o, inners s !! a0 = Some o ∧ instanceKey o = key
          ∧ rawData o = Some d0
          ∧ wrapData o = Some (fresh (dom (environments (world s3)))))
     ∧ environments (world s)
       = <[fresh (dom (environments (world s3))) := a0]>
           (environments (world s3))
     ∧ representatives (world s)
       = <[fresh (dom (representatives (world s3)))
             := mkRep (bool_decide (is_Some (initialize kind))) false (Some d0)]>
           (representatives (world s3))
     ∧ valToSlotTable (world s)
       = <[RepRef (fresh (dom (representatives (world s3)))) := key]>
           (valToSlotTable (world s3))
     ∧ nextInstanceID (world s) = nextInstanceID (world s3)
     ∧ kindTable (world s) = kindTable (world s3)
     ∧ console (world s) = console (world s3)
     ∧ vatstore (world s) !! key = vatstore (world s3) !! key)
  ∨ (∃ s, vom.makeRepresentative co fuel kind a0 true s3 = Throw CacheOverflow s
       ∧ cacheSize s3 < countInit s3 l).
Proof.
  intros Hwf Hfuel Ha0l Ha0 Hd0 Hkey.
  set (env := fresh (dom (environments (world s3)))).
  set (rep := fresh (dom (representatives (world s3)))).
  set (o6 := mkInner key (Some d0) None None (Some env)).
  set (s6 := upd_world
      (upd_representatives
         <[rep := mkRep (bool_decide (is_Some (initialize kind))) false (Some d0)]>)
      (upd_inners (alter (set_wrapData (Some env)) a0)
         (upd_world (upd_environments <[env := a0]>) s3))).
  assert (Heq : vom.makeRepresentative co fuel kind a0 true s3 =
    match cache.remember (vom.store co) fuel a0 s6 with
    | Ok _ s7 =>
        match inners s7 !! a0 with
        | Some o7 =>
            Ok rep (upd_world
                      (upd_valToSlotTable <[RepRef rep := instanceKey o7]>) s7)
        | None => Fail Dangling
        end
    | Throw e s => Throw e s
    | Fail f => Fail f
    end).
  { unfold vom.makeRepresentative, bind, vom.allocEnv, updInner, modify,
      readInner, vom.instanceMaker, vom.allocRep, vom.envInnerSelf,
      vom.modifyW, modify, ret.
    simpl. rewrite lookup_alter_eq, Ha0. simpl. rewrite lookup_insert_eq.
    fold env. fold rep. fold s6.
    destruct (cache.remember (vom.store co) fuel a0 s6); try done.
    by destruct (inners s !! a0). }
  rewrite Heq. clear Heq.
  assert (Ha6 : inners s6 !! a0 = Some o6).
  { unfold s6. simpl. by rewrite lookup_alter_eq, Ha0. }
  assert (Hag : ∀ b, b ∈ l → inners s6 !! b = inners s3 !! b).
  { intros b Hb. unfold s6. simpl. rewrite lookup_alter_ne; [done|].
    by intros ->. }
  assert (Hwf6 : wf s6 l).
  { eapply wf_agree; [exact Hwf|done..|exact Hag|].
    intros b Hb. unfold dataOf. by rewrite Hag. }
  assert (Hd6 : dataOf s6 a0 = Some obj0).
  { unfold dataOf. rewrite Ha6. simpl. done. }
  assert (Hcnt : countInit s6 l = countInit s3 l).
  { apply count_ext. intros b Hb. unfold isInit, dataOf. by rewrite Hag. }
  destruct (remember_absent (vom.store co) fuel s6 l a0 o6 Hwf6 Ha6)
    as (_ & c1 & kept & gone & Hsw & Hres); [by rewrite Hd6|done|done|].
  assert (Hkeys : Forall (λ kd : string * DataObj, kd.1 ≠ key)
                    (omap (entry s6) gone)).
  { apply Forall_forall. intros kd (b & Hb & Hkd)%list_elem_of_omap Hk.
    assert (Hbl : b ∈ l).
    { rewrite (sw_perm _ _ _ _ _ _ Hsw). set_solver. }
    assert (liveTable s6 !! key = Some b) as Hcontra;
      [|change (liveTable s6) with (liveTable s3) in Hcontra; congruence].
    apply (wf_table_lookup s6 l); [done|]. split; [done|].
    unfold entry in Hkd. destruct (dataOf s6 b); [|done].
    injection Hkd as <-. done. }
  pose proof (store_fold_fields co (world s6) (omap (entry s6) gone)) as Hfields.
  cbv zeta in Hfields. rewrite <-(sw_world _ _ _ _ _ _ Hsw) in Hfields.
  destruct Hfields as (Hv2s & _ & Hcon & Hkt & Hni & _ & _ & Hreps & Henvs).
  pose proof (store_fold_vatstore co (world s6) _ key Hkeys) as Hvat.
  rewrite <-(sw_world _ _ _ _ _ _ Hsw) in Hvat.
  destruct Hres as [(s7 & Hrem & _ & _ & _ & Hins)|[Hrem Hover]].
  - left. rewrite Hrem.
    assert (Ha7 : unlinked <$> inners s7 !! a0 = unlinked <$> inners s6 !! a0).
    { rewrite (ins_inners _ _ _ _ Hins).
      by rewrite (sw_frame _ _ _ _ _ _ Hsw). }
    rewrite Ha6 in Ha7. destruct (inners s7 !! a0) as [o7|] eqn:Ho7; [|done].
    injection Ha7 as Hk7 Hr7 Hw7.
    eexists _, kept. split; [reflexivity|]. rewrite Hk7.
    split; [apply wf_upd_world, Hins|].
    split; [intros b Hb; rewrite (sw_perm _ _ _ _ _ _ Hsw); set_solver|].
    split; [simpl; rewrite (ins_size _ _ _ _ Hins); apply Hsw|].
    split; [simpl; rewrite (ins_datas _ _ _ _ Hins); apply Hsw|].
    split; [by exists o7|].
    simpl. rewrite (ins_world _ _ _ _ Hins).
    rewrite Henvs, Hreps, Hv2s, Hni, Hkt, Hcon, Hvat. done.
  - right. rewrite Hrem. exists c1. split; [done|]. by rewrite <-Hcnt.
Qed.

(** *** [makeNewInstance] when it returns *)

Lemma runInitialize_new fuel (c : State) kind rep d0 args :
  representatives (world c) !! rep
  = Some (mkRep (bool_decide (is_Some (initialize kind))) false (Some d0)) →
  datas c !! d0 = Some (mkData true [] false) →
  vom.runInitialize co fuel kind rep d0 args c
  = Ok tt (upd_datas <[d0 := mkData true (initialProps kind args) false]>
             (upd_world
                (upd_representatives <[rep := mkRep false false (Some d0)]>) c)).
Proof.
  intros Hrep Hd. unfold initialProps.
  destruct (initialize kind) as [init|] eqn:Hinit.
  - rewrite bool_decide_eq_true_2 in Hrep by eauto.
    rewrite (runInitialize_spec co fuel c kind init rep _ d0 true [] args Hrep);
      [|done|done|done|done].
    f_equal. f_equal. unfold upd_world, upd_representatives. simpl.
    f_equal. f_equal. apply map_eq. intros i.
    destruct (decide (rep = i)) as [<-|Hne].
    + by rewrite lookup_alter_eq, lookup_insert_eq, Hrep.
    + by rewrite lookup_alter_ne, lookup_insert_ne.
  - rewrite bool_decide_eq_false_2 in Hrep by (by intros [? ?]).
    unfold vom.runInitialize, bind, vom.readRep. rewrite Hrep. simpl.
    unfold ret. f_equal. unfold upd_datas, upd_world, upd_representatives.
    simpl. rewrite !insert_id by done. destruct c as [? ? ? ? ? ? ? w].
    simpl. by destruct w.
Qed.


Lemma makeNewInstance_spec fuel st l kindID kind args n enc :
  wf st l → length l + cacheSize st + 2 ≤ fuel →
  nextInstanceID (world st) !! kindID = Some n →
  liveTable st !! ("o+" +:+ kindID +:+ "/" +:+ pretty n) = None →
  encodeAll co (initialProps kind args) = Some enc →
  (∃ st' kept o,
     vom.makeNewInstance co fuel kindID kind args st
     = Ok (fresh (dom (representatives (world st)))) st'
     ∧ wf st' (fresh (dom (inners st)) :: kept) ∧ kept ⊆ l
     ∧ cacheSize st' = cacheSize st
     ∧ inners st' !! fresh (dom (inners st)) = Some o
     ∧ instanceKey o = "o+" +:+ kindID +:+ "/" +:+ pretty n
     ∧ rawData o = Some (fresh (dom (<[fresh (dom (datas st)) :=
                                         mkData true [] false]> (datas st))))
     ∧ wrapData o = None
     ∧ datas st' !! fresh (dom (<[fresh (dom (datas st)) :=
                                    mkData true [] false]> (datas st)))
       = Some (mkData false enc false)
     ∧ datas st' !! fresh (dom (datas st))
       = Some (mkData false
                 (foldl (λ ps p, setOwn p (Accessor
                                   (fresh (dom (environments (world st))))) ps)
                    (initialProps kind args) enc.*1) true)
     ∧ (∀ d, d ≠ fresh (dom (datas st)) →
          d ≠ fresh (dom (<[fresh (dom (datas st)) :=
                              mkData true [] false]> (datas st))) →
          datas st' !! d = datas st !! d)
     ∧ environments (world st')
       = <[fresh (dom (environments (world st))) := fresh (dom (inners st))]>
           (environments (world st))
     ∧ representatives (world st')
       = <[fresh (dom (representatives (world st)))
             := mkRep false false (Some (fresh (dom (datas st))))]>
           (representatives (world st))
     ∧ valToSlotTable (world st')
       = <[RepRef (fresh (dom (representatives (world st))))
             := "o+" +:+ kindID +:+ "/" +:+ pretty n]>
           (valToSlotTable (world st))
     ∧ nextInstanceID (world st')
       = <[kindID := n + 1]> (nextInstanceID (world st))
     ∧ kindTable (world st') = kindTable (world st)
     ∧ console (world st') = console (world st)
     ∧ vatstore (world st') !! ("o+" +:+ kindID +:+ "/" +:+ pretty n)
       = vatstore (world st) !! ("o+" +:+ kindID +:+ "/" +:+ pretty n))
  ∨ (∃ st', vom.makeNewInstance co fuel kindID kind args st
            = Throw CacheOverflow st'
       ∧ cacheSize st < countInit st l).
Proof.
  intros Hwf Hfuel Hn Hkey Henc.
  set (key := "o+" +:+ kindID +:+ "/" +:+ pretty n) in *.
  set (d0 := fresh (dom (datas st))).
  set (a0 := fresh (dom (inners st))).
  set (s3 := upd_inners <[a0 := mkInner key (Some d0) None None None]>
               (upd_datas <[d0 := mkData true [] false]>
                  (upd_world (upd_nextInstanceID <[kindID := n + 1]>) st))).
  remember (vom.makeNewInstance co fuel kindID kind args st) as R eqn:HR.
  unfold vom.makeNewInstance in HR.
  unfold bind at 1, vom.getsW at 1, gets at 1 in HR. rewrite Hn in HR.
  fold key in HR.
  unfold bind at 1, vom.modifyW at 1, modify at 1 in HR.
  unfold bind at 1, allocData at 1 in HR.
  unfold bind at 1, allocInner at 1 in HR.
  cbn [datas inners upd_world upd_datas upd_inners] in HR.
  fold d0 in HR. fold a0 in HR. fold s3 in HR.
  assert (Ha0 : inners s3 !! a0 = Some (mkInner key (Some d0) None None None)).
  { unfold s3. simpl. by rewrite lookup_insert_eq. }
  assert (Hd0 : datas s3 !! d0 = Some (mkData true [] false)).
  { unfold s3. simpl. by rewrite lookup_insert_eq. }
  destruct (wf_fresh_objects st s3 l Hwf) as [Hwf3 Hag]; try done.
  { intros b Hb. unfold s3. simpl. by rewrite lookup_insert_ne. }
  { intros d Hd. unfold s3. simpl. by rewrite lookup_insert_ne. }
  assert (Ha0l : a0 ∉ l).
  { intros Hin. destruct (wf_allocated st l _ Hwf Hin) as [x Hx].
    pose proof (is_fresh (dom (inners st))) as Hfr.
    apply not_elem_of_dom in Hfr. fold a0 in Hfr. congruence. }
  assert (Hcnt : countInit s3 l = countInit st l).
  { apply count_ext. intros b Hb. unfold isInit.
    by destruct (Hag b Hb) as [_ ->]. }
  unfold bind at 1 in HR.
  destruct (makeRepresentative_fresh fuel s3 l kind a0 key d0 _ Hwf3 Hfuel Ha0l Ha0 Hd0 Hkey)
    as [(s & kept & Hmk & Hwfs & Hkept & Hsize & Hds & (o & Ho & Hok & Hor & How)
         & Henvs & Hreps & Hv2s & Hni & Hkt & Hcon & Hvat)|(s & Hmk & Hover)];
    rewrite Hmk in HR; cycle 1.
  { right. exists s. subst R. split; [done|]. by rewrite <-Hcnt. }
  left.
  change (representatives (world s3)) with (representatives (world st)) in *.
  change (environments (world s3)) with (environments (world st)) in *.
  set (rep := fresh (dom (representatives (world st)))) in *.
  set (env := fresh (dom (environments (world st)))) in *.
  unfold bind at 1 in HR.
  rewrite (runInitialize_new fuel s kind rep d0 args) in HR;
    [|by rewrite Hreps, lookup_insert_eq|by rewrite Hds].
  set (s1 := upd_datas _ (upd_world _ s)) in HR.
  unfold bind at 1 in HR.
  destruct (initialProps_shape kind args) as (Hplain & Hnd & Hord).
  rewrite (serializeState_ok s1 d0 (mkData true (initialProps kind args) false) enc)
    in HR; [|unfold s1; simpl; by rewrite lookup_insert_eq|done|done|done].
  assert (Hdom1 : dom (datas s1) = dom (<[d0 := mkData true [] false]> (datas st))).
  { unfold s1. simpl. rewrite Hds. unfold s3. simpl.
    rewrite !dom_insert_L. set_solver. }
  rewrite Hdom1 in HR.
  set (d1 := fresh (dom (<[d0 := mkData true [] false]> (datas st)))) in *.
  assert (Hd10 : d1 ≠ d0).
  { intros Heq. pose proof (is_fresh (dom (<[d0 := mkData true [] false]> (datas st))))
      as Hfr. fold d1 in Hfr. rewrite Heq in Hfr. apply Hfr.
    rewrite dom_insert_L. set_solver. }
  set (s2 := upd_datas <[d1 := mkData false enc false]> (upd_datas _ s1)) in HR.
  unfold bind at 1, updInner at 1, modify at 1 in HR.
  unfold bind at 1, readInner at 1 in HR.
  cbn [inners upd_inners upd_datas upd_world] in HR.
  rewrite lookup_alter_eq in HR.
  change (inners s2) with (inners s) in HR. rewrite Ho in HR.
  cbn [fmap option_fmap option_map set_rawData wrapData] in HR. rewrite How in HR.
  set (s4 := upd_inners (alter (set_rawData (Some d1)) a0) s2) in HR.
  unfold bind at 1 in HR.
  rewrite (wrapData_spec env d0
             (mkData false (initialProps kind args) false) a0
             (set_rawData (Some d1) o) d1 (mkData false enc false) s4) in HR;
    cycle 1.
  { unfold s4, s2. simpl. by rewrite lookup_insert_ne, lookup_insert_eq. }
  { unfold s4, s2, s1. simpl. by rewrite Henvs, lookup_insert_eq. }
  { unfold s4. simpl. change (inners s2) with (inners s).
    by rewrite lookup_alter_eq, Ho. }
  { done. }
  { unfold s4, s2. simpl. by rewrite lookup_insert_eq. }
  { done. }
  { done. }
  cbn [props] in HR. unfold ret in HR.
  eexists _, kept, (set_wrapData None (set_rawData (Some d1) o)).
  split; [exact HR|]. clear HR R.
  split.
  { eapply (wf_same_links s); [exact Hwfs|done|done|done| |].
    - intros b Hb. simpl. change (inners s2) with (inners s).
      destruct (decide (b = a0)) as [->|Hne].
      + exists o, (set_wrapData None (set_rawData (Some d1) o)).
        by rewrite lookup_insert_eq.
      + destruct (wf_allocated s _ b Hwfs Hb) as [ob Hob].
        exists ob, ob. by rewrite lookup_insert_ne, lookup_alter_ne.
    - intros b Hb. unfold dataOf. simpl. change (inners s2) with (inners s).
      destruct (decide (b = a0)) as [->|Hne].
      + rewrite lookup_insert_eq. simpl.
        rewrite lookup_insert_ne, lookup_insert_eq by done. eauto.
      + rewrite lookup_insert_ne, lookup_alter_ne by done.
        pose proof (wf_data _ _ Hwfs) as Hdata. rewrite Forall_forall in Hdata.
        destruct (Hdata b Hb) as [x Hx]. unfold dataOf in Hx.
        destruct (inners s !! b) as [ob|]; [|done].
        destruct (rawData ob) as [db|]; [|done].
        destruct (decide (db = d0)) as [->|Hdb0];
          [rewrite lookup_insert_eq; eauto|].
        rewrite lookup_insert_ne by done.
        destruct (decide (db = d1)) as [->|Hdb1];
          [rewrite lookup_insert_eq; eauto|].
        rewrite lookup_insert_ne by done.
        unfold s1. simpl. rewrite !lookup_insert_ne by done. eauto. }
  split; [done|]. split; [done|].
  split; [simpl; change (inners s2) with (inners s); by rewrite lookup_insert_eq|].
  split; [done|]. split; [done|]. split; [done|].
  split; [simpl; by rewrite lookup_insert_ne, lookup_insert_eq|].
  split; [simpl; by rewrite lookup_insert_eq|].
  split.
  { intros d Hd0' Hd1'. simpl. rewrite !lookup_insert_ne by done.
    rewrite Hds. unfold s3. simpl. by rewrite lookup_insert_ne. }
  simpl. rewrite Henvs, Hreps, Hv2s, Hni, Hkt, Hcon, Hvat.
  split; [done|]. split; [by rewrite insert_insert_eq|].
  split; [done|]. done.
Qed.


(** *** Representatives of stored instances *)

Lemma vom_lookup_outcome fuel st l k :
  wf st l → length l + cacheSize st + 2 ≤ fuel →
  (∃ a c' l' raw,
     cache.lookup (vom.fetch co) (vom.store co) fuel k st = Ok a c'
     ∧ wf c' (a :: l') ∧ keyOf (inners c') a = k ∧ dataOf c' a = Some raw
     ∧ cacheSize c' = cacheSize st
     ∧ environments (world c') = environments (world st)
     ∧ representatives (world c') = representatives (world st)
     ∧ valToSlotTable (world c') = valToSlotTable (world st)
     ∧ kindTable (world c') = kindTable (world st)
     ∧ match liveTable st !! k with
       | Some a0 => a = a0 ∧ dataOf st a0 = Some raw ∧ world c' = world st
       | None => vom.fetch co k (world st) = inr raw
       end)
  ∨ (∃ e c',
       cache.lookup (vom.fetch co) (vom.store co) fuel k st = Throw e c'
       ∧ liveTable st !! k = None
       ∧ ((vom.fetch co k (world st) = inl e ∧ c' = st)
          ∨ (e = CacheOverflow ∧ cacheSize st < countInit st l))).
Proof.
  intros Hwf Hfuel. destruct (liveTable st !! k) as [a0|] eqn:Hk.
  - destruct (lookup_hit (vom.fetch co) (vom.store co) fuel st l k a0 Hwf Hk)
      as (l1 & l2 & c' & -> & Hlk & _ & Hwf' & Hrl & _).
    apply (wf_table_lookup st _ _ _ Hwf) in Hk as [Hin Hkey].
    pose proof (wf_data _ _ Hwf) as Hdata. rewrite Forall_forall in Hdata.
    destruct (Hdata a0 Hin) as [raw Hraw].
    left. exists a0, c', (l1 ++ l2), raw. split; [done|]. split; [done|].
    split; [by rewrite (relinked_keyOf st c')|].
    split; [by rewrite (relinked_dataOf st c')|].
    split; [apply Hrl|]. rewrite (rl_world _ _ Hrl). done.
  - pose proof (lookup_miss (vom.fetch co) (vom.store co) fuel st l k Hwf Hk Hfuel)
      as Hm.
    destruct (vom.fetch co k (world st)) as [e|content] eqn:Hf.
    { right. exists e, st. eauto. }
    destruct Hm as (Hwf0 & Hd0 & Hk0 & c1 & kept & gone & Hsw & Hres).
    destruct Hres as [(c' & Hlk & Hrem & Hlen & Htab & Hins)|[Hlk Hcnt]].
    + left. exists (fresh (dom (inners st))), c', kept, content.
      split; [done|]. split; [apply Hins|].
      assert (Hsame : unlinked <$> inners c' !! fresh (dom (inners st))
                = unlinked <$> inners (fetched k content st)
                                 !! fresh (dom (inners st))).
      { rewrite (ins_inners _ _ _ _ Hins).
        rewrite (sw_frame _ _ _ _ _ _ Hsw); [done|].
        intros Hin. destruct (wf_allocated st l _ Hwf Hin) as [o' Ho'].
        pose proof (is_fresh (dom (inners st))) as Hfr. apply Hfr.
        apply elem_of_dom. by exists o'. }
      split; [by rewrite (same_keyOf _ _ _ Hsame)|]. split.
      { rewrite <-Hd0. apply same_dataOf; [|done].
        rewrite (ins_datas _ _ _ _ Hins). apply Hsw. }
      split; [rewrite (ins_size _ _ _ _ Hins); apply Hsw|].
      rewrite (ins_world _ _ _ _ Hins), (sw_world _ _ _ _ _ _ Hsw).
      pose proof (store_fold_fields co (world (fetched k content st))
                    (omap (entry (fetched k content st)) gone)) as Hfields.
      cbv zeta in Hfields.
      destruct Hfields as (Hv & _ & _ & Hkt & _ & _ & _ & Hreps & Henv).
      rewrite Hv, Hkt, Hreps, Henv. done.
    + right. exists CacheOverflow, c1. eauto.
Qed.

(** [makeRepresentative(innerSelf, false)] on a resident inner self. *)
Lemma makeRepresentative_revive fuel kind a o d raw (c : State) l :
  wf c (a :: l) → inners c !! a = Some o → rawData o = Some d →
  datas c !! d = Some raw →
  ∃ c',
    vom.makeRepresentative co fuel kind a false c
    = Ok (fresh (dom (representatives (world c)))) c'
    ∧ wf c' (a :: l)
    ∧ cacheSize c' = cacheSize c
    ∧ dataOf c' a = Some raw
    ∧ environments (world c')
      = <[fresh (dom (environments (world c))) := a]> (environments (world c))
    ∧ representatives (world c')
      = <[fresh (dom (representatives (world c)))
            := mkRep false true (Some (fresh (dom (datas c))))]>
          (representatives (world c))
    ∧ valToSlotTable (world c')
      = <[RepRef (fresh (dom (representatives (world c)))) := instanceKey o]>
          (valToSlotTable (world c))
    ∧ datas c'
      = <[fresh (dom (datas c))
            := mkData false
                 (foldl (λ ps p, setOwn p (Accessor
                                   (fresh (dom (environments (world c))))) ps)
                    [] (props raw).*1) true]> (datas c)
    ∧ inners c' = <[a := set_wrapData None o]> (inners c)
    ∧ vatstore (world c') = vatstore (world c)
    ∧ kindTable (world c') = kindTable (world c)
    ∧ stored c' = stored c.
Proof.
  intros Hwf Ha Hd Hraw.
  set (env := fresh (dom (environments (world c)))).
  set (rep := fresh (dom (representatives (world c)))).
  set (ad := fresh (dom (datas c))).
  assert (Hadd : ad ≠ d).
  { intros Heq. pose proof (is_fresh (dom (datas c))) as Hfr. fold ad in Hfr.
    apply Hfr. rewrite Heq. apply elem_of_dom. eauto. }
  set (c1 := upd_datas <[ad := mkData false [] false]>
               (upd_world (upd_environments <[env := a]>) c)).
  set (accs := foldl (λ ps p, setOwn p (Accessor env) ps) [] (props raw).*1).
  set (c2 := upd_datas <[ad := mkData false accs true]>
               (upd_inners <[a := set_wrapData None o]> c1)).
  set (c3 := upd_world (upd_representatives
                          <[rep := mkRep false true (Some ad)]>) c2).
  assert (Hwrap : vom.wrapData_ env ad c1 = Ok tt c2).
  { rewrite (wrapData_spec env ad (mkData false [] false) a o d raw c1); try done.
    - unfold c1. simpl. by rewrite lookup_insert_eq.
    - unfold c1. simpl. by rewrite lookup_insert_eq.
    - unfold c1. simpl. by rewrite lookup_insert_ne. }
  assert (Hkey : liveTable c !! instanceKey o = Some a).
  { apply (wf_table_lookup c _ _ _ Hwf). split; [set_solver|].
    unfold keyOf. by rewrite Ha. }
  assert (Ha3 : inners c3 !! a = Some (set_wrapData None o)).
  { unfold c3, c2. simpl. by rewrite lookup_insert_eq. }
  assert (Heq : vom.makeRepresentative co fuel kind a false c
            = Ok rep (upd_world
                        (upd_valToSlotTable <[RepRef rep := instanceKey o]>) c3)).
  { unfold vom.makeRepresentative. unfold bind at 1, vom.allocEnv at 1.
    fold env. unfold bind at 1. unfold bind at 1, allocData at 1.
    cbn [datas upd_world]. fold ad. fold c1.
    unfold bind at 1. rewrite Hwrap.
    unfold bind at 1, vom.instanceMaker, vom.allocRep.
    change (representatives (world c2)) with (representatives (world c)).
    fold rep.
    unfold bind at 1, vom.updRep at 1, vom.modifyW at 1, modify at 1.
    unfold bind at 1, vom.updRep at 1, vom.modifyW at 1, modify at 1.
    unfold ret at 1.
    assert (Hc3 : upd_world
                (upd_representatives
                   (alter (λ r, mkRep (hasInitialize r) true (state r)) rep))
                (upd_world
                   (upd_representatives
                      (alter (λ r, mkRep false (frozen r) (state r)) rep))
                   (upd_world
                      (upd_representatives
                         <[rep := mkRep (bool_decide (is_Some (initialize kind)))
                                    false (Some ad)]>) c2)) = c3).
    { unfold c3, upd_world, upd_representatives. simpl. f_equal. f_equal.
      apply map_eq. intros i. destruct (decide (rep = i)) as [<-|Hne].
      - by rewrite !lookup_alter_eq, !lookup_insert_eq.
      - by rewrite !lookup_alter_ne, !lookup_insert_ne. }
    rewrite Hc3.
    unfold bind at 1, vom.envInnerSelf at 1.
    change (environments (world c3)) with (<[env := a]> (environments (world c))).
    rewrite lookup_insert_eq.
    unfold bind at 1.
    rewrite (remember_present (vom.store co) fuel c3 a _ Ha3) by (simpl; eauto).
    unfold bind at 1, readInner at 1. rewrite Ha3.
    unfold bind at 1, vom.modifyW, modify. done. }
  eexists. split; [exact Heq|].
  split.
  { eapply (wf_same_links c); [exact Hwf|done|done|done| |].
    - intros b Hb. simpl. destruct (decide (b = a)) as [->|Hne].
      + exists o, (set_wrapData None o). by rewrite lookup_insert_eq.
      + destruct (wf_allocated c _ b Hwf Hb) as [ob Hob].
        exists ob, ob. by rewrite lookup_insert_ne.
    - intros b Hb. unfold dataOf. simpl.
      pose proof (wf_data _ _ Hwf) as Hdata. rewrite Forall_forall in Hdata.
      destruct (Hdata b Hb) as [x Hx]. unfold dataOf in Hx.
      destruct (decide (b = a)) as [->|Hne].
      + rewrite lookup_insert_eq. simpl. rewrite Hd.
        rewrite !lookup_insert_ne by done. eauto.
      + rewrite lookup_insert_ne by done.
        destruct (inners c !! b) as [ob|]; [|done].
        destruct (rawData ob) as [db|]; [|done].
        destruct (decide (ad = db)) as [<- |Hdb]; [rewrite lookup_insert_eq; eauto|].
        rewrite !lookup_insert_ne by done. eauto. }
  split; [done|].
  split.
  { unfold dataOf. simpl. rewrite lookup_insert_eq. simpl. rewrite Hd.
    by rewrite !lookup_insert_ne. }
  split; [done|]. split; [done|]. split; [done|].
  split; [simpl; by rewrite insert_insert_eq|]. done.
Qed.

(** X15.  For a vref of a registered kind, on an instance that is
    resident or whose state [fetch] reads back,
    [makeVirtualObjectRepresentative] returns a new representative each
    time: an object without [initialize], hardened, that [valToSlotTable]
    maps to the vref.  Its state object is new, hardened, and has an
    accessor for each property of the raw data and no other property;
    the getters return what the marshaller decodes from the raw data.
    The inner self for the vref is resident, at the head of the LRU
    list.  The function throws only when the instance is not resident:
    the error of [fetch], in the same state, or the overflow error. *)
Theorem makeVirtualObjectRepresentative_revives fuel st l vref slot kind :
  wf st l → length l + cacheSize st + 2 ≤ fuel →
  slot_parseVatSlot co vref = inr slot →
  kindTable (world st) !! pretty (id slot) = Some kind →
  (∃ rep env st' a d t raw l',
     vom.makeVirtualObjectRepresentative co fuel vref st = Ok rep st'
     ∧ representatives (world st) !! rep = None
     ∧ representatives (world st') !! rep = Some (mkRep false true (Some d))
     ∧ valToSlotTable (world st') !! RepRef rep = Some vref
     ∧ wf st' (a :: l') ∧ liveTable st' !! vref = Some a
     ∧ dataOf st' a = Some raw
     ∧ match liveTable st !! vref with
       | Some a0 => a = a0 ∧ dataOf st a0 = Some raw
       | None => vom.fetch co vref (world st) = inr raw
       end
     ∧ environments (world st') !! env = Some a
     ∧ datas st' !! d = Some t
     ∧ hardened t = true ∧ initializing t = false
     ∧ (∀ p, getOwn p (props t)
             = if decide (p ∈ (props raw).*1) then Some (Accessor env) else None)
     ∧ (∀ p, vom.getter co fuel env p st'
             = match getOwn p (props raw) with
               | Some (Encoded g) =>
                   match m_unserialize co g with
                   | inl e => Throw e st'
                   | inr v => Ok v st'
                   end
               | _ => Throw TypeError st'
               end))
  ∨ (∃ e st',
       vom.makeVirtualObjectRepresentative co fuel vref st = Throw e st'
       ∧ liveTable st !! vref = None
       ∧ ((vom.fetch co vref (world st) = inl e ∧ st' = st)
          ∨ (e = CacheOverflow ∧ cacheSize st < countInit st l))).
Proof.
  intros Hwf Hfuel Hparse Hkind.
  assert (Heq : vom.makeVirtualObjectRepresentative co fuel vref st
            = match cache.lookup (vom.fetch co) (vom.store co) fuel vref st with
              | Ok a c' => vom.makeRepresentative co fuel kind a false c'
              | Throw e c' => Throw e c'
              | Fail f => Fail f
              end).
  { unfold vom.makeVirtualObjectRepresentative, bind, vom.liftE.
    rewrite Hparse. unfold ret, vom.getsW, gets. rewrite Hkind.
    unfold vom.reanimate, bind. done. }
  rewrite Heq.
  destruct (vom_lookup_outcome fuel st l vref Hwf Hfuel)
    as [(a & c' & l' & raw & Hlk & Hwf' & Hkey & Hdata & _ & Henv & Hreps & _ & _ & Hwas)
       |(e & c' & Hlk & Hmiss & Hwhy)]; rewrite Hlk; cycle 1.
  { right. eauto. }
  left. apply dataOf_Some in Hdata as Hdata'.
  destruct Hdata' as (o & d & Ho & Hd & Hraw).
  destruct (makeRepresentative_revive fuel kind a o d raw c' l' Hwf' Ho Hd Hraw)
    as (st' & Hmk & Hwfs & _ & Hdata2 & Henv2 & Hreps2 & Hv2s & Hdatas & Hinners & _).
  assert (Hko : instanceKey o = vref).
  { unfold keyOf in Hkey. by rewrite Ho in Hkey. }
  assert (He : environments (world st') !! fresh (dom (environments (world c')))
            = Some a) by by rewrite Henv2, lookup_insert_eq.
  eexists _, _, st', a, _, _, raw, l'. split; [exact Hmk|].
  split; [rewrite Hreps; apply not_elem_of_dom, is_fresh|].
  split; [by rewrite Hreps2, lookup_insert_eq|].
  split; [by rewrite Hv2s, lookup_insert_eq, Hko|].
  split; [done|].
  split.
  { apply (wf_table_lookup st' _ _ _ Hwfs). split; [set_solver|].
    unfold keyOf. rewrite Hinners, lookup_insert_eq. simpl. done. }
  split; [done|].
  split.
  { destruct (liveTable st !! vref); [|done]. by destruct Hwas as (? & ? & _). }
  split; [exact He|].
  split; [by rewrite Hdatas, lookup_insert_eq|].
  split; [done|]. split; [done|].
  split.
  { intros p. simpl. rewrite defineAll_get. by destruct (decide _). }
  intros p.
  apply dataOf_Some in Hdata2 as (o2 & d2 & Ho2 & Hd2 & Hraw2).
  by rewrite (getter_resident co fuel _ p a o2 d2 raw st' He Ho2 Hd2 Hraw2).
Qed.

End InstanceProperties.

(** ** What the operations leave alone *)

Section Keeps.
Context {S X : Type} (f : S → X).

Lemma keeps_ret {A} (a : A) : keeps f (ret a : M S A).
Proof. by intros s. Qed.

Lemma keeps_gets {A} (g : S → A) : keeps f (gets g : M S A).
Proof. by intros s. Qed.

Lemma keeps_throw {A} e : keeps f (throw e : M S A).
Proof. by intros s. Qed.

Lemma keeps_fail {A} x : keeps f (fail x : M S A).
Proof. by intros s. Qed.

Lemma keeps_modify (h : S → S) : (∀ s, f (h s) = f s) → keeps f (modify h).
Proof. intros Hh s. apply Hh. Qed.

Lemma keeps_bind {A B} (m : M S A) (k : A → M S B) :
  keeps f m → (∀ a, keeps f (k a)) → keeps f (bind m k).
Proof.
  intros Hm Hk s. unfold bind. specialize (Hm s).
  destruct (m s) as [a s1|e s1|x]; [|done|done].
  specialize (Hk a s1). destruct (k a s1); congruence.
Qed.

Lemma keeps_final {A} (m : M S A) s s' :
  keeps f m → final (m s) = Some s' → f s' = f s.
Proof.
  intros Hm. specialize (Hm s). destruct (m s); simpl; [| |done];
    by intros [= <-].
Qed.

End Keeps.

Section CacheKeeps.
Context {Value Ground W X : Type}.
Local Abbreviation Cache := (Cache Value Ground W).
Local Abbreviation DataObj := (DataObj Value Ground).
Context (fetch : string → W → Error + DataObj).
Context (store : string → DataObj → W → W).
Context (g : W → X).
Context (Hstore : ∀ k d w, g (store k d w) = g w).
Local Abbreviation f := (λ c : Cache, g (world c)).

Local Ltac keeps_step :=
  first
    [ apply keeps_ret | apply keeps_gets | apply keeps_throw
    | apply keeps_fail | by apply keeps_modify
    | apply keeps_bind; [|intros ?] ].

Lemma keeps_readInner a : keeps f (readInner a).
Proof. intros s. unfold readInner. by destruct (inners s !! a). Qed.

Lemma keeps_readData d : keeps f (readData d).
Proof. intros s. unfold readData. by destruct (datas s !! d). Qed.

Lemma keeps_allocInner o : keeps f (allocInner o).
Proof. by intros s. Qed.

Lemma keeps_allocData o : keeps f (allocData o).
Proof. by intros s. Qed.

Lemma keeps_refresh a : keeps f (cache.refresh a).
Proof.
  unfold cache.refresh, updInner.
  repeat first [apply keeps_readInner | keeps_step | case_decide | case_match].
Qed.

Lemma keeps_tailInitializing : keeps f cache.tailInitializing.
Proof.
  unfold cache.tailInitializing.
  repeat first [apply keeps_readInner | apply keeps_readData
               | keeps_step | case_match].
Qed.

Lemma keeps_refreshLoop fuel k : keeps f (cache.refreshLoop fuel k).
Proof.
  revert k. induction fuel as [|fuel IH]; intros k; simpl; [apply keeps_fail|].
  repeat first [apply keeps_tailInitializing | apply keeps_refresh | apply IH
               | keeps_step | case_decide | case_match].
Qed.

Lemma keeps_evictTail : keeps f (cache.evictTail store).
Proof.
  unfold cache.evictTail, updInner, cache.callStore.
  repeat first [apply keeps_readInner | apply keeps_readData
               | keeps_step | case_match].
  apply keeps_modify. intros s. apply Hstore.
Qed.

Lemma keeps_makeRoom fuel : keeps f (cache.makeRoom store fuel).
Proof.
  induction fuel as [|fuel IH]; simpl; [apply keeps_fail|].
  repeat first [apply keeps_tailInitializing | apply keeps_refreshLoop
               | apply keeps_evictTail | apply IH
               | keeps_step | case_decide | case_match].
Qed.

Lemma keeps_flush fuel : keeps f (cache.flush store fuel).
Proof.
  unfold cache.flush. repeat first [apply keeps_makeRoom | keeps_step].
Qed.

Lemma keeps_remember fuel a : keeps f (cache.remember store fuel a).
Proof.
  unfold cache.remember, updInner.
  repeat first [apply keeps_readInner | apply keeps_makeRoom
               | keeps_step | case_decide | case_match].
Qed.

Lemma keeps_lookup fuel k : keeps f (cache.lookup fetch store fuel k).
Proof.
  unfold cache.lookup.
  repeat first [apply keeps_refresh | apply keeps_remember
               | apply keeps_allocData | apply keeps_allocInner
               | keeps_step | case_match].
Qed.

End CacheKeeps.

Section VomKeeps.
Context {Value Ground X : Type}.
Local Abbreviation State := (Cache Value Ground (World Value)).
Context (co : Collaborators Value Ground).
Context (g : World Value → X).
Context (Hvat : ∀ h w, g (upd_vatstore h w) = g w).
Context (Hv2s : ∀ h w, g (upd_valToSlotTable h w) = g w).
Context (Hcon : ∀ h w, g (upd_console h w) = g w).
Context (Hrep : ∀ h w, g (upd_representatives h w) = g w).
Context (Henv : ∀ h w, g (upd_environments h w) = g w).
Local Abbreviation f := (λ c : State, g (world c)).

Local Ltac keeps_step :=
  first
    [ apply keeps_ret | apply keeps_gets | apply keeps_throw
    | apply keeps_fail | by apply keeps_modify
    | apply keeps_bind; [|intros ?] ].

Lemma store_keeps k d (w : World Value) : g (vom.store co k d w) = g w.
Proof. apply Hvat. Qed.

Lemma keeps_vom_lookup fuel k :
  keeps f (cache.lookup (vom.fetch co) (vom.store co) fuel k).
Proof. apply keeps_lookup. apply store_keeps. Qed.

Lemma keeps_liftE {A} (r : Error + A) : keeps f (vom.liftE r : M State A).
Proof. by destruct r. Qed.

Lemma keeps_envInnerSelf env : keeps f (vom.envInnerSelf env : M State _).
Proof.
  intros s. unfold vom.envInnerSelf. by destruct (environments (world s) !! env).
Qed.

Lemma keeps_readRep r : keeps f (vom.readRep r : M State _).
Proof.
  intros s. unfold vom.readRep. by destruct (representatives (world s) !! r).
Qed.

Lemma keeps_modifyW (h : World Value → World Value) :
  (∀ w, g (h w) = g w) → keeps f (vom.modifyW h : M State _).
Proof. intros Hh s. apply Hh. Qed.

Lemma keeps_forEach {A} (k : A → M State unit) (xs : list A) :
  (∀ x, keeps f (k x)) → keeps f (vom.forEach k xs).
Proof.
  intros Hk. induction xs as [|x xs IH]; simpl; [apply keeps_ret|].
  apply keeps_bind; [apply Hk|by intros _].
Qed.

Lemma keeps_ensureState fuel env : keeps f (vom.ensureState co fuel env).
Proof.
  unfold vom.ensureState.
  repeat first [apply keeps_envInnerSelf | apply keeps_readInner
               | apply keeps_vom_lookup | apply keeps_modifyW; intros ?; apply Henv
               | keeps_step | case_match].
Qed.

Lemma keeps_getter fuel env prop : keeps f (vom.getter co fuel env prop).
Proof.
  unfold vom.getter.
  repeat first [apply keeps_ensureState | apply keeps_envInnerSelf
               | apply keeps_readInner | apply keeps_readData | apply keeps_liftE
               | keeps_step | case_match].
Qed.

Lemma keeps_setter fuel env prop v : keeps f (vom.setter co fuel env prop v).
Proof.
  unfold vom.setter, vom.writeRaw, updData.
  repeat first [apply keeps_ensureState | apply keeps_envInnerSelf
               | apply keeps_readInner | apply keeps_readData | apply keeps_liftE
               | keeps_step | case_match].
Qed.

Lemma keeps_wrapData env target : keeps f (vom.wrapData_ env target : M State _).
Proof.
  unfold vom.wrapData_, updData, updInner.
  repeat first [apply keeps_readData | apply keeps_readInner
               | apply keeps_envInnerSelf
               | apply keeps_forEach; intros ?; unfold vom.defineAccessor, updData
               | keeps_step | case_match].
Qed.

Lemma keeps_makeRepresentative fuel kind a b :
  keeps f (vom.makeRepresentative co fuel kind a b).
Proof.
  unfold vom.makeRepresentative.
  apply keeps_bind; [intros s; apply Henv|intros env].
  apply keeps_bind.
  { destruct b.
    - unfold updInner, vom.instanceMaker.
      repeat first [apply keeps_readInner | keeps_step].
      intros s. apply Hrep.
    - unfold vom.instanceMaker, vom.updRep.
      repeat first [apply keeps_allocData | apply keeps_wrapData
                   | apply keeps_modifyW; intros ?; apply Hrep
                   | keeps_step].
      intros s. apply Hrep. }
  intros rep.
  repeat first [apply keeps_readInner | apply keeps_envInnerSelf
               | apply keeps_remember; apply store_keeps
               | apply keeps_modifyW; intros ?; apply Hv2s
               | keeps_step].
Qed.

Lemma keeps_reanimate fuel kind k : keeps f (vom.reanimate co fuel kind k).
Proof.
  unfold vom.reanimate. apply keeps_bind; [apply keeps_vom_lookup|].
  intros a. apply keeps_makeRepresentative.
Qed.

Lemma keeps_makeVirtualObjectRepresentative fuel vref :
  keeps f (vom.makeVirtualObjectRepresentative co fuel vref).
Proof.
  unfold vom.makeVirtualObjectRepresentative, vom.getsW.
  repeat first [apply keeps_liftE | apply keeps_reanimate
               | keeps_step | case_match].
Qed.

Lemma keeps_flushCache fuel : keeps f (vom.flushCache co fuel).
Proof. apply keeps_flush. apply store_keeps. Qed.

Lemma keeps_putProp fuel state prop v :
  keeps f (vom.putProp co fuel state prop v).
Proof.
  unfold vom.putProp, updData.
  repeat first [apply keeps_readData | apply keeps_setter
               | keeps_step | case_match].
Qed.

Lemma keeps_runInitialize fuel kind rep d args :
  keeps f (vom.runInitialize co fuel kind rep d args).
Proof.
  unfold vom.runInitialize, vom.updRep.
  repeat first [apply keeps_readRep
               | apply keeps_modifyW; intros ?; apply Hrep
               | apply keeps_forEach; intros ?; apply keeps_putProp
               | keeps_step | case_match].
Qed.

Lemma keeps_serializeState d : keeps f (vom.serializeState co d).
Proof.
  unfold vom.serializeState, updData.
  repeat first [apply keeps_allocData | apply keeps_readData | keeps_step].
  apply keeps_forEach. intros ps. unfold vom.serializeProp, updData.
  repeat first [apply keeps_readData
               | apply keeps_modifyW; intros ?; apply Hcon
               | keeps_step | case_match].
Qed.

End VomKeeps.

Section Registry.
Context {Value Ground : Type}.
Local Abbreviation State := (Cache Value Ground (World Value)).
Context (co : Collaborators Value Ground).

(** The tables and counters of the manager that only [makeKind],
    [makeNewInstance] and the weak stores write. *)
Local Abbreviation registry :=
  (λ w : World Value,
     (kindTable w, nextInstanceID w, nextExportID w, nextWeakStoreID w,
      backingMap w)).

(** X16.  Making a representative for a vref, flushing the cache and
    running a getter or a setter leave the kind table, the instance
    counters, the export counter and the in-memory weak stores as they
    are, whether they return or throw: a kind that is registered stays
    registered, with the same counter. *)
Theorem instance_operations_keep_registry fuel :
  (∀ vref, keeps (λ st : State, registry (world st))
             (vom.makeVirtualObjectRepresentative co fuel vref))
  ∧ keeps (λ st : State, registry (world st)) (vom.flushCache co fuel)
  ∧ (∀ env prop, keeps (λ st : State, registry (world st))
                   (vom.getter co fuel env prop))
  ∧ (∀ env prop v, keeps (λ st : State, registry (world st))
                     (vom.setter co fuel env prop v)).
Proof.
  split; [|split; [|split]]; intros.
  - by apply (keeps_makeVirtualObjectRepresentative co registry).
  - by apply (keeps_flushCache co registry).
  - by apply (keeps_getter co registry).
  - by apply (keeps_setter co registry).
Qed.

(** X17.  [makeNewInstance] increments the instance counter of its
    kind before anything else: whether it returns or throws (the cache
    overflows, a property cannot be serialized), the counter is one
    more than it was, so that the instance key it used is not used
    again.  The kind table and the other counters are as before. *)
Theorem makeNewInstance_always_counts fuel kindID kind args st st' n :
  nextInstanceID (world st) !! kindID = Some n →
  final (vom.makeNewInstance co fuel kindID kind args st) = Some st' →
  nextInstanceID (world st') = <[kindID := n + 1]> (nextInstanceID (world st))
  ∧ kindTable (world st') = kindTable (world st)
  ∧ nextExportID (world st') = nextExportID (world st)
  ∧ nextWeakStoreID (world st') = nextWeakStoreID (world st)
  ∧ backingMap (world st') = backingMap (world st).
Proof.
  intros Hn. unfold vom.makeNewInstance.
  unfold bind at 1, vom.getsW at 1, gets at 1. rewrite Hn.
  unfold bind at 1, vom.modifyW at 1, modify at 1.
  match goal with
  | |- final (?m ?s) = Some _ → _ =>
      assert (Hk : keeps (λ st : State, registry (world st)) m)
  end.
  { apply keeps_bind; [by intros s|intros d0].
    apply keeps_bind; [by intros s|intros a0].
    apply keeps_bind; [by apply (keeps_makeRepresentative co registry)|intros rep].
    apply keeps_bind; [by apply (keeps_runInitialize co registry)|intros _].
    apply keeps_bind; [by apply (keeps_serializeState co registry)|intros d1].
    apply keeps_bind; [by intros s|intros _].
    apply keeps_bind; [apply (keeps_readInner registry)|intros o].
    apply keeps_bind; [|intros _; apply keeps_ret].
    destruct (wrapData o); [by apply (keeps_wrapData registry)|apply keeps_throw]. }
  intros Hfin. apply (keeps_final _ _ _ _ Hk) in Hfin. simpl in Hfin.
  by injection Hfin as -> -> -> -> ->.
Qed.

End Registry.

(** ** New weak stores *)

Section WeakStoreCreation.
Context {Value Ground : Type}.
Local Abbreviation State := (Cache Value Ground (World Value)).
Context (co : Collaborators Value Ground).
Implicit Types (st : State).

(** X18.  [makeWeakStore(keyName)] returns a store with the next store
    ID and advances the counter.  For an object that [valToSlotTable]
    does not know, the new store has no entry: [has] is false, [get]
    throws the error [NotFound] of the store, and [init] returns, after
    which [get] returns the value.  The stores made before answer [has] and [get]
    as they did. *)
Theorem makeWeakStore_fresh name st :
  ∃ st',
    vom.makeWeakStore name st
    = Ok (mkWeakStore (nextWeakStoreID (world st)) name) st'
    ∧ nextWeakStoreID (world st') = nextWeakStoreID (world st) + 1
    ∧ (∀ key, valToSlotTable (world st) !! key = None →
         vom.has co (mkWeakStore (nextWeakStoreID (world st)) name) key st'
         = Ok false st'
         ∧ vom.get co (mkWeakStore (nextWeakStoreID (world st)) name) key st'
           = Throw (NotFound name) st'
         ∧ ∀ v, ∃ st'',
             vom.init co (mkWeakStore (nextWeakStoreID (world st)) name) key v st'
             = Ok tt st''
             ∧ vom.get co (mkWeakStore (nextWeakStoreID (world st)) name) key st''
               = Ok v st'')
    ∧ (∀ ws key, storeID ws ≠ nextWeakStoreID (world st) →
         vom.has co ws key st' = in_state (vom.has co ws key st) st'
         ∧ vom.get co ws key st' = in_state (vom.get co ws key st) st').
Proof.
  set (ws := mkWeakStore (nextWeakStoreID (world st)) name).
  set (st' := upd_world (upd_backingMap <[storeID ws := ∅]>)
                (upd_world (set_nextWeakStoreID (nextWeakStoreID (world st) + 1)) st)).
  exists st'. split; [done|]. split; [done|]. split.
  - intros key Hkey.
    assert (Hvk : ∀ s : State, valToSlotTable (world s) = valToSlotTable (world st) →
              vom.virtualObjectKey co ws key s = Ok None s).
    { intros s Hs. unfold vom.virtualObjectKey, bind, vom.getsW, gets.
      by rewrite Hs, Hkey. }
    rewrite (has_unfold co ws key st' None), (get_unfold co ws key st' None)
      by (by apply Hvk).
    unfold st' at 1 3. simpl. rewrite lookup_insert_eq.
    rewrite bool_decide_eq_false_2 by (rewrite lookup_empty; by intros [? ?]).
    rewrite lookup_empty. split; [done|]. split; [done|]. intros v.
    rewrite (init_unfold co ws key v st' None) by (by apply Hvk).
    unfold st' at 1. simpl. rewrite lookup_insert_eq.
    rewrite bool_decide_eq_false_2 by (rewrite lookup_empty; by intros [? ?]).
    eexists. split; [done|].
    rewrite (get_unfold co ws key _ None) by (by apply Hvk).
    simpl. rewrite lookup_alter_eq, lookup_insert_eq. simpl.
    by rewrite lookup_insert_eq.
  - intros ws0 key Hne.
    destruct (virtualObjectKey_cases co ws0 key st) as [[vk Hvk]|[e Hvk]].
    + assert (Hvk' : vom.virtualObjectKey co ws0 key st' = Ok vk st').
      { by apply (virtualObjectKey_same co ws0 key st). }
      rewrite (has_unfold co ws0 key st' vk Hvk'), (has_unfold co ws0 key st vk Hvk).
      rewrite (get_unfold co ws0 key st' vk Hvk'), (get_unfold co ws0 key st vk Hvk).
      destruct vk as [x|].
      * change (vatstoreGet x (world st')) with (vatstoreGet x (world st)).
        split; [done|]. destruct (truthy _); [|done].
        destruct (_ ≫= _) as [g|]; [|done]. by destruct (m_unserialize co g).
      * unfold st' at 1 3. simpl. rewrite lookup_insert_ne by done.
        destruct (backingMap (world st) !! storeID ws0) as [m|]; [|done].
        split; [done|]. by destruct (m !! key).
    + assert (Hvk' : vom.virtualObjectKey co ws0 key st' = Throw e st').
      { revert Hvk. unfold vom.virtualObjectKey, bind, vom.getsW, gets, vom.liftE.
        change (valToSlotTable (world st')) with (valToSlotTable (world st)).
        destruct (valToSlotTable (world st) !! key) as [k|]; [|done].
        destruct (negb (truthy (Some k))); [done|].
        destruct (slot_parseVatSlot co k) as [e'|slot]; [by intros [= <-]|].
        unfold ret. by destruct (_ && _). }
      unfold vom.has, vom.get, bind. by rewrite Hvk, Hvk'.
Qed.

End WeakStoreCreation.

(** ** Writes, eviction and sharing *)

Section Sharing.
Context {Value Ground : Type}.
Local Abbreviation Slot := (Slot Value Ground).
Local Abbreviation DataObj := (DataObj Value Ground).
Local Abbreviation State := (Cache Value Ground (World Value)).
Context (co : Collaborators Value Ground).
Implicit Types (st : State) (l : list addr).

(** Replacing the content of a state object keeps the shape of the
    cache. *)
Lemma wf_upd_data st l d (obj obj' : DataObj) :
  wf st l → datas st !! d = Some obj →
  wf (upd_datas <[d := obj']> st) l
  ∧ (∀ b, isInit st b = false → initializing obj' = initializing obj →
       isInit (upd_datas <[d := obj']> st) b = false).
Proof.
  intros Hwf Hd. split.
  - eapply (wf_same_links st); [exact Hwf|done|done|done| |].
    + intros b Hb. destruct (wf_allocated st l b Hwf Hb) as [ob Hob].
      by exists ob, ob.
    + intros b Hb. pose proof (wf_data _ _ Hwf) as Hdata.
      rewrite Forall_forall in Hdata. destruct (Hdata b Hb) as [x Hx].
      unfold dataOf in *. simpl.
      destruct (inners st !! b) as [ob|]; [|done].
      destruct (rawData ob) as [db|]; [|done].
      destruct (decide (d = db)) as [<- |Hne]; [rewrite lookup_insert_eq; eauto|].
      rewrite lookup_insert_ne by done. eauto.
  - intros b Hb Hinit. unfold isInit, dataOf in *. simpl.
    destruct (inners st !! b) as [ob|]; [|done].
    destruct (rawData ob) as [db|]; [|done].
    destruct (decide (d = db)) as [<- |Hne].
    + rewrite lookup_insert_eq. rewrite Hd in Hb. by rewrite Hinit.
    + by rewrite lookup_insert_ne.
Qed.

(** The state a setter leaves on raw data that is at hand. *)
Lemma setter_resident fuel env prop v g a o d obj st :
  environments (world st) !! env = Some a →
  inners st !! a = Some o → rawData o = Some d →
  datas st !! d = Some obj → hardened obj = false →
  m_serialize co v = inr g →
  vom.setter co fuel env prop v st
  = Ok tt (upd_datas
             <[d := set_props (setOwn prop (Encoded g) (props obj)) obj]> st).
Proof.
  intros He Ha Hd Hobj Hhard Hser.
  unfold vom.setter, bind, vom.liftE. rewrite Hser. simpl.
  rewrite (ensureState_resident co fuel env a o d st He Ha Hd).
  unfold vom.writeRaw, bind, vom.envInnerSelf, readInner, readData.
  rewrite He, Ha, Hd, Hobj, Hhard. unfold updData, modify.
  f_equal. unfold upd_datas. f_equal.
  apply map_eq. intros i. destruct (decide (d = i)) as [<- |Hne].
  - by rewrite lookup_alter_eq, lookup_insert_eq, Hobj.
  - by rewrite lookup_alter_ne, lookup_insert_ne.
Qed.

(** X19.  A write survives eviction.  On a resident instance, when
    nothing is being initialized, the value a setter wrote is what the
    getter returns once the cache was flushed: [flushCache] writes the
    raw data, with the new encoding, to the vatstore under the instance
    key, and the getter reads it back.  JSON is assumed to read back
    the properties it wrote. *)
Theorem write_survives_flush fuel env prop v g a o d obj st l :
  wf st l → Forall (λ b, isInit st b = false) l →
  length l + cacheSize st + 2 ≤ fuel →
  environments (world st) !! env = Some a → a ∈ l →
  inners st !! a = Some o → rawData o = Some d → datas st !! d = Some obj →
  hardened obj = false →
  m_serialize co v = inr g →
  JSON_parseData co
    (JSON_stringifyData co (setOwn prop (Encoded g) (props obj)))
  = Some (setOwn prop (Encoded g) (props obj)) →
  ∃ st' st1 st2,
    vom.setter co fuel env prop v st = Ok tt st'
    ∧ vom.flushCache co fuel st' = Ok tt st1
    ∧ vatstoreGet (instanceKey o) (world st1)
      = Some (JSON_stringifyData co (setOwn prop (Encoded g) (props obj)))
    ∧ vom.getter co fuel env prop st1
      = match m_unserialize co g with
        | inl e => Throw e st2
        | inr v' => Ok v' st2
        end.
Proof.
  intros Hwf Hno Hfuel He Ha Ho Hd Hobj Hhard Hser Hjson.
  set (obj' := set_props (setOwn prop (Encoded g) (props obj)) obj).
  set (st' := upd_datas <[d := obj']> st).
  destruct (wf_upd_data st l d obj obj' Hwf Hobj) as [Hwf' Hinit'].
  assert (Hno' : Forall (λ b, isInit st' b = false) l).
  { apply Forall_forall. intros b Hb. rewrite Forall_forall in Hno.
    apply Hinit'; [by apply Hno|done]. }
  assert (Hobj' : datas st' !! d = Some obj').
  { unfold st'. simpl. by rewrite lookup_insert_eq. }
  destruct (reload_after_flush co fuel env a o d obj' st' l Hwf' Hno')
    as (st1 & st2 & Hfl & _ & Hvat & Hens & _ & He2 & Hdata); try done.
  exists st', st1, st2.
  split; [by apply (setter_resident fuel env prop v g a o d obj)|].
  split; [done|]. split; [done|].
  apply dataOf_Some in Hdata as (o2 & d2 & Ho2 & Hr2 & Hdat2).
  rewrite (getter_after co fuel env prop st1 st2 Hens);
    [|by apply (ensureState_resident co fuel env (fresh (dom (inners st1))) o2 d2)].
  rewrite (getter_resident co fuel env prop (fresh (dom (inners st1))) o2 d2 _ st2
             He2 Ho2 Hr2 Hdat2).
  simpl. rewrite getOwn_setOwn_eq. by destruct (m_unserialize co g).
Qed.

(** X20.  The representatives of an instance share its state.  When a
    setter has written [prop] through the closures of one
    representative, the getter of another representative of the same
    instance returns the value written, also when the closures of that
    other representative still hold an inner self that was evicted:
    [ensureState] finds the resident inner self under the instance
    key. *)
Theorem representatives_share_state fuel env env' prop v g a o d obj a' o' st l :
  wf st l → length l + cacheSize st + 2 ≤ fuel →
  environments (world st) !! env = Some a → a ∈ l →
  inners st !! a = Some o → rawData o = Some d → datas st !! d = Some obj →
  hardened obj = false →
  environments (world st) !! env' = Some a' →
  inners st !! a' = Some o' → instanceKey o' = instanceKey o →
  rawData o' = None →
  m_serialize co v = inr g →
  ∃ st' st'',
    vom.setter co fuel env prop v st = Ok tt st'
    ∧ vom.getter co fuel env' prop st'
      = match m_unserialize co g with
        | inl e => Throw e st''
        | inr v' => Ok v' st''
        end
    ∧ environments (world st'') !! env' = Some a.
Proof.
  intros Hwf Hfuel He Ha Ho Hd Hobj Hhard He' Ho' Hkey Hraw' Hser.
  set (obj' := set_props (setOwn prop (Encoded g) (props obj)) obj).
  set (st' := upd_datas <[d := obj']> st).
  destruct (wf_upd_data st l d obj obj' Hwf Hobj) as [Hwf' _].
  assert (Hobj' : datas st' !! d = Some obj').
  { unfold st'. simpl. by rewrite lookup_insert_eq. }
  assert (Htab : liveTable st' !! instanceKey o' = Some a).
  { rewrite Hkey. apply (wf_table_lookup st' l _ _ Hwf'). split; [done|].
    unfold keyOf. simpl. by rewrite Ho. }
  pose proof (ensureState_spec co fuel env' a' o' st' l Hwf' Hfuel He' Ho' Hraw')
    as Hspec.
  rewrite Htab in Hspec.
  destruct Hspec as (c' & l' & Hens & _ & Hwfc & Hrl).
  set (st'' := upd_world (upd_environments <[env' := a]>) c') in *.
  assert (He'' : environments (world st'') !! env' = Some a).
  { unfold st''. simpl. by rewrite lookup_insert_eq. }
  assert (Hdata : dataOf st'' a = Some obj').
  { change (dataOf c' a = Some obj'). rewrite (relinked_dataOf st' c') by done.
    unfold dataOf. simpl. by rewrite Ho, Hd, lookup_insert_eq. }
  apply dataOf_Some in Hdata as (o2 & d2 & Ho2 & Hd2 & Hobj2).
  exists st', st''.
  split; [by apply (setter_resident fuel env prop v g a o d obj)|].
  split; [|done].
  rewrite (getter_after co fuel env' prop st' st'' Hens);
    [|by apply (ensureState_resident co fuel env' a o2 d2)].
  rewrite (getter_resident co fuel env' prop a o2 d2 obj' st'' He'' Ho2 Hd2 Hobj2).
  simpl. rewrite getOwn_setOwn_eq. by destruct (m_unserialize co g).
Qed.

End Sharing.

(** ** New kinds *)

Section KindCreation.
Context {Value Ground : Type}.
Local Abbreviation State := (Cache Value Ground (World Value)).
Context (co : Collaborators Value Ground).
Implicit Types (st : State) (l : list addr).

(** X21.  [makeKind] registers the kind under the ID the export counter
    gives and starts its instance counter at 1, leaving the cache and
    the kinds registered under other IDs as they are.  A vref of the
    new kind is then never refused as of an unknown kind, and the first
    [makeNewInstance] of the kind, when the marshaller accepts the
    initial properties, returns a representative for the key
    [o+<kindID>/1] unless the cache overflows. *)
Theorem makeKind_registers fuel kind args enc st l :
  wf st l → length l + cacheSize st + 2 ≤ fuel →
  liveTable st !! ("o+" +:+ pretty (nextExportID (world st)) +:+ "/1") = None →
  encodeAll co (initialProps kind args) = Some enc →
  ∃ st1,
    vom.makeKind kind st = Ok (pretty (nextExportID (world st))) st1
    ∧ wf st1 l ∧ datas st1 = datas st ∧ inners st1 = inners st
    ∧ kindTable (world st1) !! pretty (nextExportID (world st)) = Some kind
    ∧ nextInstanceID (world st1) !! pretty (nextExportID (world st)) = Some 1
    ∧ (∀ k, k ≠ pretty (nextExportID (world st)) →
         kindTable (world st1) !! k = kindTable (world st) !! k
         ∧ nextInstanceID (world st1) !! k = nextInstanceID (world st) !! k)
    ∧ (∀ vref slot e s,
         slot_parseVatSlot co vref = inr slot →
         pretty (id slot) = pretty (nextExportID (world st)) →
         vom.makeVirtualObjectRepresentative co fuel vref st1 = Throw e s →
         e = CacheOverflow ∨ e = SyntaxError ∨ e = TypeError
         ∨ e = StillInitializing)
    ∧ ((∃ rep st2,
          vom.makeNewInstance co fuel (pretty (nextExportID (world st))) kind
            args st1 = Ok rep st2
          ∧ valToSlotTable (world st2) !! RepRef rep
            = Some ("o+" +:+ pretty (nextExportID (world st)) +:+ "/1")
          ∧ nextInstanceID (world st2) !! pretty (nextExportID (world st))
            = Some 2)
       ∨ (∃ st2,
            vom.makeNewInstance co fuel (pretty (nextExportID (world st))) kind
              args st1 = Throw CacheOverflow st2
            ∧ cacheSize st < countInit st l)).
Proof.
  intros Hwf Hfuel Hkey Henc.
  set (kindID := pretty (nextExportID (world st))) in *.
  set (st1 := upd_world (upd_kindTable <[kindID := kind]>)
                (upd_world (upd_nextInstanceID <[kindID := 1]>)
                   (upd_world (set_nextExportID (nextExportID (world st) + 1)) st))).
  exists st1. split; [done|].
  assert (Hwf1 : wf st1 l) by (by do 3 apply wf_upd_world).
  split; [done|]. split; [done|]. split; [done|].
  split; [simpl; by rewrite lookup_insert_eq|].
  split; [simpl; by rewrite lookup_insert_eq|].
  split.
  { intros k Hk. simpl. by rewrite !lookup_insert_ne. }
  split.
  { intros vref slot e s Hparse Hid.
    unfold vom.makeVirtualObjectRepresentative, bind, vom.liftE.
    rewrite Hparse. unfold ret, vom.getsW, gets. rewrite Hid. simpl.
    rewrite lookup_insert_eq. intros Hthrow.
    apply (throws_reanimate co
             (λ e, e = CacheOverflow ∨ e = SyntaxError ∨ e = TypeError
                   ∨ e = StillInitializing)) in Hthrow; auto. }
  destruct (makeNewInstance_spec co fuel st1 l kindID kind args 1 enc Hwf1)
    as [(st2 & kept & o & Hrun & _ & _ & _ & _ & _ & _ & _ & _ & _ & _ & _ & _
         & Hv2s & Hni & _)|(st2 & Hrun & Hover)]; try done.
  - simpl. by rewrite lookup_insert_eq.
  - left. eexists _, st2. split; [exact Hrun|].
    split; [by rewrite Hv2s, lookup_insert_eq|].
    by rewrite Hni, lookup_insert_eq.
  - right. exists st2. split; [done|].
    assert (countInit st1 l = countInit st l) as <- by done. done.
Qed.

End KindCreation.

(** ** The two instances *)


Lemma lookup_returns_head_witness :
  wf Example.crowded [2; 1; 0]
  ∧ ∀ a c',
      cache.lookup Example.fetch Example.store 10 "a" Example.crowded = Ok a c' →
      lruHead c' = Some a ∧ keyOf (inners c') a = "a".
Proof.
  assert (Hwf : wf Example.crowded [2; 1; 0])
    by (apply wfb_sound; vm_compute; reflexivity).
  split; [exact Hwf|]. intros a c' Hlk.
  destruct (lookup_returns_head Example.fetch Example.store 10
              Example.crowded [2; 1; 0] "a" Hwf) as [_ Hret].
  - vm_compute. lia.
  - destruct (Hret a c' Hlk) as (Hhd & Hkey & _). split; [exact Hhd|exact Hkey].
Defined.

Lemma flush_stores_all_witness :
  wf (Example.cacheOf 3 ["a"; "b"]) [1; 0]
  ∧ ∃ c', cache.flush Example.store 10 (Example.cacheOf 3 ["a"; "b"]) = Ok tt c'
      ∧ liveTable c' = ∅ ∧ cacheSize c' = 3.
Proof.
  assert (Hwf : wf (Example.cacheOf 3 ["a"; "b"]) [1; 0])
    by (apply wfb_sound; vm_compute; reflexivity).
  split; [exact Hwf|].
  destruct (flush_stores_all Example.store 10 (Example.cacheOf 3 ["a"; "b"])
              [1; 0] Hwf) as (c' & order & Hrun & Htab & _ & _ & Hsize & _).
  - vm_compute. lia.
  - intros a [->|[->|Ha%elem_of_nil]%elem_of_cons]%elem_of_cons;
      [reflexivity|reflexivity|done].
  - exists c'. split; [exact Hrun|split; [exact Htab|exact Hsize]].
Defined.

(** C2.  On a cache of size 1, once "a" then "b" were looked up, both
    are resident and neither is being initialized: [remember] makes room
    before it inserts, so that [size + 1] inner selves can be resident
    when an operation has returned. *)
Theorem lookup_leaves_one_more_than_size :
  ∃ c c',
    cache.lookup Example.fetch Example.store 10 "a" (makeCache 1 []) = Ok 0 c
    ∧ cache.lookup Example.fetch Example.store 10 "b" c = Ok 1 c'
    ∧ cacheSize c' = 1
    ∧ size (liveTable c') = 2
    ∧ liveTable c' !! "a" = Some 0 ∧ liveTable c' !! "b" = Some 1
    ∧ isInit c' 0 = false ∧ isInit c' 1 = false
    ∧ stored c' = [].
Proof.
  eexists _, _. split; [vm_compute; reflexivity|].
  vm_compute. repeat split.
Qed.

(** C7.  On the manager, [makeNewInstance(7)] of the counter kind
    returns a representative that was not hardened: it is still
    extensible when the initialization is over, and only the state object
    was frozen by [wrapData].  The representative [reanimate] makes for
    the same instance is hardened. *)
Theorem makeNewInstance_representative_not_frozen :
  ∃ st' r data,
    vom.makeNewInstance Example.collaborators 20 "1" Example.counter ["7"]
      Example.manager = Ok 0 st'
    ∧ representatives (world st') !! 0 = Some r
    ∧ frozen r = false
    ∧ state r = Some 0 ∧ datas st' !! 0 = Some data ∧ hardened data = true
    ∧ ∃ st'' r',
        vom.makeVirtualObjectRepresentative Example.collaborators 20 "o+1/1"
          (run (vom.flushCache Example.collaborators 20) st') = Ok 1 st''
        ∧ representatives (world st'') !! 1 = Some r'
        ∧ frozen r' = true.
Proof.
  eexists _, _, _. split; [vm_compute; reflexivity|].
  split; [vm_compute; reflexivity|]. split; [reflexivity|].
  split; [reflexivity|]. split; [vm_compute; reflexivity|].
  split; [reflexivity|].
  eexists _, _. split; [vm_compute; reflexivity|].
  split; [vm_compute; reflexivity|]. reflexivity.
Qed.



Lemma setter_serializes_first_witness :
  vom.setter Example.collaborators 20 1 "count" "function f() {}" Example.revived
  = Throw (External "Cannot pass non-frozen objects like functions")
      Example.revived.
Proof.
  apply (setter_serializes_first Example.collaborators 20 Example.revived 1
           "count" "function f() {}"
           (External "Cannot pass non-frozen objects like functions")).
  reflexivity.
Defined.

Lemma weakStore_contract_witness :
  (vom.get Example.collaborators (mkWeakStore 1 "thing") (RepRef 1)
     (run (vom.makeWeakStore "thing") Example.revived)
   = Throw (NotFound "thing") (run (vom.makeWeakStore "thing") Example.revived)
   ∧ vom.delete Example.collaborators (mkWeakStore 1 "thing") (RepRef 1)
       (run (vom.makeWeakStore "thing") Example.revived)
     = Throw (NotFound "thing")
         (run (vom.makeWeakStore "thing") Example.revived)
   ∧ ∃ st',
       vom.init Example.collaborators (mkWeakStore 1 "thing") (RepRef 1) "seven"
         (run (vom.makeWeakStore "thing") Example.revived) = Ok tt st'
       ∧ vom.get Example.collaborators (mkWeakStore 1 "thing") (RepRef 1) st'
         = Ok "seven" st'
       ∧ vom.has Example.collaborators (mkWeakStore 1 "thing") (RepRef 1) st'
         = Ok true st')
  ∧ (vom.init Example.collaborators (mkWeakStore 1 "thing") (RepRef 1) "eight"
       (run (vom.init Example.collaborators (mkWeakStore 1 "thing") (RepRef 1)
               "seven")
          (run (vom.makeWeakStore "thing") Example.revived))
     = Throw (AlreadyRegistered "thing")
         (run (vom.init Example.collaborators (mkWeakStore 1 "thing") (RepRef 1)
                 "seven")
            (run (vom.makeWeakStore "thing") Example.revived))
     ∧ ∃ st',
         vom.delete Example.collaborators (mkWeakStore 1 "thing") (RepRef 1)
           (run (vom.init Example.collaborators (mkWeakStore 1 "thing")
                   (RepRef 1) "seven")
              (run (vom.makeWeakStore "thing") Example.revived)) = Ok tt st'
         ∧ vom.has Example.collaborators (mkWeakStore 1 "thing") (RepRef 1) st'
           = Ok false st')
  ∧ message (NotFound "thing")
    = String "034"%char ("thing" +:+ String "034"%char " not found: (an object)")
  ∧ message (AlreadyRegistered "thing")
    = String "034"%char
        ("thing" +:+ String "034"%char " already registered: (an object)").
Proof.
  assert (H1 : ∀ g, JSON_parseGround Example.collaborators
                      (JSON_stringifyGround Example.collaborators g) = Some g)
    by (intros g; reflexivity).
  assert (H2 : ∀ g, JSON_stringifyGround Example.collaborators g ≠ "")
    by (intros g; discriminate).
  assert (H3 : ∀ v g, m_serialize Example.collaborators v = inr g →
                 m_unserialize Example.collaborators g = inr v).
  { intros v g. unfold Example.collaborators, Example.serialize. simpl.
    destruct (String.prefix "function" v); [discriminate|].
    intros [= ->]. reflexivity. }
  destruct (weakStore_contract Example.collaborators (mkWeakStore 1 "thing")
              (RepRef 1) (run (vom.makeWeakStore "thing") Example.revived)
              H1 H2 H3)
    as (_ & Habsent & _ & _ & Hmsg1 & Hmsg2).
  destruct (weakStore_contract Example.collaborators (mkWeakStore 1 "thing")
              (RepRef 1)
              (run (vom.init Example.collaborators (mkWeakStore 1 "thing")
                      (RepRef 1) "seven")
                 (run (vom.makeWeakStore "thing") Example.revived))
              H1 H2 H3)
    as (Hpresent & _).
  pose proof (Habsent ltac:(vm_compute; reflexivity))
    as (Hget & _ & Hdelete & Hinit).
  pose proof (Hpresent ltac:(vm_compute; reflexivity))
    as (Hthrow & Hgone & _).
  split; [|split; [|split]].
  - split; [exact Hget|]. split; [exact Hdelete|].
    destruct (Hinit "seven") as [Hok|(e & Hs & _)]; [exact Hok|].
    vm_compute in Hs. discriminate.
  - split; [exact (Hthrow "eight")|exact Hgone].
  - etrans; [exact Hmsg2|vm_compute; reflexivity].
  - etrans; [exact Hmsg1|vm_compute; reflexivity].
Defined.

Lemma makeVirtualObjectRepresentative_unknown_kind_witness :
  vom.makeVirtualObjectRepresentative Example.collaborators 20 "o+99/1"
    Example.manager
  = Throw (UnknownKind "99") Example.manager
  ∧ message (UnknownKind "99") = "unknown kind 99".
Proof.
  apply (makeVirtualObjectRepresentative_unknown_kind Example.collaborators 20
           Example.manager "o+99/1" (mkVatSlot "object" true 99)).
  - vm_compute. reflexivity.
  - vm_compute. reflexivity.
Defined.

Lemma lookup_never_created_throws_witness :
  vom.makeVirtualObjectRepresentative Example.collaborators 20 "o+1/5"
    Example.manager
  = Throw SyntaxError Example.manager.
Proof.
  apply (lookup_never_created_throws Example.collaborators 20 Example.manager
           "o+1/5") with (slot := mkVatSlot "object" true 1)
                         (kind := Example.counter).
  - vm_compute. reflexivity.
  - vm_compute. reflexivity.
  - vm_compute. reflexivity.
  - vm_compute. reflexivity.
Defined.


(** ** Instances for the properties of the cache *)

(** A client that looks up "a" and "new1", flushes while "new1" is being
    initialized, and looks up "b". *)
Lemma cache_calls_keep_shape_witness :
  (∃ l, wf (calls Example.fetch Example.store 10
              [CallLookup "a"; CallLookup "new1"; CallFlush; CallLookup "b"]
              (makeCache 1 [])) l ∧ length l ≤ 1 + 1)
  ∧ cacheSize (calls Example.fetch Example.store 10
                 [CallLookup "a"; CallLookup "new1"; CallFlush; CallLookup "b"]
                 (makeCache 1 [])) ≤ 1.
Proof.
  destruct (cache_calls_keep_shape Example.fetch Example.store 1 [] 10
              [CallLookup "a"; CallLookup "new1"; CallFlush; CallLookup "b"])
    as (Hwf & Hsize & _).
  - vm_compute. lia.
  - split; [exact Hwf|exact Hsize].
Defined.

Lemma makeRoom_evicts_least_recent_witness :
  wf (set_cacheSize 1 (Example.cacheOf 3 ["a"; "b"; "c"])) [2; 1; 0]
  ∧ ∃ c', cache.makeRoom Example.store 10
            (set_cacheSize 1 (Example.cacheOf 3 ["a"; "b"; "c"])) = Ok tt c'
      ∧ wf c' [2]
      ∧ stored c'
        = stored (set_cacheSize 1 (Example.cacheOf 3 ["a"; "b"; "c"]))
          ++ omap (entry (set_cacheSize 1 (Example.cacheOf 3 ["a"; "b"; "c"])))
               [0; 1].
Proof.
  assert (Hwf : wf (set_cacheSize 1 (Example.cacheOf 3 ["a"; "b"; "c"])) [2; 1; 0])
    by (apply wfb_sound; vm_compute; reflexivity).
  split; [exact Hwf|].
  destruct (makeRoom_evicts_least_recent Example.store 10
              (set_cacheSize 1 (Example.cacheOf 3 ["a"; "b"; "c"])) [2; 1; 0] Hwf)
    as (c' & Hrun & Hwf' & Hstored & _).
  - repeat (constructor; [vm_compute; reflexivity|]). constructor.
  - simpl. lia.
  - exists c'. split; [exact Hrun|]. split; [exact Hwf'|exact Hstored].
Defined.

Lemma lookup_miss_keeps_most_recent_witness :
  wf (Example.cacheOf 1 ["a"; "b"]) [1; 0]
  ∧ ∃ c', cache.lookup Example.fetch Example.store 10 "c"
            (Example.cacheOf 1 ["a"; "b"]) = Ok 2 c'
      ∧ wf c' [2; 1].
Proof.
  assert (Hwf : wf (Example.cacheOf 1 ["a"; "b"]) [1; 0])
    by (apply wfb_sound; vm_compute; reflexivity).
  split; [exact Hwf|].
  destruct (lookup_miss_keeps_most_recent Example.fetch Example.store 10
              (Example.cacheOf 1 ["a"; "b"]) [1; 0] "c"
              (mkData false [("key", Encoded "c")] false) Hwf)
    as (c' & Hrun & Hwf' & _).
  - repeat (constructor; [vm_compute; reflexivity|]). constructor.
  - vm_compute. reflexivity.
  - reflexivity.
  - vm_compute. lia.
  - exists c'. split; [exact Hrun|exact Hwf'].
Defined.

Lemma flush_overflow_leaves_size_zero_witness :
  wf (Example.cacheOf 3 ["a"; "new1"]) [1; 0]
  ∧ ∃ c', cache.flush Example.store 10 (Example.cacheOf 3 ["a"; "new1"])
          = Throw CacheOverflow c'
      ∧ cacheSize c' = 0.
Proof.
  assert (Hwf : wf (Example.cacheOf 3 ["a"; "new1"]) [1; 0])
    by (apply wfb_sound; vm_compute; reflexivity).
  split; [exact Hwf|].
  destruct (flush_overflow_leaves_size_zero Example.store 10
              (Example.cacheOf 3 ["a"; "new1"]) [1; 0] 1 Hwf)
    as (c' & Hrun & Hsize & _).
  - apply list_elem_of_here.
  - vm_compute. reflexivity.
  - simpl. lia.
  - exists c'. split; [exact Hrun|exact Hsize].
Defined.

Lemma lookup_hit_needs_no_storage_witness :
  wf Example.crowded [2; 1; 0]
  ∧ ∃ c', cache.lookup Example.fetch Example.store 10 "a" Example.crowded = Ok 0 c'
      ∧ stored c' = stored Example.crowded
      ∧ world c' = world Example.crowded.
Proof.
  assert (Hwf : wf Example.crowded [2; 1; 0])
    by (apply wfb_sound; vm_compute; reflexivity).
  split; [exact Hwf|].
  destruct (lookup_hit_needs_no_storage Example.fetch Example.fetch
              Example.store Example.store 10 Example.crowded [2; 1; 0] "a" 0 Hwf)
    as (l1 & l2 & c' & _ & Hrun & _ & _ & _ & _ & Hstored & Hworld & _).
  - vm_compute. reflexivity.
  - exists c'. split; [exact Hrun|]. split; [exact Hstored|exact Hworld].
Defined.


(** ** Instances for the properties of the manager *)

Lemma weakStore_set_then_get_witness :
  ∃ st',
    vom.set Example.collaborators (mkWeakStore 1 "thing") (RepRef 1) "eight"
      (run (vom.init Example.collaborators (mkWeakStore 1 "thing") (RepRef 1) "seven")
         (run (vom.makeWeakStore "thing") Example.revived)) = Ok tt st'
    ∧ vom.get Example.collaborators (mkWeakStore 1 "thing") (RepRef 1) st'
      = Ok "eight" st'.
Proof.
  destruct (weakStore_set_then_get Example.collaborators (mkWeakStore 1 "thing")
              (RepRef 1) "eight"
              (run (vom.init Example.collaborators (mkWeakStore 1 "thing")
                      (RepRef 1) "seven")
                 (run (vom.makeWeakStore "thing") Example.revived))
              (run (vom.set Example.collaborators (mkWeakStore 1 "thing")
                      (RepRef 1) "eight")
                 (run (vom.init Example.collaborators (mkWeakStore 1 "thing")
                         (RepRef 1) "seven")
                    (run (vom.makeWeakStore "thing") Example.revived))))
    as (_ & Hget & _).
  - intros g. reflexivity.
  - intros g. discriminate.
  - intros v g. unfold Example.collaborators, Example.serialize. simpl.
    destruct (String.prefix "function" v); [discriminate|].
    intros [= ->]. reflexivity.
  - vm_compute. reflexivity.
  - eexists. split; [|exact Hget]. vm_compute. reflexivity.
Defined.

(** The two representatives of the instance "o+1/1" are one key. *)
Lemma weakStore_keyed_by_instance_witness :
  vom.has Example.collaborators (mkWeakStore 1 "thing") (RepRef 0)
    (run (vom.makeWeakStore "thing") Example.revived)
  = vom.has Example.collaborators (mkWeakStore 1 "thing") (RepRef 1)
      (run (vom.makeWeakStore "thing") Example.revived).
Proof.
  apply (weakStore_keyed_by_instance Example.collaborators (mkWeakStore 1 "thing")
           (RepRef 1) (RepRef 0) "ws1.o+1/1"
           (run (vom.makeWeakStore "thing") Example.revived)).
  - vm_compute. reflexivity.
  - vm_compute. reflexivity.
Defined.

Lemma weakStore_other_keys_untouched_witness :
  ∃ st',
    vom.init Example.collaborators (mkWeakStore 1 "thing") (RepRef 1) "seven"
      (run (vom.makeWeakStore "thing") Example.revived) = Ok tt st'
    ∧ ∀ b,
        vom.has Example.collaborators (mkWeakStore 1 "thing") (OtherRef 5)
          (run (vom.makeWeakStore "thing") Example.revived)
        = Ok b (run (vom.makeWeakStore "thing") Example.revived) →
        vom.has Example.collaborators (mkWeakStore 1 "thing") (OtherRef 5) st'
        = Ok b st'.
Proof.
  destruct (weakStore_other_keys_untouched Example.collaborators
              (mkWeakStore 1 "thing") (mkWeakStore 1 "thing")
              (RepRef 1) (OtherRef 5) (Some "ws1.o+1/1") None
              (run (vom.makeWeakStore "thing") Example.revived)
              (run (vom.init Example.collaborators (mkWeakStore 1 "thing")
                      (RepRef 1) "seven")
                 (run (vom.makeWeakStore "thing") Example.revived)))
    as (Hhas & _).
  - vm_compute. reflexivity.
  - vm_compute. reflexivity.
  - exact I.
  - left. exists "seven". vm_compute. reflexivity.
  - eexists. split; [|exact Hhas]. vm_compute. reflexivity.
Defined.

Lemma setter_then_getter_witness :
  ∃ st',
    vom.setter Example.collaborators 20 1 "count" "8" Example.revived = Ok tt st'
    ∧ vom.getter Example.collaborators 20 1 "count" st' = Ok "8" st'.
Proof.
  destruct (setter_then_getter Example.collaborators 20 1 "count" "8" "8" 1
              (mkInner "o+1/1" (Some 2) None None None) 2
              (mkData false [("count", Encoded "7")] false) Example.revived)
    as (st' & Hset & _ & Hget & _).
  - vm_compute. reflexivity.
  - vm_compute. reflexivity.
  - reflexivity.
  - vm_compute. reflexivity.
  - reflexivity.
  - reflexivity.
  - exists st'. split; [exact Hset|exact Hget].
Defined.

(** [wrapData] on a new, empty object, for the closures of the revived
    representative. *)
Lemma wrapData_installs_accessors_witness :
  ∃ st',
    vom.wrapData_ 1 4 (run (allocData (mkData false [] false)) Example.revived)
    = Ok tt st'.
Proof.
  destruct (wrapData_installs_accessors Example.collaborators 20 1 4
              (mkData false [] false) 1
              (mkInner "o+1/1" (Some 2) None None None) 2
              (mkData false [("count", Encoded "7")] false)
              (run (allocData (mkData false [] false)) Example.revived))
    as [_ Hok].
  - vm_compute. reflexivity.
  - vm_compute. reflexivity.
  - vm_compute. reflexivity.
  - reflexivity.
  - vm_compute. reflexivity.
  - destruct (Hok eq_refl eq_refl) as (st' & t' & Hrun & _).
    exists st'. exact Hrun.
Defined.

(** The closures of the first representative, once its inner self was
    evicted. *)
Lemma ensureState_ensures_witness :
  wf Example.revived [1]
  ∧ ((∃ st', vom.ensureState Example.collaborators 20 0 Example.revived = Ok tt st')
     ∨ (∃ e st', vom.ensureState Example.collaborators 20 0 Example.revived
                 = Throw e st'
          ∧ liveTable Example.revived !! "o+1/1" = None
          ∧ ((vom.fetch Example.collaborators "o+1/1" (world Example.revived)
              = inl e ∧ st' = Example.revived)
             ∨ (e = CacheOverflow
                ∧ cacheSize Example.revived < countInit Example.revived [1])))).
Proof.
  assert (Hwf : wf Example.revived [1])
    by (apply wfb_sound; vm_compute; reflexivity).
  split; [exact Hwf|].
  destruct (ensureState_ensures Example.collaborators 20 0 0
              (mkInner "o+1/1" None None None None) Example.revived [1] Hwf)
    as [_ Hnone].
  - vm_compute. lia.
  - vm_compute. reflexivity.
  - vm_compute. reflexivity.
  - destruct (Hnone eq_refl) as [Hres _]. exact Hres.
Defined.

Lemma state_survives_flush_witness :
  wf Example.revived [1]
  ∧ ∃ st1 st2,
      vom.flushCache Example.collaborators 20 Example.revived = Ok tt st1
      ∧ vom.getter Example.collaborators 20 1 "count" st1
        = in_state (vom.getter Example.collaborators 20 1 "count" Example.revived)
            st2.
Proof.
  assert (Hwf : wf Example.revived [1])
    by (apply wfb_sound; vm_compute; reflexivity).
  split; [exact Hwf|].
  destruct (state_survives_flush Example.collaborators 20 1 "count" 1
              (mkInner "o+1/1" (Some 2) None None None) 2
              (mkData false [("count", Encoded "7")] false)
              Example.revived [1] Hwf)
    as (st1 & st2 & Hfl & _ & _ & _ & _ & Hget).
  - repeat (constructor; [vm_compute; reflexivity|]). constructor.
  - vm_compute. lia.
  - vm_compute. reflexivity.
  - apply list_elem_of_here.
  - vm_compute. reflexivity.
  - reflexivity.
  - vm_compute. reflexivity.
  - vm_compute. reflexivity.
  - exists st1, st2. split; [exact Hfl|exact Hget].
Defined.


(** The counter "o+1/1" once the cache was flushed. *)
Lemma makeVirtualObjectRepresentative_revives_witness :
  wf (run (vom.flushCache Example.collaborators 20)
        (run (vom.makeNewInstance Example.collaborators 20 "1" Example.counter ["7"])
           Example.manager)) []
  ∧ ∃ rep env st',
      vom.makeVirtualObjectRepresentative Example.collaborators 20 "o+1/1"
        (run (vom.flushCache Example.collaborators 20)
           (run (vom.makeNewInstance Example.collaborators 20 "1" Example.counter ["7"])
              Example.manager)) = Ok rep st'
      ∧ vom.getter Example.collaborators 20 env "count" st' = Ok "7" st'.
Proof.
  assert (Hwf : wf (run (vom.flushCache Example.collaborators 20)
                      (run (vom.makeNewInstance Example.collaborators 20 "1"
                              Example.counter ["7"]) Example.manager)) [])
    by (apply wfb_sound; vm_compute; reflexivity).
  split; [exact Hwf|].
  destruct (makeVirtualObjectRepresentative_revives Example.collaborators 20 _ []
              "o+1/1" (mkVatSlot "object" true 1) Example.counter Hwf)
    as [(rep & env & st' & a & d & t & raw & l' & Hrun & _ & _ & _ & _ & _ & _
         & Hraw & _ & _ & _ & _ & _ & Hget)
       |(e & st' & _ & _ & [[Hfetch _]|[_ Hover]])].
  - vm_compute. lia.
  - vm_compute. reflexivity.
  - vm_compute. reflexivity.
  - exists rep, env, st'. split; [exact Hrun|].
    rewrite (Hget "count").
    vm_compute in Hraw. injection Hraw as <-. reflexivity.
  - exfalso. vm_compute in Hfetch. discriminate.
  - exfalso. vm_compute in Hover. lia.
Defined.

(** A call that throws, the count being a function. *)
Lemma makeNewInstance_always_counts_witness :
  ∃ st',
    final (vom.makeNewInstance Example.collaborators 20 "1" Example.counter
             ["function f() {}"] Example.manager) = Some st'
    ∧ nextInstanceID (world st')
      = <["1" := 1 + 1]> (nextInstanceID (world Example.manager)).
Proof.
  destruct (makeNewInstance_always_counts Example.collaborators 20 "1"
              Example.counter ["function f() {}"] Example.manager
              (run (vom.makeNewInstance Example.collaborators 20 "1"
                      Example.counter ["function f() {}"]) Example.manager) 1)
    as (Hnext & _).
  - vm_compute. reflexivity.
  - vm_compute. reflexivity.
  - eexists. split; [|exact Hnext]. vm_compute. reflexivity.
Defined.


Lemma write_survives_flush_witness :
  wf Example.revived [1]
  ∧ ∃ st' st1 st2,
      vom.setter Example.collaborators 20 1 "count" "8" Example.revived = Ok tt st'
      ∧ vom.flushCache Example.collaborators 20 st' = Ok tt st1
      ∧ vom.getter Example.collaborators 20 1 "count" st1 = Ok "8" st2.
Proof.
  assert (Hwf : wf Example.revived [1])
    by (apply wfb_sound; vm_compute; reflexivity).
  split; [exact Hwf|].
  destruct (write_survives_flush Example.collaborators 20 1 "count" "8" "8" 1
              (mkInner "o+1/1" (Some 2) None None None) 2
              (mkData false [("count", Encoded "7")] false)
              Example.revived [1] Hwf)
    as (st' & st1 & st2 & Hset & Hfl & _ & Hget).
  - repeat (constructor; [vm_compute; reflexivity|]). constructor.
  - vm_compute. lia.
  - vm_compute. reflexivity.
  - apply list_elem_of_here.
  - vm_compute. reflexivity.
  - reflexivity.
  - vm_compute. reflexivity.
  - reflexivity.
  - reflexivity.
  - vm_compute. reflexivity.
  - exists st', st1, st2. split; [exact Hset|]. split; [exact Hfl|exact Hget].
Defined.

(** The first representative of "o+1/1", whose inner self was evicted,
    reads what was written through the second. *)
Lemma representatives_share_state_witness :
  wf Example.revived [1]
  ∧ ∃ st' st'',
      vom.setter Example.collaborators 20 1 "count" "8" Example.revived = Ok tt st'
      ∧ vom.getter Example.collaborators 20 0 "count" st' = Ok "8" st''.
Proof.
  assert (Hwf : wf Example.revived [1])
    by (apply wfb_sound; vm_compute; reflexivity).
  split; [exact Hwf|].
  destruct (representatives_share_state Example.collaborators 20 1 0 "count"
              "8" "8" 1 (mkInner "o+1/1" (Some 2) None None None) 2
              (mkData false [("count", Encoded "7")] false)
              0 (mkInner "o+1/1" None None None None)
              Example.revived [1] Hwf)
    as (st' & st'' & Hset & Hget & _).
  - vm_compute. lia.
  - vm_compute. reflexivity.
  - apply list_elem_of_here.
  - vm_compute. reflexivity.
  - reflexivity.
  - vm_compute. reflexivity.
  - reflexivity.
  - vm_compute. reflexivity.
  - vm_compute. reflexivity.
  - reflexivity.
  - reflexivity.
  - reflexivity.
  - exists st', st''. split; [exact Hset|exact Hget].
Defined.


Lemma makeKind_registers_witness :
  wf Example.fresh_manager []
  ∧ ∃ st1,
      vom.makeKind Example.counter Example.fresh_manager = Ok "1" st1
      ∧ kindTable (world st1) !! "1" = Some Example.counter
      ∧ nextInstanceID (world st1) !! "1" = Some 1.
Proof.
  assert (Hwf : wf Example.fresh_manager [])
    by (apply wfb_sound; vm_compute; reflexivity).
  split; [exact Hwf|].
  destruct (makeKind_registers Example.collaborators 20 Example.counter ["7"]
              [("count", Encoded "7")] Example.fresh_manager [] Hwf)
    as (st1 & Hrun & _ & _ & _ & Hkind & Hnext & _).
  - vm_compute. lia.
  - vm_compute. reflexivity.
  - vm_compute. reflexivity.
  - exists st1. split; [exact Hrun|]. split; [exact Hkind|exact Hnext].
Defined.
